(** * smart_pet_bowl: a shallow embedding of the camera control layer

  The repository is a thin layer over a machine-vision SDK (PySpin) and an
  image-display library (cv2).  This development embeds the parts of
  [Camera.py], [food_monitor.py] and [DataHandler.py] that carry logic of
  their own: the chunked file upload, the register-configuration
  routines, the 8-bit to 10-bit raster conversion, the bounding-box
  extraction and the two display loops.

  Python integers are unbounded and are embedded as [Z]; [//] and [%] are
  floor division and its remainder, which is what [Z.div] and [Z.modulo]
  compute for a non-zero divisor. *)

From Stdlib Require Import ZArith List Lia Bool String Ascii QArith Qminmax DecimalString.
From stdpp Require Import base list strings gmap.

Local Open Scope Z_scope.

(** ** Python and numpy primitives *)

Module Py.

(** [range(k)]: the integers [0, 1, ..., k-1]; empty when [k <= 0]. *)
Definition range (k : Z) : list Z := Z.of_nat <$> seq 0 (Z.to_nat k).

(** Index normalisation of a slice bound (step 1): a negative bound counts
    from the end, and both bounds are clamped into [0, len]. *)
Definition adjust_index (len i : Z) : Z :=
  if i <? 0 then Z.max (i + len) 0 else Z.min i len.

(** [l[st:en]] *)
Definition slice {A} (l : list A) (st en : Z) : list A :=
  let len := Z.of_nat (length l) in
  let s := adjust_index len st in
  let e := adjust_index len en in
  take (Z.to_nat (e - s)) (drop (Z.to_nat s) l).

(** The loop of [numpy.array_split] over consecutive division points:
    [sub_arys.append(sary[div_points[i]:div_points[i + 1]])]. *)
Fixpoint sub_arys {A} (sary : list A) (div_points : list Z) : list (list A) :=
  match div_points with
  | st :: ((en :: _) as rest) => slice sary st en :: sub_arys sary rest
  | _ => []
  end.

(** [numpy.array_split(ary, indices)] for a list of indices:
    [div_points = [0] + list(indices) + [Ntotal]], giving
    [len(indices) + 1] sub-arrays. *)
Definition array_split {A} (ary : list A) (indices : list Z) : list (list A) :=
  sub_arys ary (0 :: indices ++ [Z.of_nat (length ary)]).

End Py.

(** ** FileAccess: the splitting of the file into chunks
  ([file_access_upload], the part between reading the file and the write
  loop) *)

Module Chunking.

(** [write_iterations = (total // size) + (0 if total % size == 0 else 1)].
    A zero [size] raises [ZeroDivisionError] in the source; the upload
    routine below checks for it before it uses this function. *)
Definition write_iterations (total_bytes_to_write intermediate_buffer_size : Z) : Z :=
  total_bytes_to_write / intermediate_buffer_size +
  (if total_bytes_to_write mod intermediate_buffer_size =? 0 then 0 else 1).

(** The split points:
    [for index in range(write_iterations): num = index * size;
     if num == 0: continue; sections.append(num)] *)
Definition sections (write_iterations intermediate_buffer_size : Z) : list Z :=
  filter (fun num => num <> 0)
         ((fun index => index * intermediate_buffer_size) <$> Py.range write_iterations).

(** [split_data = np.array_split(file_data, sections)], with
    [num_bytes] the length of the file. *)
Definition split_data (file_data : list Byte.byte) (intermediate_buffer_size : Z)
  : list (list Byte.byte) :=
  let num_bytes := Z.of_nat (length file_data) in
  Py.array_split file_data
    (sections (write_iterations num_bytes intermediate_buffer_size)
              intermediate_buffer_size).

(** A list of division points is a chain when it never decreases. *)
Fixpoint chain (a : Z) (pts : list Z) : Prop :=
  match pts with
  | [] => True
  | b :: rest => a <= b /\ chain b rest
  end.

End Chunking.

(** ** The vendor SDK as seen by the repository

  Every interaction with the camera (and with the host file system) is a
  [Call]; a run of a routine is recorded as the list of the calls it made
  together with what each one answered.  The camera itself is not part
  of the repository: it is an arbitrary [World], a function that answers
  a call given everything that happened before.  [print] statements are
  left out throughout. *)

Module Spin.

(** The exception classes that occur; all of them derive from
    [Exception], so [except Exception] catches each of them (what lies
    outside [Exception], such as [KeyboardInterrupt], is not part of the
    model).  [NameError] also stands for its subclass
    [UnboundLocalError]. *)
Inductive exn : Type :=
| SpinnakerException
| FileAccessError (msg : string)
| ZeroDivisionError
| IndexError
| KeyError
| NameError
| TypeError
| ValueError
| OtherException (name : string).

Inductive AccessMode := NI | NA | WO | RO | RW.
Inductive FileOperationSelector :=
| FileOperationSelector_Open | FileOperationSelector_Close
| FileOperationSelector_Read | FileOperationSelector_Write
| FileOperationSelector_Delete.
Inductive FileOpenMode := FileOpenMode_Read | FileOpenMode_Write | FileOpenMode_ReadWrite.
Inductive FileOperationStatus :=
| FileOperationStatus_Success | FileOperationStatus_Failure | FileOperationStatus_Overflow.

(** A node of the register map, reached by name, or an entry of an
    enumeration node. *)
Inductive Node :=
| NodeByName (name : string)
| EntryByName (node : Node) (name : string).

Inductive Call : Type -> Type :=
| Init : Call unit
| DeInit : Call unit
| GetNodeMap : Call unit
| GetNode (name : string) : Call unit
| GetEntryByName (node : Node) (name : string) : Call unit
| IsAvailable (node : Node) : Call bool
| IsWritable (node : Node) : Call bool
| IsReadable (node : Node) : Call bool
| Entry_GetValue (entry : Node) : Call Z
| SetIntValue (node : Node) (v : Z) : Call unit
| Integer_GetMax (node : Node) : Call Z
| Integer_SetValue (node : Node) (v : Z) : Call unit
| FileSelector_GetAccessMode : Call AccessMode
| FileSize_GetValue : Call Z
| FileAccessLength_GetValue : Call Z
| FileAccessLength_SetValue (v : Z) : Call unit
| FileAccessBuffer_GetLength : Call Z
| FileAccessBuffer_Set (data : list Byte.byte) : Call unit
| FileAccessOffset_SetValue (v : Z) : Call unit
| FileAccessOffset_GetValue : Call Z
| FileOperationSelector_SetValue (op : FileOperationSelector) : Call unit
| FileOpenMode_SetValue (mode : FileOpenMode) : Call unit
| FileOperationExecute_Execute : Call unit
| FileOperationStatus_GetValue : Call FileOperationStatus
| FileOperationResult_GetValue : Call Z
(* the host: [open(path, 'rb')] and reading the whole file,
   [ndarray.tofile(path)], [os.remove(path)] *)
| ReadFile (path : string) : Call (list Byte.byte)
| ToFile (path : string) (words : list Z) : Call unit
| Remove (path : string) : Call unit.

Inductive event : Type :=
| Ev {T : Type} (c : Call T) (r : exn + T).

Abbreviation trace := (list event).
Definition World := trace -> forall T, Call T -> exn + T.

(** Computations that talk to the world: they extend the trace and
    either raise or return. *)
Definition M (A : Type) : Type := World -> trace -> trace * (exn + A).

Definition ret {A} (a : A) : M A := fun _ t => (t, inr a).
Definition raise {A} (e : exn) : M A := fun _ t => (t, inl e).
Definition bind {A B} (m : M A) (f : A -> M B) : M B :=
  fun w t =>
    match m w t with
    | (t', inl e) => (t', inl e)
    | (t', inr a) => f a w t'
    end.
Definition call {T} (c : Call T) : M T :=
  fun w t => let r := w t T c in (t ++ [Ev c r], r).

(** [try: m except ...]: [handler e] is the matching [except] clause, if
    there is one. *)
Definition try_except {A} (m : M A) (handler : exn -> option (M A)) : M A :=
  fun w t =>
    match m w t with
    | (t', inl e) =>
        match handler e with
        | Some h => h w t'
        | None => (t', inl e)
        end
    | (t', inr a) => (t', inr a)
    end.

(** [try: m finally: fin] where [fin] ends in a [return]: whatever [m]
    returned or raised is discarded. *)
Definition finally_return {A B} (m : M A) (fin : M B) : M B :=
  fun w t => fin w (fst (m w t)).

Declare Scope spin_scope.
Delimit Scope spin_scope with spin.
Notation "x <- m ;; k" := (bind m (fun x => k))
  (at level 100, m at next level, right associativity) : spin_scope.
Notation "m ;;; k" := (bind m (fun _ => k))
  (at level 100, right associativity) : spin_scope.

(** [not PySpin.IsAvailable(node) or not check(node)], evaluated left to
    right with the short circuit of [or]. *)
Definition not_available_or_not (check : Node -> Call bool) (node : Node) : M bool :=
  (a <- call (IsAvailable node) ;;
   if negb a then ret true
   else c <- call (check node) ;; ret (negb c))%spin.

(** [l[i]] for a list, as in [split_data[i]] or [img.shape[0]]. *)
Definition getitem {A} (l : list A) (i : Z) : M A :=
  let len := Z.of_nat (length l) in
  let j := if i <? 0 then i + len else i in
  if j <? 0 then raise IndexError
  else match l !! Z.to_nat j with
       | Some x => ret x
       | None => raise IndexError
       end.

End Spin.

(** ** [class FileAccess] of Camera.py

    Every routine of the class takes the camera [cam] as its first
    argument; in the embedding the camera is the world the computation
    runs in. *)

Module FileAccess.
Import Spin.
Local Open Scope spin_scope.

Definition status_ok (s : FileOperationStatus) : bool :=
  match s with FileOperationStatus_Success => true | _ => false end.

Definition except_SpinnakerException (e : exn) : option (M bool) :=
  match e with SpinnakerException => Some (ret false) | _ => None end.

Definition open_file_to_write : M bool :=
  try_except
    (call (FileOperationSelector_SetValue FileOperationSelector_Open) ;;;
     call (FileOpenMode_SetValue FileOpenMode_Write) ;;;
     call FileOperationExecute_Execute ;;;
     s <- call FileOperationStatus_GetValue ;;
     if negb (status_ok s) then ret false else ret true)
    except_SpinnakerException.

Definition close_file : M bool :=
  try_except
    (call (FileOperationSelector_SetValue FileOperationSelector_Close) ;;;
     call FileOperationExecute_Execute ;;;
     s <- call FileOperationStatus_GetValue ;;
     if negb (status_ok s) then ret false else ret true)
    except_SpinnakerException.

Definition execute_delete_command : M bool :=
  try_except
    (call (FileOperationSelector_SetValue FileOperationSelector_Delete) ;;;
     call FileOperationExecute_Execute ;;;
     s <- call FileOperationStatus_GetValue ;;
     if negb (status_ok s) then ret false else ret true)
    except_SpinnakerException.

Definition execute_write_command : M bool :=
  try_except
    (call (FileOperationSelector_SetValue FileOperationSelector_Write) ;;;
     call FileOperationExecute_Execute ;;;
     s <- call FileOperationStatus_GetValue ;;
     if negb (status_ok s) then ret false else ret true)
    except_SpinnakerException.

(** [if not f(cam): raise FileAccessError(msg)] *)
Definition unless_raise (f : M bool) (msg : string) : M unit :=
  ok <- f ;; if negb ok then raise (FileAccessError msg) else ret tt.

(** The write loop, [for i in range(write_iterations)], over the
    remaining indices; the state is
    [(bytes_left_to_write, total_bytes_written)]. *)
Fixpoint write_loop (split_data : list (list Byte.byte))
    (intermediate_buffer_size total_bytes_to_write : Z) (debug : bool)
    (indices : list Z) (st : Z * Z) : M (Z * Z) :=
  match indices with
  | [] => ret st
  | i :: rest =>
      let '(bytes_left_to_write, total_bytes_written) := st in
      tmp_buffer <- getitem split_data i ;;
      call (FileAccessBuffer_Set tmp_buffer) ;;;
      (if intermediate_buffer_size >? bytes_left_to_write
       then call (FileAccessLength_SetValue bytes_left_to_write)
       else ret tt) ;;;
      unless_raise execute_write_command "Write stream failed!" ;;;
      size_written <- call FileOperationResult_GetValue ;;
      let total_bytes_written := total_bytes_written + size_written in
      let bytes_left_to_write := total_bytes_to_write - total_bytes_written in
      (if debug then call FileAccessOffset_GetValue ;;; ret tt else ret tt) ;;;
      write_loop split_data intermediate_buffer_size total_bytes_to_write debug
                 rest (bytes_left_to_write, total_bytes_written)
  end.

(** The body of [with open(file_path, 'rb') as fd:] once the file has
    been read into [file_data]. *)
Definition write_file_data (file_data : list Byte.byte) (debug : bool) : M unit :=
  let total_bytes_to_write := Z.of_nat (length file_data) in
  intermediate_buffer_size <- call FileAccessLength_GetValue ;;
  if intermediate_buffer_size =? 0 then raise ZeroDivisionError
  else
    let write_iterations :=
      Chunking.write_iterations total_bytes_to_write intermediate_buffer_size in
    let split_data := Chunking.split_data file_data intermediate_buffer_size in
    write_loop split_data intermediate_buffer_size total_bytes_to_write debug
               (Py.range write_iterations) (total_bytes_to_write, 0) ;;;
    unless_raise close_file "Failed to close file!".

(** The [try] block of [file_access_upload]. *)
Definition file_access_upload_try (file_selector file_path : string) (debug : bool)
  : M unit :=
  call GetNodeMap ;;;
  unsupported <-
    (m <- call FileSelector_GetAccessMode ;;
     match m with
     | NA => ret true
     | _ => m' <- call FileSelector_GetAccessMode ;;
            ret (match m' with NI => true | _ => false end)
     end) ;;
  if unsupported then raise (FileAccessError "File selector not supported on device!")
  else
  call (GetNode "FileSelector") ;;;
  let node_file_selector := NodeByName "FileSelector" in
  bad <- not_available_or_not IsWritable node_file_selector ;;
  if bad then raise (FileAccessError "Unable to set File Selector (node retrieval). Aborting...")
  else
  call (GetEntryByName node_file_selector file_selector) ;;;
  let node_file_selector_entry := EntryByName node_file_selector file_selector in
  bad <- not_available_or_not IsReadable node_file_selector_entry ;;
  if bad then raise (FileAccessError "Unable to set File Selector (entry retrieval). Aborting...")
  else
  file_selector_entry <- call (Entry_GetValue node_file_selector_entry) ;;
  call (SetIntValue node_file_selector file_selector_entry) ;;;
  file_size <- call FileSize_GetValue ;;
  (if file_size >? 0
   then unless_raise execute_delete_command "Failed to delete file!"
   else ret tt) ;;;
  unless_raise open_file_to_write "Failed to open file!" ;;;
  len <- call FileAccessLength_GetValue ;;
  buf <- call FileAccessBuffer_GetLength ;;
  (if len <? buf
   then try_except
          (buf' <- call FileAccessBuffer_GetLength ;;
           call (FileAccessLength_SetValue buf'))
          (fun e => match e with
                    | SpinnakerException =>
                        Some (raise (FileAccessError
                          "Unable to set FileAccessLength to FileAccessBuffer length"))
                    | _ => None
                    end)
   else ret tt) ;;;
  call (FileAccessOffset_SetValue 0) ;;;
  file_data <- call (ReadFile file_path) ;;
  write_file_data file_data debug.

(** [result = True; try: ... except FileAccessError: result = False
     except Exception: result = False; return result] *)
Definition file_access_upload (file_selector file_path : string) (debug : bool)
  : M bool :=
  try_except
    (file_access_upload_try file_selector file_path debug ;;; ret true)
    (fun e => match e with
              | FileAccessError _ => Some (ret false)
              | _ => Some (ret false)
              end).

End FileAccess.

(** ** [class Camera] of Camera.py

    [self.camera] is the world the computation runs in. *)

Module Camera.
Import Spin.
Local Open Scope spin_scope.

(** A numpy array: its shape and its elements in row-major order. *)
Record ndarray := { shape : list Z; data : list Z }.

(** [astype('uint16')] and [<< 2] on a [uint16] array, element by
    element, with the wrap-around of the 16-bit container. *)
Definition astype_uint16 (v : Z) : Z := v mod 2 ^ 16.
Definition lshift2_uint16 (v : Z) : Z := Z.shiftl v 2 mod 2 ^ 16.

(** The raster that [convert_raw_image_8bit_to_10bit] writes. *)
Definition output_data (input_np_arr_data : ndarray) : list Z :=
  lshift2_uint16 <$> (astype_uint16 <$> data input_np_arr_data).

Definition convert_raw_image_8bit_to_10bit (input_np_arr_data : ndarray)
    (output_file : string) : M bool :=
  call (ToFile output_file (output_data input_np_arr_data)) ;;;
  ret true.

Definition inject_10bit_image (input_path : string) : M bool :=
  FileAccess.file_access_upload "InjectedImage" input_path false.

(** The result of a routine that may end without a [return] is an
    [option bool]: [Some b] is [return b], [None] is Python's [None].
    [except Exception as e: print(e); return False] catches every
    exception. *)
Definition except_Exception (e : exn) : option (M (option bool)) :=
  Some (ret (Some false)).

Definition disable_camera_image_injection : M (option bool) :=
  finally_return
    (try_except
       (call Init ;;;
        call GetNodeMap ;;;
        call (GetNode "TestPatternGeneratorSelector") ;;;
        let node_test_pattern_generator_selector :=
          NodeByName "TestPatternGeneratorSelector" in
        bad <- not_available_or_not IsWritable node_test_pattern_generator_selector ;;
        if bad then ret (Some false) else
        call (GetEntryByName node_test_pattern_generator_selector "PipelineStart") ;;;
        let node_test_pattern_generator_sensor_start :=
          EntryByName node_test_pattern_generator_selector "PipelineStart" in
        bad <- not_available_or_not IsReadable node_test_pattern_generator_sensor_start ;;
        if bad then ret (Some false) else
        test_pattern_generator_sensor_start <-
          call (Entry_GetValue node_test_pattern_generator_sensor_start) ;;
        call (SetIntValue node_test_pattern_generator_selector
                test_pattern_generator_sensor_start) ;;;
        call (GetNode "TestPattern") ;;;
        let node_test_pattern_selector := NodeByName "TestPattern" in
        bad <- not_available_or_not IsWritable node_test_pattern_selector ;;
        if bad then ret (Some false) else
        call (GetEntryByName node_test_pattern_selector "Off") ;;;
        let node_test_pattern_injected_image :=
          EntryByName node_test_pattern_selector "Off" in
        bad <- not_available_or_not IsReadable node_test_pattern_injected_image ;;
        if bad then ret (Some false) else
        test_pattern_off <- call (Entry_GetValue node_test_pattern_injected_image) ;;
        call (SetIntValue node_test_pattern_selector test_pattern_off) ;;;
        call (GetNode "Width") ;;;
        call (GetNode "Height") ;;;
        let node_width := NodeByName "Width" in
        let node_height := NodeByName "Height" in
        bad <- not_available_or_not IsWritable node_width ;;
        if bad then ret (Some false) else
        width_to_set <- call (Integer_GetMax node_width) ;;
        call (Integer_SetValue node_width width_to_set) ;;;
        bad <- not_available_or_not IsWritable node_height ;;
        if bad then ret (Some false) else
        height_to_set <- call (Integer_GetMax node_height) ;;
        call (Integer_SetValue node_height height_to_set) ;;;
        ret None)
       except_Exception)
    (call DeInit ;;; ret (Some true)).

Definition configure_camera_for_image_injection (width height : Z)
  : M (option bool) :=
  try_except
    (call GetNodeMap ;;;
     call (GetNode "TestPatternGeneratorSelector") ;;;
     let node_test_pattern_generator_selector :=
       NodeByName "TestPatternGeneratorSelector" in
     bad <- not_available_or_not IsWritable node_test_pattern_generator_selector ;;
     if bad then ret (Some false) else
     call (GetEntryByName node_test_pattern_generator_selector "PipelineStart") ;;;
     let node_test_pattern_generator_pipeline_start :=
       EntryByName node_test_pattern_generator_selector "PipelineStart" in
     bad <- not_available_or_not IsReadable node_test_pattern_generator_pipeline_start ;;
     if bad then ret (Some false) else
     test_pattern_generator_pipeline_start <-
       call (Entry_GetValue node_test_pattern_generator_pipeline_start) ;;
     call (SetIntValue node_test_pattern_generator_selector
             test_pattern_generator_pipeline_start) ;;;
     call (GetNode "TestPattern") ;;;
     let node_test_pattern_selector := NodeByName "TestPattern" in
     bad <- not_available_or_not IsWritable node_test_pattern_selector ;;
     if bad then ret (Some false) else
     call (GetEntryByName node_test_pattern_selector "InjectedImage") ;;;
     let node_test_pattern_injected_image :=
       EntryByName node_test_pattern_selector "InjectedImage" in
     bad <- not_available_or_not IsReadable node_test_pattern_injected_image ;;
     if bad then ret (Some false) else
     test_pattern_injected_image <-
       call (Entry_GetValue node_test_pattern_injected_image) ;;
     call (SetIntValue node_test_pattern_selector test_pattern_injected_image) ;;;
     call (GetNode "InjectedWidth") ;;;
     let node_injected_width := NodeByName "InjectedWidth" in
     bad <- not_available_or_not IsWritable node_injected_width ;;
     if bad then ret (Some false) else
     call (Integer_SetValue node_injected_width width) ;;;
     call (GetNode "Width") ;;;
     let node_width := NodeByName "Width" in
     bad <- not_available_or_not IsWritable node_width ;;
     if bad then ret (Some false) else
     call (Integer_SetValue node_width width) ;;;
     call (GetNode "InjectedHeight") ;;;
     let node_injected_height := NodeByName "InjectedHeight" in
     bad <- not_available_or_not IsWritable node_injected_height ;;
     if bad then ret (Some false) else
     call (Integer_SetValue node_injected_height height) ;;;
     call (GetNode "Height") ;;;
     let node_height := NodeByName "Height" in
     bad <- not_available_or_not IsWritable node_height ;;
     if bad then ret (Some false) else
     call (Integer_SetValue node_height height) ;;;
     ret None)
    except_Exception.

Definition inject_mono8_image (input_8_bit_img : ndarray) (input_10_bit_path : string)
  : M (option bool) :=
  result <- convert_raw_image_8bit_to_10bit input_8_bit_img input_10_bit_path ;;
  if negb result then ret (Some false) else
  result <- inject_10bit_image input_10_bit_path ;;
  call (Remove input_10_bit_path) ;;;
  height <- getitem (shape input_8_bit_img) 0 ;;
  width <- getitem (shape input_8_bit_img) 1 ;;
  configure_camera_for_image_injection width height.

(** *** Bounding boxes *)

Inductive InferenceBoxType :=
| INFERENCE_BOX_TYPE_RECTANGLE
| INFERENCE_BOX_TYPE_CIRCLE
| INFERENCE_BOX_TYPE_ROTATED_RECTANGLE.

Record InferenceBoxRect := {
  topLeftXCoord : Z; topLeftYCoord : Z;
  bottomRightXCoord : Z; bottomRightYCoord : Z }.

Record InferenceBoundingBox := {
  boxType : InferenceBoxType;
  classId : Z;
  confidence : Q;
  rect : InferenceBoxRect }.

Definition is_rectangle (t : InferenceBoxType) : bool :=
  match t with INFERENCE_BOX_TYPE_RECTANGLE => true | _ => false end.

(** [np.clip(x, lo, hi)] is [minimum(maximum(x, lo), hi)]. *)
Definition clip (x lo hi : Q) : Q := Qmin (Qmax x lo) hi.

(** An entry of the result:
    [(classId, confidence, x1, y1, x2, y2)]. *)
Record entry := {
  e_classId : Z; e_confidence : Q;
  e_x1 : Q; e_y1 : Q; e_x2 : Q; e_y2 : Q }.

Section BoundingBoxes.
(** The value of the float quotient [a / c] of two integers with [c]
    non-zero: a finite float, hence a rational; nothing is assumed about
    how it is rounded. *)
Variable truediv : Z -> Z -> Q.

(** [np.clip(a / c, 0, 1)]; [a / c] raises [ZeroDivisionError] for
    [c = 0]. *)
Definition normalised (a c : Z) : exn + Q :=
  if c =? 0 then inl ZeroDivisionError else inr (clip (truediv a c) 0 1).

(** The loop [for i in range(bounding_box_count)] over the boxes that
    [GetBoxAt(i)] returns. *)
Fixpoint boxes_loop (r c : Z) (boxes : list InferenceBoundingBox)
    (result : list entry) : exn + list entry :=
  match boxes with
  | [] => inr result
  | bounding_box :: rest =>
      if negb (is_rectangle (boxType bounding_box)) then boxes_loop r c rest result
      else
        match normalised (topLeftXCoord (rect bounding_box)) c with
        | inl e => inl e
        | inr x1 =>
        match normalised (topLeftYCoord (rect bounding_box)) r with
        | inl e => inl e
        | inr y1 =>
        match normalised (bottomRightXCoord (rect bounding_box)) c with
        | inl e => inl e
        | inr x2 =>
        match normalised (bottomRightYCoord (rect bounding_box)) r with
        | inl e => inl e
        | inr y2 =>
            boxes_loop r c rest
              (result ++ [{| e_classId := classId bounding_box;
                             e_confidence := confidence bounding_box;
                             e_x1 := x1; e_y1 := y1; e_x2 := x2; e_y2 := y2 |}])
        end end end end
  end.

(** [(r, c) = ndarr.shape] raises [ValueError] unless the image has two
    dimensions. *)
Definition get_bounding_box_results_from_image (ndarr_shape : list Z)
    (boxes : list InferenceBoundingBox) : exn + list entry :=
  match ndarr_shape with
  | [r; c] => boxes_loop r c boxes []
  | _ => inl ValueError
  end.

(** An entry describes a box: same class and confidence, and the four
    corner coordinates divided by the column or row count and clipped. *)
Definition describes (r c : Z) (e : entry) (b : InferenceBoundingBox) : Prop :=
  boxType b = INFERENCE_BOX_TYPE_RECTANGLE /\
  e_classId e = classId b /\ e_confidence e = confidence b /\
  e_x1 e = clip (truediv (topLeftXCoord (rect b)) c) 0 1 /\
  e_y1 e = clip (truediv (topLeftYCoord (rect b)) r) 0 1 /\
  e_x2 e = clip (truediv (bottomRightXCoord (rect b)) c) 0 1 /\
  e_y2 e = clip (truediv (bottomRightYCoord (rect b)) r) 0 1.

Definition in_unit_square (e : entry) : Prop :=
  (0 <= e_x1 e <= 1 /\ 0 <= e_y1 e <= 1 /\ 0 <= e_x2 e <= 1 /\ 0 <= e_y2 e <= 1)%Q.

End BoundingBoxes.

End Camera.

(** ** The display loops of DataHandler.py and food_monitor.py

    The calls into cv2 and requests are recorded as [command]s and taken
    to return normally.  Images are kept symbolic, so that the frame read
    from the camera is told apart from what is derived from it for
    display.  One pass through [while True] takes as input what the
    outside world provides during it: the frame with its inference
    result, the key that [cv2.waitKey(1)] returns and the time stamp of
    [unique_name_date_time_now()]. *)

Module Display.
Import Spin.

Inductive image :=
| Frame (pixels : Camera.ndarray)
| Resized (img : image) (dim : Z * Z)
| PutText (img : image) (text : string)
| PutInference (img : image) (label : string) (conf : Q).

Inductive command :=
| Imshow (window : string) (img : image)
| Imwrite (path : string) (img : image)
| Post (url : string) (body : string).

Inductive outcome (S : Type) :=
| Continue (st : S)
| Break
| Raise (e : exn).
Arguments Continue {S} st.
Arguments Break {S}.
Arguments Raise {S} e.

Record input := {
  frame : Camera.ndarray;
  inference_info : Z * Q * Q;
  lame : Z;
  now : string }.

(** [f'{cls}'] for an integer. *)
Definition str (z : Z) : string := NilZero.string_of_int (Z.to_int z).

(** [ord(c)]: the code point of a string of length one, [TypeError]
    otherwise.  Characters are those of [Ascii], code points 0 to 255. *)
Definition ord (c : string) : exn + Z :=
  match c with
  | String a EmptyString => inr (Z.of_nat (nat_of_ascii a))
  | _ => inl TypeError
  end.

(** The settings read from config.json.  [LABELS] keeps the order of the
    JSON object, which is the order in which the loops visit its keys. *)
Record configuration := {
  LABELS : list (string * string);
  FOLDERS : gmap string string;
  ROOT_FOLDER : string;
  EXTENSION : string;
  INFERENCE_LABELS : gmap string string;
  CONFIDENCE : Q;
  DELAY_INTERVAL : Z }.

(** [prepare_folders_and_options]: the dictionary of folders, one per
    label, [folders[each] = f"{root}{dirsep}{labels[each]}"]; the
    directories it creates are not modelled.  DataHandler.py always uses
    ["/"] for [dirsep]. *)
Definition folders_of (dirsep root : string) (labels : list (string * string))
  : gmap string string :=
  fold_left (fun folders '(each, name) => <[each := root +:+ dirsep +:+ name]> folders)
            labels ∅.

Definition prepare_folders_and_options (dirsep : string) (c : configuration)
  : configuration :=
  {| LABELS := LABELS c;
     FOLDERS := folders_of dirsep (ROOT_FOLDER c) (LABELS c);
     ROOT_FOLDER := ROOT_FOLDER c;
     EXTENSION := EXTENSION c;
     INFERENCE_LABELS := INFERENCE_LABELS c;
     CONFIDENCE := CONFIDENCE c;
     DELAY_INTERVAL := DELAY_INTERVAL c |}.

(** [for a_val in configuration[LABELS]: if lame == ord(a_val): ...]:
    the commands issued, and the exception that ends the loop if there
    is one. *)
Fixpoint save_loop (c : configuration) (img : image) (now : string) (lame : Z)
    (labels : list string) : list command * option exn :=
  match labels with
  | [] => ([], None)
  | a_val :: rest =>
      match ord a_val with
      | inl e => ([], Some e)
      | inr code =>
          if lame =? code then
            match FOLDERS c !! a_val with
            | None => ([], Some KeyError)
            | Some folder =>
                let save_image_name := now +:+ "." +:+ EXTENSION c in
                let '(cmds, e) := save_loop c img now lame rest in
                (Imwrite (folder +:+ "/" +:+ save_image_name) img :: cmds, e)
            end
          else save_loop c img now lame rest
      end
  end.

(** The inference overlay of both loops:
    [cls, conf, time = inference_info] and the [putText] whose text looks
    up [configuration[INFERENCE_LABELS][f'{cls}']]. *)
Definition inference_overlay (c : configuration) (displayed_image : image)
    (info : Z * Q * Q) : exn + image :=
  let '(cls, conf, time) := info in
  match INFERENCE_LABELS c !! str cls with
  | None => inl KeyError
  | Some label => inr (PutInference displayed_image label conf)
  end.

(** The label keys the key handling expects. *)
Definition single_char (s : string) : Prop := exists a, s = String a EmptyString.

End Display.

Module DataHandler.
Import Spin Display.

Definition url : string := "http://192.168.1.75:8080/rest/items/TestSwitch001".

(** [add_keybindings]: the legend drawn on the displayed image. *)
Definition add_keybindings (displayed_image : image) (c : configuration) : image :=
  fold_left (fun img '(each_key, name) => PutText img (each_key +:+ ":" +:+ name))
            (LABELS c) (PutText displayed_image "Esc:Exit").

(** The [if lame == ord('\x1b') ... elif ... else] chain at the end of the
    loop body; [27], [190] and [191] are [ord('\x1b')], [ord('\xbe')] and
    [ord('\xbf')]. *)
Definition dispatch (c : configuration) (img : image) (now : string) (lame : Z)
  : list command * outcome unit :=
  if lame =? 27 then ([], Break)
  else if (lame =? 190) || (lame =? 191) then
    let data1 := if lame =? 190 then "ON" else "OFF" in
    ([Post url data1], Continue tt)
  else if lame =? -1 then ([], Continue tt)
  else
    match save_loop c img now lame (fst <$> LABELS c) with
    | (cmds, Some e) => (cmds, Raise e)
    | (cmds, None) => (cmds, Continue tt)
    end.

(** One pass through the [while True] of [do_camera_stuff]. *)
Definition loop_body (c : configuration) (enable_camera_inference : bool)
    (dim : Z * Z) (i : input) : list command * outcome unit :=
  let img := Frame (frame i) in
  let displayed_image := Resized img dim in
  match (if enable_camera_inference
         then inference_overlay c displayed_image (inference_info i)
         else inr displayed_image) with
  | inl e => ([], Raise e)
  | inr displayed_image =>
      let displayed_image := add_keybindings displayed_image c in
      let '(cmds, out) := dispatch c img (now i) (lame i) in
      (Imshow "Camera Stream" displayed_image :: cmds, out)
  end.

End DataHandler.

Module FoodMonitor.
Import Spin Display.

(** The local variables of [do_camera_stuff] that live across
    iterations; [cls] and [conf] are unbound until the first assignment. *)
Record locals := {
  previous_food_status : Z;
  counter : Z;
  cls : option Z;
  conf : option Q }.

Definition initial : locals :=
  {| previous_food_status := 10; counter := 0; cls := None; conf := None |}.

(** [cls != previous_food_status and conf > config[CONFIDENCE]], read
    left to right with the short circuit of [and]; reading an unbound
    local raises [UnboundLocalError], a [NameError]. *)
Definition differs_above_threshold (c : configuration) (st : locals) : exn + bool :=
  match cls st with
  | None => inl NameError
  | Some k =>
      if negb (k =? previous_food_status st) then
        match conf st with
        | None => inl NameError
        | Some q => inr (if Qlt_le_dec (CONFIDENCE c) q then true else false)
        end
      else inr false
  end.

(** The two [if] statements after the overlay: the count of differing
    frames and the change of the food status. *)
Definition food_status (c : configuration) (img : image) (st : locals)
  : list command * (exn + locals) :=
  match differs_above_threshold c st with
  | inl e => ([], inl e)
  | inr b1 =>
      let st := if b1
                then {| previous_food_status := previous_food_status st;
                        counter := counter st + 1;
                        cls := cls st; conf := conf st |}
                else st in
      match differs_above_threshold c st with
      | inl e => ([], inl e)
      | inr b2 =>
          if b2 && (counter st >? DELAY_INTERVAL c) then
            match cls st with
            | None => ([], inl NameError)
            | Some k =>
                match INFERENCE_LABELS c !! str k with
                | None => ([], inl KeyError)
                | Some _ =>
                    ([Imwrite (ROOT_FOLDER c +:+ "/food_status.png") img],
                     inr {| previous_food_status := k; counter := 0;
                            cls := cls st; conf := conf st |})
                end
            end
          else ([], inr st)
      end
  end.

(** The key handling of food_monitor.py: Escape, no key, or a label. *)
Definition dispatch (c : configuration) (img : image) (now : string) (lame : Z)
    (st : locals) : list command * outcome locals :=
  if lame =? 27 then ([], Break)
  else if lame =? -1 then ([], Continue st)
  else
    match save_loop c img now lame (fst <$> LABELS c) with
    | (cmds, Some e) => (cmds, Raise e)
    | (cmds, None) => (cmds, Continue st)
    end.

(** One pass through the [while True] of [do_camera_stuff]. *)
Definition loop_body (c : configuration) (enable_camera_inference : bool)
    (dim : Z * Z) (st : locals) (i : input) : list command * outcome locals :=
  let img := Frame (frame i) in
  let displayed_image := Resized img dim in
  match (if enable_camera_inference
         then
           let '(k, q, _) := inference_info i in
           let st := {| previous_food_status := previous_food_status st;
                        counter := counter st;
                        cls := Some k; conf := Some q |} in
           match inference_overlay c displayed_image (inference_info i) with
           | inl e => inl e
           | inr displayed_image => inr (st, displayed_image)
           end
         else inr (st, displayed_image)) with
  | inl e => ([], Raise e)
  | inr (st, displayed_image) =>
      match food_status c img st with
      | (cmds, inl e) => (cmds, Raise e)
      | (cmds, inr st) =>
          let '(cmds', out) := dispatch c img (now i) (lame i) st in
          (cmds ++ Imshow "Camera Stream" displayed_image :: cmds', out)
      end
  end.

(** The loop over the inputs of successive iterations, from the locals
    [st]: all commands issued, and how the loop stands after the last
    input. *)
Fixpoint run (c : configuration) (enable_camera_inference : bool) (dim : Z * Z)
    (st : locals) (inputs : list input) : list command * outcome locals :=
  match inputs with
  | [] => ([], Continue st)
  | i :: rest =>
      match loop_body c enable_camera_inference dim st i with
      | (cmds, Continue st') =>
          let '(cmds', out) := run c enable_camera_inference dim st' rest in
          (cmds ++ cmds', out)
      | (cmds, out) => (cmds, out)
      end
  end.

End FoodMonitor.

(** ** Concrete cameras and inputs, used to run the routines *)

Module Worlds.
Import Spin Camera Display FoodMonitor.

(** The file operation selected last in a trace. *)
Fixpoint last_selected (t : trace) (acc : option FileOperationSelector)
  : option FileOperationSelector :=
  match t with
  | [] => acc
  | Ev c _ :: t' =>
      last_selected t'
        (match c with
         | FileOperationSelector_SetValue op => Some op
         | _ => acc
         end)
  end.

(** A camera on which every node is available, whose buffer holds
    [buffer] bytes, next to a host whose file holds [file_data]; the
    status of a write operation is [write_status], every other file
    operation succeeds. *)
Definition camera (file_data : list Byte.byte) (buffer : Z)
    (write_status : FileOperationStatus) : World :=
  fun t T c =>
    match c in Call T return exn + T with
    | Init => inr tt
    | DeInit => inr tt
    | GetNodeMap => inr tt
    | GetNode _ => inr tt
    | GetEntryByName _ _ => inr tt
    | IsAvailable _ => inr true
    | IsWritable _ => inr true
    | IsReadable _ => inr true
    | Entry_GetValue _ => inr 0
    | SetIntValue _ _ => inr tt
    | Integer_GetMax _ => inr 1440
    | Integer_SetValue _ _ => inr tt
    | FileSelector_GetAccessMode => inr RW
    | FileSize_GetValue => inr 0
    | FileAccessLength_GetValue => inr buffer
    | FileAccessLength_SetValue _ => inr tt
    | FileAccessBuffer_GetLength => inr buffer
    | FileAccessBuffer_Set _ => inr tt
    | FileAccessOffset_SetValue _ => inr tt
    | FileAccessOffset_GetValue => inr 0
    | FileOperationSelector_SetValue _ => inr tt
    | FileOpenMode_SetValue _ => inr tt
    | FileOperationExecute_Execute => inr tt
    | FileOperationStatus_GetValue =>
        inr (match last_selected t None with
             | Some FileOperationSelector_Write => write_status
             | _ => FileOperationStatus_Success
             end)
    | FileOperationResult_GetValue => inr buffer
    | ReadFile _ => inr file_data
    | ToFile _ _ => inr tt
    | Remove _ => inr tt
    end.

(** The same camera without the node [missing] in its register map. *)
Definition camera_without (missing : string) (w : World) : World :=
  fun t T c =>
    match c in Call T return (exn + T) -> exn + T with
    | IsAvailable (NodeByName name) =>
        fun r => if String.eqb name missing then inr false else r
    | _ => fun r => r
    end (w t T c).

Definition five_bytes : list Byte.byte :=
  [Byte.x01; Byte.x02; Byte.x03; Byte.x04; Byte.x05].

(** Inputs for the other routines. *)
Definition two_boxes : list InferenceBoundingBox :=
  [ {| boxType := INFERENCE_BOX_TYPE_CIRCLE; classId := 1; confidence := 9 # 10;
       rect := {| topLeftXCoord := 1; topLeftYCoord := 1;
                  bottomRightXCoord := 2; bottomRightYCoord := 2 |} |};
    {| boxType := INFERENCE_BOX_TYPE_RECTANGLE; classId := 2; confidence := 1 # 2;
       rect := {| topLeftXCoord := -5; topLeftYCoord := 50;
                  bottomRightXCoord := 300; bottomRightYCoord := 100 |} |} ].

(** The exact quotient, for running the routine. *)
Definition exact_div (a c : Z) : Q := (inject_Z a / inject_Z c)%Q.

Definition two_labels : configuration :=
  prepare_folders_and_options "/"
    {| LABELS := [("1", "empty"); ("2", "full")];
       FOLDERS := ∅;
       ROOT_FOLDER := "data";
       EXTENSION := "png";
       INFERENCE_LABELS := {["0" := "empty"; "1" := "full"]};
       CONFIDENCE := 1 # 2;
       DELAY_INTERVAL := 2 |}.

Definition a_frame : image := Frame {| Camera.shape := [2; 2]; Camera.data := [0; 1; 128; 255] |}.

Definition third_differing_frame : input :=
  {| frame := {| Camera.shape := [2; 2]; Camera.data := [0; 1; 128; 255] |};
     inference_info := (1, 9 # 10, 0 # 1);
     lame := -1;
     now := "20240131_120000" |}.

Definition two_counted : locals :=
  {| previous_food_status := 10; counter := 2; cls := None; conf := None |}.

End Worlds.

(** ** Properties of traces used by the specifications *)

Module TraceSpec.
Import Spin.

(** A camera or host operation fails when the call raises, or when the
    status read back after a file operation is not [Success]. *)
Definition failed (e : event) : bool :=
  match e with
  | Ev c (inl _) => true
  | Ev c (inr r) =>
      match c in Call T return T -> bool with
      | FileOperationStatus_GetValue => fun s => negb (FileAccess.status_ok s)
      | _ => fun _ => false
      end r
  end.

(** The first call of an iteration of the write loop. *)
Definition is_buffer_set (e : event) : bool :=
  match e with
  | Ev c _ => match c with FileAccessBuffer_Set _ => true | _ => false end
  end.

(** The number of iterations of the write loop that a trace shows. *)
Definition iterations (d : trace) : Z := Z.of_nat (length (filter is_buffer_set d)).

(** An availability, writability or readability check that did not
    answer [True]. *)
Definition check_failed (e : event) : bool :=
  match e with
  | Ev c r =>
      match c in Call T return exn + T -> bool with
      | IsAvailable _ | IsWritable _ | IsReadable _ =>
          fun r => match r with inr true => false | _ => true end
      | _ => fun _ => false
      end r
  end.

(** A [SetValue] or [SetIntValue] on a node of the register map. *)
Definition is_node_set (e : event) : bool :=
  match e with
  | Ev c _ => match c with
              | SetIntValue _ _ | Integer_SetValue _ _ => true
              | _ => false
              end
  end.

(** A step of a configuration routine goes wrong when the call raises or
    when a check does not answer [True]. *)
Definition config_failed (e : event) : bool :=
  match e with
  | Ev c (inl _) => true
  | Ev c (inr _) => check_failed e
  end.

End TraceSpec.

(** ** A discipline on traces

    For two classes of events, [P] (something went wrong) and [Q]
    (something that must not happen afterwards), a trace is [guarded] when
    no [Q] event follows a [P] event.  A computation [obeys] the discipline
    when every trace it adds is guarded and a good result means that no [P]
    event happened.  [R] marks the events that are counted: a computation
    is [bounded] by [n] when it adds at most [n] counted events and, if no
    [P] event happens, adds exactly [n] of them and returns a good
    result. *)

Module Discipline.
Import Spin.

Section Defs.
Variables P Q : event -> Prop.
Variable R : event -> bool.

Definition quiet (d : trace) : Prop := Forall (fun e => ~ P e) d.
Definition free (d : trace) : Prop := Forall (fun e => ~ Q e) d.

Fixpoint guarded (d : trace) : Prop :=
  match d with
  | [] => True
  | e :: d' => (P e -> free d') /\ guarded d'
  end.

Definition obeys {A} (good : A -> Prop) (m : M A) : Prop :=
  forall w t, exists d,
    fst (m w t) = t ++ d /\ guarded d /\
    forall a, snd (m w t) = inr a -> good a -> quiet d.

(** What may run once a [P] event has happened: no [Q] event, and no
    good result. *)
Definition harmless {A} (good : A -> Prop) (m : M A) : Prop :=
  forall w t, exists d,
    fst (m w t) = t ++ d /\ free d /\
    forall a, snd (m w t) = inr a -> ~ good a.

Definition count (d : trace) : nat := length (filter (fun e => R e = true) d).

Definition bounded {A} (n : nat) (good : A -> Prop) (m : M A) : Prop :=
  forall w t, exists d,
    fst (m w t) = t ++ d /\ (count d <= n)%nat /\
    (quiet d -> count d = n /\ exists a, snd (m w t) = inr a /\ good a).

End Defs.

Definition pure {A} (m : M A) : Prop := forall w t, fst (m w t) = t.

(** What a computation can return. *)
Definition yields {A} (S : A -> Prop) (m : M A) : Prop :=
  forall w t a, snd (m w t) = inr a -> S a.

End Discipline.

(** The ceiling of [n / b], as the specification words it. *)
Definition ceil_div (n b : Z) : Z := - ((- n) / b).

(** ** Views of a trace and postconditions on them

    A view keeps the events of interest of a trace; a computation
    satisfies a postcondition [Phi] on a view when, whenever it returns,
    [Phi] holds of the value returned and of the view of the events it
    added. *)

Module Views.
Import Spin.

Definition view {X} (v : event -> option X) (d : trace) : list X := omap v d.

Definition spost {X A} (v : event -> option X) (Phi : A -> list X -> Prop)
    (m : M A) : Prop :=
  forall w t, exists d,
    fst (m w t) = t ++ d /\
    forall a, snd (m w t) = inr a -> Phi a (view v d).

(** The same for every outcome, raised exceptions included. *)
Definition vpost {X A} (v : event -> option X) (Psi : exn + A -> list X -> Prop)
    (m : M A) : Prop :=
  forall w t, exists d,
    fst (m w t) = t ++ d /\ Psi (snd (m w t)) (view v d).

(** The steps of an upload: the file size read from the camera, the file
    operation selected, the access length read from the camera, the file
    read from the host, the buffer handed to the camera. *)
Inductive step :=
| SSize (file_size : Z)
| SSel (op : FileOperationSelector)
| SLen (access_length : Z)
| SData (file_data : list Byte.byte)
| SBuf (tmp_buffer : list Byte.byte).

Definition upload_step (e : event) : option step :=
  match e with
  | Ev c r =>
      match c in Call T return exn + T -> option step with
      | FileSize_GetValue =>
          fun r => match r with inr z => Some (SSize z) | inl _ => None end
      | FileOperationSelector_SetValue op => fun _ => Some (SSel op)
      | FileAccessLength_GetValue =>
          fun r => match r with inr z => Some (SLen z) | inl _ => None end
      | ReadFile _ =>
          fun r => match r with inr data => Some (SData data) | inl _ => None end
      | FileAccessBuffer_Set data => fun _ => Some (SBuf data)
      | _ => fun _ => None
      end r
  end.

(** The buffers among the steps, and the file operations among them. *)
Definition buffers (l : list step) : list (list Byte.byte) :=
  omap (fun s => match s with SBuf b => Some b | _ => None end) l.
Definition operations (l : list step) : list FileOperationSelector :=
  omap (fun s => match s with SSel op => Some op | _ => None end) l.

(** One iteration of the write loop per chunk. *)
Definition write_steps (chunks : list (list Byte.byte)) : list step :=
  chunks ≫= (fun chunk => [SBuf chunk; SSel FileOperationSelector_Write]).

(** The steps of a whole upload. *)
Definition upload_steps (file_size len : Z) (file_data : list Byte.byte) (b : Z)
  : list step :=
  [SSize file_size]
  ++ (if file_size >? 0 then [SSel FileOperationSelector_Delete] else [])
  ++ [SSel FileOperationSelector_Open; SLen len; SData file_data; SLen b]
  ++ write_steps
       (take (Z.to_nat (Chunking.write_iterations (Z.of_nat (length file_data)) b))
             (Chunking.split_data file_data b))
  ++ [SSel FileOperationSelector_Close].

(** The writes to nodes of the register map, with the value written. *)
Definition node_write (e : event) : option (Node * Z) :=
  match e with
  | Ev c _ =>
      match c with
      | SetIntValue node v => Some (node, v)
      | Integer_SetValue node v => Some (node, v)
      | _ => None
      end
  end.


(** What a configuration routine reads from and writes to the nodes of
    the register map: the integer value of an enumeration entry, the
    largest value of an integer node, and the value set on a node. *)
Inductive node_step :=
| NGot (entry : Node) (v : Z)
| NMax (node : Node) (v : Z)
| NSet (node : Node) (v : Z).

Definition node_step_of (e : event) : option node_step :=
  match e with
  | Ev c r =>
      match c in Call T return exn + T -> option node_step with
      | Entry_GetValue entry =>
          fun r => match r with inr v => Some (NGot entry v) | inl _ => None end
      | Integer_GetMax node =>
          fun r => match r with inr v => Some (NMax node v) | inl _ => None end
      | SetIntValue node v => fun _ => Some (NSet node v)
      | Integer_SetValue node v => fun _ => Some (NSet node v)
      | _ => fun _ => None
      end r
  end.

End Views.

(** ** More of [class FileAccess] and [class Camera] *)

Module FileAccessMore.
Import Spin FileAccess.
Local Open Scope spin_scope.

Definition open_file_to_read : M bool :=
  try_except
    (call (FileOperationSelector_SetValue FileOperationSelector_Open) ;;;
     call (FileOpenMode_SetValue FileOpenMode_Read) ;;;
     call FileOperationExecute_Execute ;;;
     s <- call FileOperationStatus_GetValue ;;
     if negb (status_ok s) then ret false else ret true)
    except_SpinnakerException.

(** The five routines that execute one file operation. *)
Definition file_operations : list (M bool) :=
  [open_file_to_write; open_file_to_read; close_file;
   execute_delete_command; execute_write_command].

End FileAccessMore.

Module CameraMore.
Import Spin.
Local Open Scope spin_scope.

(** The two node maps of the camera.  A trace records the name of the
    node that is asked for, not the map it is asked from. *)
Inductive NodeMap := nodemap | nodemapTL.

(** [except PySpin.SpinnakerException: print(...)]: the routine goes on
    and returns [None]. *)
Definition set_selector_to_value (nm : NodeMap) (selector value : string) : M unit :=
  try_except
    (call (GetNode selector) ;;;
     let selector_node := NodeByName selector in
     call (GetEntryByName selector_node value) ;;;
     let selector_entry := EntryByName selector_node value in
     selector_value <- call (Entry_GetValue selector_entry) ;;
     call (SetIntValue selector_node selector_value))
    (fun e => match e with SpinnakerException => Some (ret tt) | _ => None end).

Definition set_trigger_on_inference_ready : M unit :=
  set_selector_to_value nodemap "TriggerSelector" "FrameStart" ;;;
  set_selector_to_value nodemap "TriggerMode" "On" ;;;
  set_selector_to_value nodemap "TriggerSource" "InferenceReady".

Definition max_width_and_height : M unit :=
  call (GetNode "OffsetX") ;;;
  call (Integer_SetValue (NodeByName "OffsetX") 0) ;;;
  call (GetNode "OffsetY") ;;;
  call (Integer_SetValue (NodeByName "OffsetY") 0) ;;;
  call (GetNode "Width") ;;;
  width_to_set <- call (Integer_GetMax (NodeByName "Width")) ;;
  call (Integer_SetValue (NodeByName "Width") width_to_set) ;;;
  call (GetNode "Height") ;;;
  height_to_set <- call (Integer_GetMax (NodeByName "Height")) ;;
  call (Integer_SetValue (NodeByName "Height") height_to_set).

(** The names of the nodes a trace asks for. *)
Definition node_asked (e : event) : option string :=
  match e with
  | Ev c _ => match c with GetNode name => Some name | _ => None end
  end.

(** An event that is a raised exception. *)
Definition raised (e : event) : bool :=
  match e with Ev _ (inl _) => true | Ev _ (inr _) => false end.


(** What one call of [set_selector_to_value] leaves in the trace [d],
    with outcome [r]. *)
Definition selector_post (selector value : string) (r : exn + unit) (d : trace)
  : Prop :=
  match r with inr _ => True | inl x => x <> SpinnakerException end /\
  omap node_asked d = [selector] /\
  ((omap Views.node_write d = [] /\ exists e, last d = Some e /\ raised e = true) \/
   exists v,
     Ev (Entry_GetValue (EntryByName (NodeByName selector) value)) (inr v) ∈ d /\
     omap Views.node_write d = [(NodeByName selector, v)]).

End CameraMore.

(** ** The loop of DataHandler.py over successive passes *)

Module DataHandlerLoop.
Import Spin Display DataHandler.

(** The [while True] loop over the inputs of successive iterations: all
    commands issued, and how the loop stands after the last input. *)
Fixpoint run (c : configuration) (enable_camera_inference : bool) (dim : Z * Z)
    (inputs : list input) : list command * outcome unit :=
  match inputs with
  | [] => ([], Continue tt)
  | i :: rest =>
      match loop_body c enable_camera_inference dim i with
      | (cmds, Continue _) =>
          let '(cmds', out) := run c enable_camera_inference dim rest in
          (cmds ++ cmds', out)
      | (cmds, out) => (cmds, out)
      end
  end.

(** The posts among the commands, and the post a key stands for. *)
Definition posts (cmds : list command) : list string :=
  omap (fun cmd => match cmd with Post _ body => Some body | _ => None end) cmds.

Definition post_of_key (i : input) : option string :=
  if lame i =? 190 then Some "ON"
  else if lame i =? 191 then Some "OFF"
  else None.

(** The inputs up to the first Escape. *)
Fixpoint until_escape (inputs : list input) : list input :=
  match inputs with
  | [] => []
  | i :: rest => if lame i =? 27 then [] else i :: until_escape rest
  end.

End DataHandlerLoop.

(** ** [do_camera_stuff] of food_monitor.py: the set-up before the loop *)

Module FoodMonitorSetup.
Import Spin Display.

(** The parameters of [Camera.setup_inference_camera_defaults] besides
    [self] (Camera.py, [def setup_inference_camera_defaults(self):]):
    there is none. *)
Definition setup_inference_camera_defaults_parameters : list string := [].

(** A call with keyword arguments to a function without [**kwargs]: a
    keyword that names no parameter raises [TypeError] before the body
    runs. *)
Definition call_with_keywords {A} (parameters keywords : list string)
    (body : exn + A) : exn + A :=
  if forallb (fun k => existsb (String.eqb k) parameters) keywords
  then body
  else inl TypeError.

Section Setup.
(** What the model leaves open: the outcome of evaluating the arguments
    [configuration[OFFSETX]], ..., [configuration[HEIGHT]], the outcome of
    the body of [setup_inference_camera_defaults], and the outcome of
    [camera.EXPOSURE_TIME = configuration[EXPOSURE_TIME]]. *)
Variable arguments : exn + unit.
Variable body : exn + unit.
Variable exposure : exn + unit.

(** The [try] block:
    [camera.setup_inference_camera_defaults(OFFSETX=..., OFFSETY=...,
     WIDTH=..., HEIGHT=...); camera.EXPOSURE_TIME = ...]. *)
Definition try_setup : exn + unit :=
  match arguments with
  | inl e => inl e
  | inr _ =>
      match call_with_keywords setup_inference_camera_defaults_parameters
              ["OFFSETX"; "OFFSETY"; "WIDTH"; "HEIGHT"] body with
      | inl e => inl e
      | inr _ => exposure
      end
  end.

(** [enable_camera_inference] when the loop starts, from the value
    [configured] of [configuration[CAMERA_INFERENCE]]: the bare [except:]
    catches every exception of the [try] block and sets it to [False]. *)
Definition enable_camera_inference (configured : bool) : bool :=
  if configured then
    match try_setup with
    | inl _ => false
    | inr _ => configured
    end
  else configured.

(** The loop of [do_camera_stuff] as the program runs it: with that
    flag, from [previous_food_status = 10] and [counter = 0]. *)
Definition do_camera_stuff (c : configuration) (configured : bool) (dim : Z * Z)
    (inputs : list input) : list command * outcome FoodMonitor.locals :=
  FoodMonitor.run c (enable_camera_inference configured) dim FoodMonitor.initial inputs.

End Setup.

End FoodMonitorSetup.

(** ** Further concrete inputs *)

Module WorldsMore.
Import Spin Display.

(** F1, F2, Escape and F1 again. *)
Definition four_keys : list Display.input :=
  [ {| frame := {| Camera.shape := [2; 2]; Camera.data := [0; 1; 128; 255] |};
       inference_info := (0, 9 # 10, 0 # 1); lame := 190; now := "20240131_120000" |};
    {| frame := {| Camera.shape := [2; 2]; Camera.data := [0; 1; 128; 255] |};
       inference_info := (0, 9 # 10, 0 # 1); lame := 191; now := "20240131_120001" |};
    {| frame := {| Camera.shape := [2; 2]; Camera.data := [0; 1; 128; 255] |};
       inference_info := (0, 9 # 10, 0 # 1); lame := 27; now := "20240131_120002" |};
    {| frame := {| Camera.shape := [2; 2]; Camera.data := [0; 1; 128; 255] |};
       inference_info := (0, 9 # 10, 0 # 1); lame := 190; now := "20240131_120003" |} ].

(** The two labels of [Worlds.two_labels] with a delay interval of 0. *)
Definition no_delay : Display.configuration :=
  {| LABELS := LABELS Worlds.two_labels;
     FOLDERS := FOLDERS Worlds.two_labels;
     ROOT_FOLDER := ROOT_FOLDER Worlds.two_labels;
     EXTENSION := EXTENSION Worlds.two_labels;
     INFERENCE_LABELS := INFERENCE_LABELS Worlds.two_labels;
     CONFIDENCE := CONFIDENCE Worlds.two_labels;
     DELAY_INTERVAL := 0 |}.

End WorldsMore.

(** The class of every input has an inference label. *)
Definition classes_labelled (c : Display.configuration)
    (inputs : list Display.input) : Prop :=
  Forall (fun i => is_Some (Display.INFERENCE_LABELS c !! Display.str (Display.inference_info i).1.1)) inputs.

(** ** Runs that stop early *)

Module ViewsMore.
Import Spin Views.

(** The view of what a computation adds is [L], whatever the outcome. *)
Definition always {X A} (v : event -> option X) (L : list X) (m : M A) : Prop :=
  vpost v (fun _ l => l = L) m.

(** A run that returns satisfies [S]; a run that raises has done the
    first steps of a run that satisfies [S]. *)
Definition follows {X A} (v : event -> option X) (S : A -> list X -> Prop)
    (m : M A) : Prop :=
  vpost v (fun r l => match r with
                      | inr a => S a l
                      | inl _ => exists a l', S a l' /\ l `prefix_of` l'
                      end) m.

(** The camera on which every call raises. *)
Definition broken : World := fun _ _ _ => inl SpinnakerException.

End ViewsMore.

(** ** The phases of an image injection *)

Module Phases.
Import Spin Views.

(** The phases of an image injection: the raster written to the
    temporary file, a buffer handed to the camera, the temporary file
    removed, a value set on an integer node. *)
Inductive phase :=
| PWrite (path : string) (words : list Z)
| PBuf (tmp_buffer : list Byte.byte)
| PRemove (path : string)
| PSize (node : Node) (v : Z).

Definition phase_of (e : event) : option phase :=
  match e with
  | Ev c _ =>
      match c with
      | ToFile path words => Some (PWrite path words)
      | FileAccessBuffer_Set data => Some (PBuf data)
      | Remove path => Some (PRemove path)
      | Integer_SetValue node v => Some (PSize node v)
      | _ => None
      end
  end.

Definition only_buffers (l : list phase) : Prop := exists bufs, l = PBuf <$> bufs.

(** The sizes that [configure_camera_for_image_injection] sets. *)
Definition sizes_set (width height : Z) : list phase :=
  [PSize (NodeByName "InjectedWidth") width; PSize (NodeByName "Width") width;
   PSize (NodeByName "InjectedHeight") height; PSize (NodeByName "Height") height].

(** Whatever the outcome, the view of what a computation adds satisfies
    [P]. *)
Definition within {X A} (v : event -> option X) (P : list X -> Prop) (m : M A)
  : Prop :=
  vpost v (fun _ l => P l) m.

End Phases.

(** ** [inject_bayer8_image] of [class Camera] *)

Module Bayer.
Import Spin Camera.
Local Open Scope spin_scope.

(** [a.size]: the number of elements. *)
Definition size (a : ndarray) : Z := foldr Z.mul 1 (shape a).

(** [output_data[idx] = v] on a one-dimensional array: a negative index
    counts from the end, an index out of range raises [IndexError]. *)
Definition setitem (output_data : list Z) (idx v : Z) : exn + list Z :=
  let len := Z.of_nat (length output_data) in
  let j := if idx <? 0 then idx + len else idx in
  if (j <? 0) || (len <=? j) then inl IndexError
  else inr (<[Z.to_nat j := v]> output_data).

(** [(a + b) / 2] for two [uint16] scalars, stored into an array of
    integers: the sum wraps in the 16-bit container, the quotient is a
    float that holds it exactly, and the store drops the fraction. *)
Definition halved_sum (a b : Z) : Z := ((a + b) mod 2 ^ 16) / 2.

Definition red : Z := 0.
Definition green : Z := 1.
Definition blue : Z := 2.

Section Interleaved.
(** [item img y x c] is [input_data[y][x][c]] for
    [input_data = img.astype('uint16')]: the element, or the exception
    that the indexing raises. *)
Variable item : ndarray -> Z -> Z -> Z -> exn + Z.

(** [(input_data[y][x][c] + input_data[y][x'][c]) / 2], read left to
    right. *)
Definition averaged (img : ndarray) (y x x' c : Z) : exn + Z :=
  match item img y x c with
  | inl e => inl e
  | inr a =>
      match item img y x' c with
      | inl e => inl e
      | inr b => inr (halved_sum a b)
      end
  end.

(** The right-hand side that the [if (rg_row)] and [if (idx % 2 == 0)]
    tests choose. *)
Definition sample (img : ndarray) (rg_row y x idx : Z) : exn + Z :=
  if negb (rg_row =? 0) then
    if idx mod 2 =? 0 then averaged img y x (x + 1) red
    else averaged img y x (x - 1) green
  else
    if idx mod 2 =? 0 then averaged img y x (x + 1) green
    else averaged img y x (x - 1) blue.

(** [for x in range(0, out_width-1)], over the remaining [xs]. *)
Fixpoint row_loop (img : ndarray) (out_width rg_row y : Z) (xs : list Z)
    (output_data : list Z) : exn + list Z :=
  match xs with
  | [] => inr output_data
  | x :: rest =>
      let idx := y * out_width + x in
      match sample img rg_row y x idx with
      | inl e => inl e
      | inr v =>
          match setitem output_data idx v with
          | inl e => inl e
          | inr output_data => row_loop img out_width rg_row y rest output_data
          end
      end
  end.

(** [for y in range(0, out_height-1)], over the remaining [ys], with
    [rg_row = rg_row ^ 1] at the end of each row. *)
Fixpoint rows_loop (img : ndarray) (out_width : Z) (ys : list Z) (rg_row : Z)
    (output_data : list Z) : exn + list Z :=
  match ys with
  | [] => inr output_data
  | y :: rest =>
      match row_loop img out_width rg_row y (Py.range (out_width - 1)) output_data with
      | inl e => inl e
      | inr output_data => rows_loop img out_width rest (Z.lxor rg_row 1) output_data
      end
  end.

(** [output_data] after the loops, from
    [np.zeros((out_width * out_height), dtype=int)] (a negative length
    raises [ValueError]). *)
Definition bayer_raster (img : ndarray) (out_width out_height : Z) : exn + list Z :=
  if out_width * out_height <? 0 then inl ValueError
  else rows_loop img out_width (Py.range (out_height - 1)) 1
         (replicate (Z.to_nat (out_width * out_height)) 0).

(** [int(input_8_bit_img.size / 3)] is the integer quotient for every
    size below 2^53; a failed [assert] raises [AssertionError]. *)
Definition inject_bayer8_image (input_8_bit_img : ndarray) (out_width out_height : Z)
    (input_10_bit_path : string) : M (option bool) :=
  if negb (out_width * out_height =? Z.quot (size input_8_bit_img) 3)
  then raise (OtherException "AssertionError")
  else
    match bayer_raster input_8_bit_img out_width out_height with
    | inl e => raise e
    | inr output_data =>
        let output := lshift2_uint16 <$> (astype_uint16 <$> output_data) in
        call (ToFile input_10_bit_path output) ;;;
        result <- inject_10bit_image input_10_bit_path ;;
        call (Remove input_10_bit_path) ;;;
        height <- getitem (shape input_8_bit_img) 0 ;;
        width <- getitem (shape input_8_bit_img) 1 ;;
        configure_camera_for_image_injection width height
    end.

End Interleaved.

(** The indexing of an array of three dimensions, stored row by row. *)
Definition normal_index (len i : Z) : option Z :=
  let j := if i <? 0 then i + len else i in
  if (0 <=? j) && (j <? len) then Some j else None.

Definition item3 (a : ndarray) (y x c : Z) : exn + Z :=
  match shape a with
  | [h; w; ch] =>
      match normal_index h y, normal_index w x, normal_index ch c with
      | Some y', Some x', Some c' =>
          match data a !! Z.to_nat ((y' * w + x') * ch + c') with
          | Some v => inr (astype_uint16 v)
          | None => inl IndexError
          end
      | _, _, _ => inl IndexError
      end
  | _ => inl IndexError
  end.

(** Three rows of three pixels. *)
Definition nine_pixels : ndarray :=
  {| shape := [3; 3; 3];
     data := [10; 11; 12;  20; 21; 22;  30; 31; 32;
              40; 41; 42;  50; 51; 52;  60; 61; 62;
              70; 71; 72;  80; 81; 82;  90; 91; 92] |}.

(** The value of [rg_row] in row [y]: 1 on even rows, 0 on odd rows. *)
Definition rg_row_of (y : Z) : Z := if Z.even y then 1 else 0.

End Bayer.

(** * Proofs *)

Section PyFacts.
Context {A : Type}.
Implicit Types (l : list A) (pts : list Z).

Lemma range_length k : length (Py.range k) = Z.to_nat k.
Proof. unfold Py.range. by rewrite length_fmap, length_seq. Qed.

Lemma range_lookup k (i : nat) :
  (i < Z.to_nat k)%nat -> Py.range k !! i = Some (Z.of_nat i).
Proof.
  intros Hi. unfold Py.range.
  rewrite list_lookup_fmap, lookup_seq_lt by done. done.
Qed.

(** Inside the bounds a slice is a [take] of a [drop]. *)
Lemma slice_inside l st en :
  0 <= st <= en -> en <= Z.of_nat (length l) ->
  Py.slice l st en = take (Z.to_nat (en - st)) (drop (Z.to_nat st) l).
Proof.
  intros H1 H2. unfold Py.slice, Py.adjust_index.
  destruct (Z.ltb_spec st 0), (Z.ltb_spec en 0); try lia.
  by rewrite !Z.min_l by lia.
Qed.

Lemma slice_length l st en :
  0 <= st <= en -> en <= Z.of_nat (length l) ->
  Z.of_nat (length (Py.slice l st en)) = en - st.
Proof.
  intros H1 H2. rewrite slice_inside by done.
  rewrite length_take, length_drop. lia.
Qed.

Lemma slice_app l a b c :
  0 <= a <= b -> b <= c -> c <= Z.of_nat (length l) ->
  Py.slice l a b ++ Py.slice l b c = Py.slice l a c.
Proof.
  intros H1 H2 H3. rewrite !slice_inside by lia.
  replace (Z.to_nat (c - a)) with (Z.to_nat (b - a) + Z.to_nat (c - b))%nat by lia.
  replace (Z.to_nat b) with (Z.to_nat a + Z.to_nat (b - a))%nat by lia.
  rewrite <- drop_drop. apply take_take_drop.
Qed.

Lemma slice_all l : Py.slice l 0 (Z.of_nat (length l)) = l.
Proof.
  rewrite slice_inside by lia. simpl.
  rewrite Z.sub_0_r, Nat2Z.id. apply firstn_all.
Qed.

Lemma sub_arys_length l pts : length (Py.sub_arys l pts) = pred (length pts).
Proof.
  induction pts as [|a [|b rest] IH]; simpl in *; auto.
Qed.

Lemma sub_arys_lookup l pts (i : nat) st en :
  pts !! i = Some st -> pts !! S i = Some en ->
  Py.sub_arys l pts !! i = Some (Py.slice l st en).
Proof.
  revert i. induction pts as [|a [|b rest] IH]; intros i Hs He.
  - done.
  - by destruct i as [|[|i]].
  - destruct i as [|i].
    + simpl in *. by simplify_eq.
    + change (Py.sub_arys l (b :: rest) !! i = Some (Py.slice l st en)).
      by apply IH.
Qed.

End PyFacts.

(** ** The chunking of [file_access_upload] *)

Section ChunkingFacts.
Import Chunking.

(** [ceil_div] is the least number of buffers of size [b] that hold [n]
    bytes. *)
Lemma ceil_div_spec n b :
  0 < b -> b * (ceil_div n b - 1) < n <= b * ceil_div n b.
Proof.
  intros Hb. unfold ceil_div.
  pose proof (Z.div_mod (- n) b ltac:(lia)) as Hdm.
  pose proof (Z.mod_pos_bound (- n) b Hb) as Hm.
  nia.
Qed.

(** The source's formula for the number of write operations is the
    ceiling of [n / b]. *)
Lemma write_iterations_ceil n b :
  b <> 0 -> write_iterations n b = ceil_div n b.
Proof.
  intros Hb. unfold write_iterations, ceil_div.
  destruct (Z.eqb_spec (n mod b) 0) as [Hz|Hnz].
  - rewrite Z.div_opp_l_z by done. lia.
  - rewrite Z.div_opp_l_nz by done. lia.
Qed.

Lemma ceil_div_pos n b : 0 < b -> 0 < n -> 0 < ceil_div n b.
Proof. intros Hb Hn. pose proof (ceil_div_spec n b Hb). nia. Qed.

Lemma ceil_div_zero b : ceil_div 0 b = 0.
Proof. unfold ceil_div. simpl. by rewrite Zdiv_0_l. Qed.

Lemma filter_all {A} (P : A -> Prop) `{!forall x, Decision (P x)} (l : list A) :
  Forall P l -> filter P l = l.
Proof.
  induction 1 as [|x l Hx _ IH]; [done|].
  by rewrite filter_cons_True, IH.
Qed.

(** With a positive buffer size the split points are the positive
    multiples of [b] below [k * b]. *)
Lemma sections_multiples (m : nat) b :
  0 < b ->
  sections (Z.of_nat (S m)) b = (fun j : nat => Z.of_nat j * b) <$> seq 1 m.
Proof.
  intros Hb. unfold sections, Py.range.
  rewrite Nat2Z.id. cbn [seq fmap list_fmap].
  rewrite filter_cons_False by (simpl; lia).
  rewrite <- list_fmap_compose. apply filter_all.
  apply Forall_fmap, Forall_forall. intros j Hj.
  apply elem_of_seq in Hj. simpl. nia.
Qed.

Lemma last_cons_default {A} (c : A) rest d d' :
  List.last (c :: rest) d = List.last (c :: rest) d'.
Proof.
  revert c. induction rest as [|e rest IH]; intros c; [done|].
  change (List.last (e :: rest) d = List.last (e :: rest) d'). apply IH.
Qed.

Lemma last_cons_shift {A} (b : A) rest a :
  List.last (b :: rest) a = List.last rest b.
Proof.
  destruct rest as [|c rest]; [done|].
  change (List.last (c :: rest) a = List.last (c :: rest) b).
  apply last_cons_default.
Qed.

Lemma chain_le_last a pts : chain a pts -> a <= List.last pts a.
Proof.
  revert a. induction pts as [|b rest IH]; intros a Hc; [simpl; lia|].
  destruct Hc as [Hab Hc]. specialize (IH b Hc).
  rewrite last_cons_shift. lia.
Qed.

Lemma sub_arys_concat {A} (l : list A) a pts :
  0 <= a -> chain a pts -> List.last pts a <= Z.of_nat (length l) ->
  concat (Py.sub_arys l (a :: pts)) = Py.slice l a (List.last pts a).
Proof.
  revert a. induction pts as [|b rest IH]; intros a Ha Hc Hl.
  - simpl in *. rewrite slice_inside by lia.
    by rewrite Z.sub_diag.
  - destruct Hc as [Hab Hc].
    rewrite last_cons_shift in *.
    change (Py.sub_arys l (a :: b :: rest))
      with (Py.slice l a b :: Py.sub_arys l (b :: rest)).
    rewrite concat_cons, IH by (done || lia).
    apply slice_app; [lia| |done].
    by apply chain_le_last.
Qed.

Lemma chain_multiples (s m : nat) b n :
  0 < b -> Z.of_nat (s + m) * b <= n ->
  chain (Z.of_nat s * b) (((fun j : nat => Z.of_nat j * b) <$> seq (S s) m) ++ [n]).
Proof.
  intros Hb. revert s. induction m as [|m IH]; intros s Hn.
  - simpl. split; [|done]. replace (s + 0)%nat with s in Hn by lia. lia.
  - cbn [seq fmap list_fmap app chain]. split; [nia|].
    apply IH. replace (S s + m)%nat with (s + S m)%nat by lia. done.
Qed.

(** The division points of the split when the file is not empty: the
    multiples [0, b, ..., (k-1) b] followed by [n]. *)
Lemma div_points_multiples (m : nat) b n :
  0 < b ->
  0 :: sections (Z.of_nat (S m)) b ++ [n] =
  ((fun j : nat => Z.of_nat j * b) <$> seq 0 (S m)) ++ [n].
Proof. intros Hb. by rewrite sections_multiples. Qed.

Lemma last_app_singleton {A} (l : list A) x d : List.last (l ++ [x]) d = x.
Proof. apply List.last_last. Qed.

End ChunkingFacts.

Section SplitData.
Import Chunking.

(** The shape of the split for a non-empty file. *)
Lemma split_data_nonempty (file_data : list Byte.byte) (b : Z) (m : nat) :
  0 < b ->
  write_iterations (Z.of_nat (length file_data)) b = Z.of_nat (S m) ->
  split_data file_data b =
  Py.sub_arys file_data
    (((fun j : nat => Z.of_nat j * b) <$> seq 0 (S m)) ++ [Z.of_nat (length file_data)]).
Proof.
  intros Hb Hk. unfold split_data, Py.array_split. cbv zeta.
  rewrite Hk. by rewrite div_points_multiples.
Qed.

(** An empty file is split into one empty chunk: no split point is
    produced and [array_split] returns the whole (empty) array. *)
Lemma split_data_empty (b : Z) : split_data [] b = [[]].
Proof.
  unfold split_data, write_iterations. simpl length.
  change (Z.of_nat 0) with 0. rewrite Zmod_0_l, Zdiv_0_l. reflexivity.
Qed.

Lemma split_data_concat (file_data : list Byte.byte) (b : Z) :
  0 < b -> concat (split_data file_data b) = file_data.
Proof.
  intros Hb. set (n := Z.of_nat (length file_data)).
  destruct (decide (n = 0)) as [Hn|Hn].
  - assert (file_data = []) as -> by (destruct file_data; [done|subst n; simpl in Hn; lia]).
    by rewrite split_data_empty.
  - assert (0 < n) as Hpos by lia.
    pose proof (ceil_div_pos n b Hb Hpos) as Hk.
    pose proof (ceil_div_spec n b Hb) as Hspec.
    destruct (Z.to_nat (ceil_div n b)) as [|m] eqn:Hm; [lia|].
    rewrite (split_data_nonempty file_data b m Hb)
      by (rewrite write_iterations_ceil by lia; fold n; lia).
    cbn [seq fmap list_fmap app]. change (Z.of_nat 0 * b) with 0.
    rewrite sub_arys_concat.
    + rewrite last_app_singleton. apply slice_all.
    + lia.
    + apply (chain_multiples 0 m b n Hb). fold n. nia.
    + rewrite last_app_singleton. lia.
Qed.

Lemma split_data_lookup (file_data : list Byte.byte) (b : Z) (i : nat) chunk :
  0 < b -> 0 < Z.of_nat (length file_data) ->
  split_data file_data b !! i = Some chunk ->
  let n := Z.of_nat (length file_data) in
  Z.of_nat i < ceil_div n b /\
  chunk = Py.slice file_data (Z.of_nat i * b)
            (if decide (Z.of_nat i = ceil_div n b - 1) then n else Z.of_nat (S i) * b).
Proof.
  intros Hb Hpos Hi n.
  pose proof (ceil_div_pos n b Hb Hpos) as Hk.
  destruct (Z.to_nat (ceil_div n b)) as [|m] eqn:Hm; [lia|].
  rewrite (split_data_nonempty file_data b m Hb) in Hi
    by (rewrite write_iterations_ceil by lia; fold n; lia).
  assert (i < S m)%nat as Hlt.
  { apply lookup_lt_Some in Hi. rewrite sub_arys_length in Hi.
    rewrite length_app, length_fmap, length_seq in Hi. simpl in Hi. lia. }
  split; [lia|].
  erewrite sub_arys_lookup in Hi.
  - injection Hi as <-. reflexivity.
  - rewrite lookup_app_l by (rewrite length_fmap, length_seq; lia).
    rewrite list_lookup_fmap, lookup_seq_lt by lia. done.
  - destruct (decide (Z.of_nat i = ceil_div n b - 1)) as [He|Hne].
    + rewrite lookup_app_r by (rewrite length_fmap, length_seq; lia).
      rewrite length_fmap, length_seq.
      replace (S i - S m)%nat with 0%nat by lia. done.
    + rewrite lookup_app_l by (rewrite length_fmap, length_seq; lia).
      rewrite list_lookup_fmap, lookup_seq_lt by lia. done.
Qed.

(** C1 (as amended).  For a buffer size [b > 0] and a file of [n] bytes:
    when [n > 0] the file data is split into exactly [ceil (n / b)]
    chunks, every chunk before the last has length exactly [b], and the
    last chunk has length [n - b * (ceil (n / b) - 1)]; when [n = 0] the
    split is the single empty chunk; in both cases the concatenation of
    the chunks in order is the original file data. *)
Theorem split_data_chunks (file_data : list Byte.byte) (b : Z) :
  0 < b ->
  let n := Z.of_nat (length file_data) in
  let chunks := split_data file_data b in
  (0 < n ->
     Z.of_nat (length chunks) = ceil_div n b /\
     (forall (i : nat) chunk,
        chunks !! i = Some chunk -> Z.of_nat i < ceil_div n b - 1 ->
        Z.of_nat (length chunk) = b) /\
     (forall chunk,
        last chunks = Some chunk ->
        Z.of_nat (length chunk) = n - b * (ceil_div n b - 1))) /\
  (n = 0 -> chunks = [[]]) /\
  concat chunks = file_data.
Proof.
  intros Hb n chunks. split; [|split].
  - intros Hpos.
    pose proof (ceil_div_pos n b Hb Hpos) as Hk.
    pose proof (ceil_div_spec n b Hb) as Hspec.
    assert (Z.of_nat (length chunks) = ceil_div n b) as Hlen.
    { destruct (Z.to_nat (ceil_div n b)) as [|m] eqn:Hm; [lia|].
      subst chunks.
      rewrite (split_data_nonempty file_data b m Hb)
        by (rewrite write_iterations_ceil by lia; fold n; lia).
      rewrite sub_arys_length, length_app, length_fmap, length_seq. simpl. lia. }
    split; [done|]. split.
    + intros i chunk Hi Hlt.
      destruct (split_data_lookup file_data b i chunk Hb Hpos Hi) as [_ ->].
      fold n. rewrite decide_False by lia.
      rewrite slice_length by (fold n; nia). nia.
    + intros chunk Hlast.
      rewrite last_lookup in Hlast.
      destruct (split_data_lookup file_data b _ chunk Hb Hpos Hlast) as [_ ->].
      fold n. fold chunks. rewrite decide_True by lia.
      replace (Z.of_nat (pred (length chunks))) with (ceil_div n b - 1) by lia.
      rewrite slice_length by (fold n; nia). lia.
  - intros Hn. subst chunks.
    assert (file_data = []) as -> by (destruct file_data; [done|subst n; simpl in Hn; lia]).
    apply split_data_empty.
  - by apply split_data_concat.
Qed.

Lemma split_data_chunks_witness :
  concat (split_data [Byte.x01; Byte.x02; Byte.x03; Byte.x04; Byte.x05] 2) =
  [Byte.x01; Byte.x02; Byte.x03; Byte.x04; Byte.x05].
Proof.
  apply (split_data_chunks [Byte.x01; Byte.x02; Byte.x03; Byte.x04; Byte.x05] 2).
  lia.
Defined.

Example split_five_bytes :
  split_data [Byte.x01; Byte.x02; Byte.x03; Byte.x04; Byte.x05] 2 =
  [[Byte.x01; Byte.x02]; [Byte.x03; Byte.x04]; [Byte.x05]].
Proof. reflexivity. Qed.

(** C1 as stated fails on the empty file: [array_split] returns one
    (empty) chunk, not [ceil (0 / b) = 0] chunks. *)
Lemma split_data_empty_file_one_chunk :
  Z.of_nat (length (split_data [] 1)) <> ceil_div 0 1.
Proof. vm_compute. discriminate. Qed.

End SplitData.

(** ** The discipline on traces *)

Section DisciplineFacts.
Import Spin.
Variables P Q : event -> Prop.

Local Abbreviation quiet := (Discipline.quiet P).
Local Abbreviation free := (Discipline.free Q).
Local Abbreviation guarded := (Discipline.guarded P Q).
Local Abbreviation obeys := (Discipline.obeys P Q).
Local Abbreviation harmless := (Discipline.harmless Q).

Lemma guarded_spec d :
  guarded d <-> forall d1 e d2, d = d1 ++ e :: d2 -> P e -> free d2.
Proof.
  induction d as [|x d IH]; simpl.
  - split; [|done]. intros _ [|] ? ? ?; discriminate.
  - rewrite IH. split.
    + intros [Hx Hd] [|y d1] e d2 Heq He; simplify_eq/=; eauto.
    + intros H. split.
      * intros Hx. by apply (H [] x d).
      * intros d1 e d2 -> He. by apply (H (x :: d1) e d2).
Qed.

Lemma free_guarded d : free d -> guarded d.
Proof.
  induction 1 as [|e d He Hd IH]; simpl; [done|].
  split; [|done]. by intros _.
Qed.

Lemma quiet_guarded_app d1 d2 : quiet d1 -> guarded d2 -> guarded (d1 ++ d2).
Proof.
  induction 1 as [|e d He Hd IH]; simpl; [done|].
  intros Hg. split; [done|]. by apply IH.
Qed.

Lemma guarded_free_app d1 d2 : guarded d1 -> free d2 -> guarded (d1 ++ d2).
Proof.
  induction d1 as [|e d IH]; simpl.
  - intros _. apply free_guarded.
  - intros [He Hd] Hf. split; [|by apply IH].
    intros HP. apply Forall_app. split; [by apply He|done].
Qed.

Lemma obeys_ret {A} (good : A -> Prop) a : obeys good (ret a).
Proof.
  intros w t. exists []. simpl. rewrite app_nil_r.
  repeat split; by constructor.
Qed.

Lemma obeys_raise {A} (good : A -> Prop) e : obeys good (raise e).
Proof.
  intros w t. exists []. simpl. rewrite app_nil_r.
  repeat split; by constructor.
Qed.

Lemma obeys_call {T} (c : Call T) (good : T -> Prop) :
  (forall a, good a -> ~ P (Ev c (inr a))) -> obeys good (call c).
Proof.
  intros Hc w t. exists [Ev c (w t T c)]. simpl.
  split; [done|]. split.
  - split; [|done]. intros _. constructor.
  - intros a -> Ha. constructor; [by apply Hc|constructor].
Qed.

Lemma obeys_weaken {A} (good good' : A -> Prop) m :
  (forall a, good' a -> good a) -> obeys good m -> obeys good' m.
Proof.
  intros Hi Hm w t. destruct (Hm w t) as (d & H1 & H2 & H3).
  exists d. eauto.
Qed.

Lemma harmless_ret {A} (good : A -> Prop) a : ~ good a -> harmless good (ret a).
Proof.
  intros Ha w t. exists []. simpl. rewrite app_nil_r.
  repeat split; [constructor|]. by intros ? [= <-].
Qed.

Lemma harmless_raise {A} (good : A -> Prop) e : harmless good (raise e).
Proof.
  intros w t. exists []. simpl. rewrite app_nil_r.
  repeat split; [constructor|]. by intros ? [=].
Qed.

Lemma obeys_bind {A B} (g1 : A -> Prop) (g2 : B -> Prop) m (f : A -> M B) :
  obeys g1 m ->
  (forall a, g1 a -> obeys g2 (f a)) ->
  (forall a, ~ g1 a -> harmless g2 (f a)) ->
  (forall a, g1 a \/ ~ g1 a) ->
  obeys g2 (bind m f).
Proof.
  intros Hm Hgood Hbad Hdec w t. unfold bind.
  destruct (Hm w t) as (d & H1 & H2 & H3).
  destruct (m w t) as [t' [e|a]]; simpl in *; subst t'.
  - exists d. repeat split; [done|]. by intros ? [=].
  - destruct (Hdec a) as [Ha|Ha].
    + destruct (Hgood a Ha w (t ++ d)) as (d' & H1' & H2' & H3').
      exists (d ++ d'). rewrite H1', app_assoc. split; [done|].
      split.
      * apply quiet_guarded_app; [by apply (H3 a)|done].
      * intros b Hb Hg. apply Forall_app. split; [by apply (H3 a)|by apply (H3' b)].
    + destruct (Hbad a Ha w (t ++ d)) as (d' & H1' & H2' & H3').
      exists (d ++ d'). rewrite H1', app_assoc. split; [done|].
      split.
      * by apply guarded_free_app.
      * intros b Hb Hg. by destruct (H3' b Hb).
Qed.

(** Sequencing after a computation whose every return is good. *)
Lemma obeys_seq {A B} (g : B -> Prop) (m : M A) (f : A -> M B) :
  obeys (fun _ => True) m -> (forall a, obeys g (f a)) -> obeys g (bind m f).
Proof.
  intros Hm Hf. apply (obeys_bind (fun _ => True)); auto.
  intros a Ha. by destruct Ha.
Qed.

Lemma obeys_try_except {A} (g : A -> Prop) m handler :
  obeys g m ->
  (forall e h, handler e = Some h -> harmless g h) ->
  obeys g (try_except m handler).
Proof.
  intros Hm Hh w t. unfold try_except.
  destruct (Hm w t) as (d & H1 & H2 & H3).
  destruct (m w t) as [t' [e|a]]; simpl in *; subst t'.
  - destruct (handler e) as [h|] eqn:He.
    + destruct (Hh e h He w (t ++ d)) as (d' & H1' & H2' & H3').
      exists (d ++ d'). rewrite H1', app_assoc. split; [done|].
      split; [by apply guarded_free_app|].
      intros b Hb Hg. by destruct (H3' b Hb).
    + exists d. repeat split; [done|]. by intros ? [=].
  - exists d. repeat split; [done|]. simpl. intros b [= <-]. apply H3. done.
Qed.

(** [finally: fin; return ...] after any body: the body's trace is kept,
    its result is not. *)
Lemma guarded_finally_return {A B} (g : A -> Prop) (m : M A) (fin : M B) :
  obeys g m ->
  (forall w t, exists d, fst (fin w t) = t ++ d /\ free d) ->
  forall w t, exists d, fst (finally_return m fin w t) = t ++ d /\ guarded d.
Proof.
  intros Hm Hf w t. unfold finally_return.
  destruct (Hm w t) as (d & H1 & H2 & _).
  destruct (Hf w (fst (m w t))) as (d' & H1' & H2').
  exists (d ++ d'). rewrite H1', H1, app_assoc. split; [done|].
  by apply guarded_free_app.
Qed.


(** *** Counting and progress *)

Variable R : event -> bool.
Hypothesis P_raise : forall T (c : Call T) e, P (Ev c (inl e)).

Local Abbreviation count := (Discipline.count R).
Local Abbreviation bounded := (Discipline.bounded P R).
Local Abbreviation pure := Discipline.pure.

Lemma count_app d1 d2 : count (d1 ++ d2) = (count d1 + count d2)%nat.
Proof. unfold Discipline.count. by rewrite filter_app, length_app. Qed.

Lemma bounded_ret {A} (good : A -> Prop) a : good a -> bounded 0 good (ret a).
Proof.
  intros Ha w t. exists []. simpl. rewrite app_nil_r.
  repeat split; eauto.
Qed.

Lemma bounded_call {T} (c : Call T) (b : bool) :
  (forall r, R (Ev c r) = b) ->
  bounded (if b then 1 else 0) (fun a => ~ P (Ev c (inr a))) (call c).
Proof.
  intros Hc w t. exists [Ev c (w t T c)]. simpl.
  assert (count [Ev c (w t T c)] = if b then 1 else 0)%nat as Hcount.
  { unfold Discipline.count. rewrite filter_cons, filter_nil.
    destruct (decide _) as [Hd|Hd]; rewrite Hc in Hd; destruct b; done. }
  split; [done|]. split; [lia|].
  intros Hq. split; [done|].
  inversion Hq as [|? ? He _]; subst.
  destruct (w t T c) as [e|a]; [by destruct He|].
  eauto.
Qed.

Lemma bounded_weaken {A} n (good good' : A -> Prop) m :
  (forall a, good a -> good' a) -> bounded n good m -> bounded n good' m.
Proof.
  intros Hi Hm w t. destruct (Hm w t) as (d & H1 & H2 & H3).
  exists d. repeat split; [done|done|by apply H3|].
  destruct (H3 H) as (_ & a & Ha & Hg). eauto.
Qed.

Lemma bounded_bind {A B} n1 n2 (g1 : A -> Prop) (g2 : B -> Prop) m (f : A -> M B) :
  bounded n1 g1 m ->
  (forall a, g1 a -> bounded n2 g2 (f a)) ->
  (forall a, ~ g1 a -> pure (f a)) ->
  (forall a, g1 a \/ ~ g1 a) ->
  bounded (n1 + n2) g2 (bind m f).
Proof.
  intros Hm Hgood Hbad Hdec w t. unfold bind.
  destruct (Hm w t) as (d & H1 & H2 & H3).
  destruct (m w t) as [t' [e|a]] eqn:Hmw; simpl in *; subst t'.
  - exists d. split; [done|]. split; [lia|].
    intros Hq. destruct (H3 Hq) as (_ & a & [=] & _).
  - destruct (Hdec a) as [Ha|Ha].
    + destruct (Hgood a Ha w (t ++ d)) as (d' & H1' & H2' & H3').
      exists (d ++ d'). rewrite H1', app_assoc, count_app.
      split; [done|]. split; [lia|].
      intros Hq. apply Forall_app in Hq as [Hq Hq'].
      destruct (H3 Hq) as (-> & _). destruct (H3' Hq') as (-> & Hres).
      done.
    + exists d. rewrite (Hbad a Ha). split; [done|]. split; [lia|].
      intros Hq. destruct (H3 Hq) as (_ & a' & [= <-] & Hg). done.
Qed.

Lemma bounded_seq {A B} n1 n2 (g : B -> Prop) (m : M A) (f : A -> M B) :
  bounded n1 (fun _ => True) m -> (forall a, bounded n2 g (f a)) ->
  bounded (n1 + n2) g (bind m f).
Proof.
  intros Hm Hf. apply (bounded_bind n1 n2 (fun _ => True)); auto.
  intros a Ha. by destruct Ha.
Qed.

Lemma bounded_try_except {A} n (g : A -> Prop) m handler :
  bounded n g m ->
  (forall e h, handler e = Some h -> pure h) ->
  bounded n g (try_except m handler).
Proof.
  intros Hm Hh w t. unfold try_except.
  destruct (Hm w t) as (d & H1 & H2 & H3).
  destruct (m w t) as [t' [e|a]]; simpl in *; subst t'.
  - destruct (handler e) as [h|] eqn:He.
    + exists d. rewrite (Hh e h He). split; [done|]. split; [done|].
      intros Hq. destruct (H3 Hq) as (_ & a & [=] & _).
    + exists d. split; [done|]. split; [done|].
      intros Hq. destruct (H3 Hq) as (_ & a & [=] & _).
  - exists d. eauto.
Qed.

End DisciplineFacts.

(** ** [file_access_upload] stops at the first failure *)

Section UploadFailStop.
Import Spin FileAccess TraceSpec Discipline.
Local Open Scope spin_scope.

Let P (e : event) : Prop := failed e = true.
Let Q (_ : event) : Prop := True.

Lemma obeys_pure {A} (g : A -> Prop) (m : M A) :
  (forall w t, fst (m w t) = t) -> obeys P Q g m.
Proof.
  intros Hm w t. exists []. rewrite app_nil_r.
  repeat split; [done|]. intros; constructor.
Qed.

Lemma obeys_plain_call {T} (c : Call T) :
  (forall a, failed (Ev c (inr a)) = false) ->
  obeys P Q (fun _ => True) (call c).
Proof.
  intros Hc. apply obeys_call. intros a _. unfold P. by rewrite Hc.
Qed.

Ltac plain_call := apply obeys_plain_call; intros ?; reflexivity.

Ltac obey :=
  repeat first
    [ apply obeys_ret
    | apply obeys_raise
    | plain_call
    | assumption
    | apply obeys_seq; [ | intros ? ]
    | match goal with
      | |- obeys _ _ _ (if ?b then _ else _) => destruct b
      | |- obeys _ _ _ (match ?x with _ => _ end) => destruct x
      end ].

(** Reading the status back and turning it into the result. *)
Lemma obeys_status_result :
  obeys P Q (fun ok => ok = true)
    (s <- call FileOperationStatus_GetValue ;;
     if negb (status_ok s) then ret false else ret true).
Proof.
  apply (obeys_bind P Q (fun s => status_ok s = true)).
  - apply obeys_call. intros s Hs. unfold P. simpl. by rewrite Hs.
  - intros s ->. apply obeys_ret.
  - intros s Hs. destruct (status_ok s); [done|]. by apply harmless_ret.
  - intros s. destruct (status_ok s); auto.
Qed.

Lemma harmless_except_SpinnakerException e h :
  except_SpinnakerException e = Some h -> harmless Q (fun ok => ok = true) h.
Proof. destruct e; intros [= <-]. by apply harmless_ret. Qed.

Lemma obeys_open_file_to_write : obeys P Q (fun ok => ok = true) open_file_to_write.
Proof.
  apply obeys_try_except; [|apply harmless_except_SpinnakerException].
  do 3 (apply obeys_seq; [plain_call|intros _]). apply obeys_status_result.
Qed.

Lemma obeys_close_file : obeys P Q (fun ok => ok = true) close_file.
Proof.
  apply obeys_try_except; [|apply harmless_except_SpinnakerException].
  do 2 (apply obeys_seq; [plain_call|intros _]). apply obeys_status_result.
Qed.

Lemma obeys_execute_delete_command :
  obeys P Q (fun ok => ok = true) execute_delete_command.
Proof.
  apply obeys_try_except; [|apply harmless_except_SpinnakerException].
  do 2 (apply obeys_seq; [plain_call|intros _]). apply obeys_status_result.
Qed.

Lemma obeys_execute_write_command :
  obeys P Q (fun ok => ok = true) execute_write_command.
Proof.
  apply obeys_try_except; [|apply harmless_except_SpinnakerException].
  do 2 (apply obeys_seq; [plain_call|intros _]). apply obeys_status_result.
Qed.

Lemma obeys_unless_raise f msg :
  obeys P Q (fun ok => ok = true) f ->
  obeys P Q (fun _ => True) (unless_raise f msg).
Proof.
  intros Hf. apply (obeys_bind P Q (fun ok => ok = true)); [done| | |].
  - intros ok ->. apply obeys_ret.
  - intros [|] Hok; [done|]. apply harmless_raise.
  - intros [|]; auto.
Qed.

Lemma obeys_getitem {A} (l : list A) i : obeys P Q (fun _ => True) (getitem l i).
Proof.
  apply obeys_pure. intros w t. unfold getitem.
  destruct (_ <? 0); [done|]. by destruct (l !! _).
Qed.

Lemma obeys_not_available_or_not check node :
  (forall a, failed (Ev (check node) (inr a)) = false) ->
  obeys P Q (fun _ => True) (not_available_or_not check node).
Proof.
  intros Hc. unfold not_available_or_not.
  apply obeys_seq; [plain_call|intros a].
  destruct (negb a); [apply obeys_ret|].
  apply obeys_seq; [by apply obeys_plain_call|intros c]. apply obeys_ret.
Qed.

Lemma obeys_write_loop split_data b total debug indices st :
  obeys P Q (fun _ => True) (write_loop split_data b total debug indices st).
Proof.
  revert st. induction indices as [|i rest IH]; intros [left written]; simpl.
  - apply obeys_ret.
  - apply obeys_seq; [apply obeys_getitem|intros tmp].
    apply obeys_seq; [plain_call|intros _].
    apply obeys_seq; [obey|intros _].
    apply obeys_seq;
      [apply obeys_unless_raise, obeys_execute_write_command|intros _].
    apply obeys_seq; [plain_call|intros size].
    apply obeys_seq; [obey|intros _].
    apply IH.
Qed.

Lemma obeys_write_file_data file_data debug :
  obeys P Q (fun _ => True) (write_file_data file_data debug).
Proof.
  unfold write_file_data.
  apply obeys_seq; [plain_call|intros b].
  destruct (b =? 0); [apply obeys_raise|].
  apply obeys_seq; [apply obeys_write_loop|intros _].
  apply obeys_unless_raise, obeys_close_file.
Qed.

Lemma obeys_file_access_upload_try file_selector file_path debug :
  obeys P Q (fun _ => True) (file_access_upload_try file_selector file_path debug).
Proof.
  unfold file_access_upload_try.
  apply obeys_seq; [plain_call|intros _].
  apply obeys_seq; [obey|intros unsupported].
  destruct unsupported; [apply obeys_raise|].
  apply obeys_seq; [plain_call|intros _].
  apply obeys_seq; [by apply obeys_not_available_or_not|intros bad].
  destruct bad; [apply obeys_raise|].
  apply obeys_seq; [plain_call|intros _].
  apply obeys_seq; [by apply obeys_not_available_or_not|intros bad].
  destruct bad; [apply obeys_raise|].
  apply obeys_seq; [plain_call|intros entry].
  apply obeys_seq; [plain_call|intros _].
  apply obeys_seq; [plain_call|intros file_size].
  apply obeys_seq.
  { destruct (file_size >? 0); [|apply obeys_ret].
    apply obeys_unless_raise, obeys_execute_delete_command. }
  intros _.
  apply obeys_seq;
    [apply obeys_unless_raise, obeys_open_file_to_write|intros _].
  apply obeys_seq; [plain_call|intros len].
  apply obeys_seq; [plain_call|intros buf].
  apply obeys_seq.
  { destruct (len <? buf); [|apply obeys_ret].
    apply obeys_try_except.
    - apply obeys_seq; [plain_call|intros buf']. plain_call.
    - intros [] h [=]; subst h. apply harmless_raise. }
  intros _.
  apply obeys_seq; [plain_call|intros _].
  apply obeys_seq; [plain_call|intros file_data].
  apply obeys_write_file_data.
Qed.

Lemma obeys_file_access_upload file_selector file_path debug :
  obeys P Q (fun ok => ok = true) (file_access_upload file_selector file_path debug).
Proof.
  apply obeys_try_except.
  - apply obeys_seq; [apply obeys_file_access_upload_try|intros _].
    apply obeys_ret.
  - intros e h Hh.
    assert (h = ret false) as -> by (destruct e; by injection Hh).
    by apply harmless_ret.
Qed.

Lemma file_access_upload_returns file_selector file_path debug w t :
  exists result,
    snd (file_access_upload file_selector file_path debug w t) = inr result.
Proof.
  unfold file_access_upload, try_except, bind.
  destruct (file_access_upload_try _ _ _ w t) as [t' [e|[]]]; simpl.
  - exists false. by destruct e.
  - by exists true.
Qed.

(** C3.  [file_access_upload] always returns a boolean and never raises;
    whenever a camera or host operation of the run fails (a call raises,
    or the status read back after delete, open, write or close is not
    [Success]) the result is [False], so [True] is returned only when
    every operation succeeded; and a failing operation is the last call of
    the run, so no write command (nor any other command) is issued after
    it. *)
Theorem file_access_upload_fail_stop file_selector file_path debug w t :
  exists d result,
    file_access_upload file_selector file_path debug w t = (t ++ d, inr result) /\
    (forall e, e ∈ d -> failed e = true -> result = false) /\
    (forall d1 e d2, d = d1 ++ e :: d2 -> failed e = true -> d2 = []).
Proof.
  destruct (obeys_file_access_upload file_selector file_path debug w t)
    as (d & H1 & H2 & H3).
  destruct (file_access_upload_returns file_selector file_path debug w t)
    as [result Hr].
  exists d, result. split; [|split].
  - destruct (file_access_upload _ _ _ w t) as [t' r]. simpl in *. by subst.
  - intros e He Hf. destruct result; [|done].
    specialize (H3 true Hr eq_refl).
    unfold quiet in H3. rewrite Forall_forall in H3. by destruct (H3 e He).
  - intros d1 e d2 Hd Hf.
    pose proof (proj1 (guarded_spec P Q d) H2 d1 e d2 Hd Hf) as Hfree.
    destruct d2 as [|x d2]; [done|].
    inversion Hfree as [|? ? Hx _]. by destruct Hx.
Qed.

End UploadFailStop.

(** ** The number of iterations of the write loop *)

Section WriteLoopCount.
Import Spin FileAccess TraceSpec Discipline.
Local Open Scope spin_scope.

Let P (e : event) : Prop := failed e = true.
Let Q (_ : event) : Prop := True.

Lemma failed_raise T (c : Call T) e : P (Ev c (inl e)).
Proof. reflexivity. Qed.

Local Abbreviation bounded' := (bounded P is_buffer_set).

Lemma bounded_plain_call {T} (c : Call T) :
  (forall r, is_buffer_set (Ev c r) = false) ->
  (forall a, failed (Ev c (inr a)) = false) ->
  bounded' 0 (fun _ => True) (call c).
Proof.
  intros Hb Hf.
  apply (bounded_weaken P is_buffer_set 0 (fun a => ~ P (Ev c (inr a)))); [done|].
  apply (bounded_call P is_buffer_set failed_raise c false Hb).
Qed.

Ltac plain := apply bounded_plain_call; intros ?; reflexivity.

Lemma bounded_status_result :
  bounded' 0 (fun ok => ok = true)
    (s <- call FileOperationStatus_GetValue ;;
     if negb (status_ok s) then ret false else ret true).
Proof.
  apply (bounded_bind P is_buffer_set 0 0 (fun s => status_ok s = true)).
  - apply (bounded_weaken P is_buffer_set 0
             (fun s => ~ P (Ev FileOperationStatus_GetValue (inr s)))).
    + intros s Hs. unfold P in Hs. simpl in Hs. by destruct (status_ok s).
    + by apply (bounded_call P is_buffer_set failed_raise _ false).
  - intros s ->. by apply bounded_ret.
  - intros s Hs. by destruct (status_ok s).
  - intros s. destruct (status_ok s); auto.
Qed.

Lemma pure_except_SpinnakerException e h :
  except_SpinnakerException e = Some h -> pure h.
Proof. destruct e; intros [= <-]. done. Qed.

Lemma bounded_execute_write_command :
  bounded' 0 (fun ok => ok = true) execute_write_command.
Proof.
  apply bounded_try_except; [|apply pure_except_SpinnakerException].
  do 2 (apply (bounded_seq P is_buffer_set 0 0); [plain|intros _]).
  apply bounded_status_result.
Qed.

Lemma bounded_close_file : bounded' 0 (fun ok => ok = true) close_file.
Proof.
  apply bounded_try_except; [|apply pure_except_SpinnakerException].
  do 2 (apply (bounded_seq P is_buffer_set 0 0); [plain|intros _]).
  apply bounded_status_result.
Qed.

Lemma bounded_unless_raise f msg :
  bounded' 0 (fun ok => ok = true) f ->
  bounded' 0 (fun _ => True) (unless_raise f msg).
Proof.
  intros Hf.
  apply (bounded_bind P is_buffer_set 0 0 (fun ok => ok = true)); [done| | |].
  - intros ok ->. by apply bounded_ret.
  - by intros [|] Hok.
  - intros [|]; auto.
Qed.

Lemma getitem_inside {A} (l : list A) (i : Z) :
  0 <= i < Z.of_nat (length l) -> exists x, getitem l i = ret x.
Proof.
  intros Hi. unfold getitem.
  destruct (Z.ltb_spec i 0); [lia|].
  destruct (Z.ltb_spec i 0); [lia|].
  destruct (lookup_lt_is_Some_2 l (Z.to_nat i) ltac:(lia)) as [x ->]. eauto.
Qed.

Lemma bounded_write_loop split_data b total debug indices st :
  (forall i, i ∈ indices -> 0 <= i < Z.of_nat (length split_data)) ->
  bounded' (length indices) (fun _ => True)
    (write_loop split_data b total debug indices st).
Proof.
  revert st. induction indices as [|i rest IH]; intros [left written] Hin.
  - by apply bounded_ret.
  - destruct (getitem_inside split_data i) as [tmp Htmp].
    { apply Hin. by left. }
    cbn [write_loop]. rewrite Htmp.
    change (bounded' (1 + length rest) (fun _ => True)
      (call (FileAccessBuffer_Set tmp) ;;;
       (if b >? left then call (FileAccessLength_SetValue left) else ret tt) ;;;
       unless_raise execute_write_command "Write stream failed!" ;;;
       size_written <- call FileOperationResult_GetValue ;;
       (if debug then call FileAccessOffset_GetValue ;;; ret tt else ret tt) ;;;
       write_loop split_data b total debug rest
         (total - (written + size_written), written + size_written))).
    apply bounded_seq.
    { apply (bounded_weaken P is_buffer_set 1
               (fun a => ~ P (Ev (FileAccessBuffer_Set tmp) (inr a)))); [done|].
      by apply (bounded_call P is_buffer_set failed_raise _ true). }
    intros _. apply (bounded_seq P is_buffer_set 0).
    { destruct (b >? left); [plain|by apply bounded_ret]. }
    intros _. apply (bounded_seq P is_buffer_set 0).
    { apply bounded_unless_raise, bounded_execute_write_command. }
    intros _. apply (bounded_seq P is_buffer_set 0); [plain|].
    intros size. apply (bounded_seq P is_buffer_set 0).
    { destruct debug; [|by apply bounded_ret].
      apply (bounded_seq P is_buffer_set 0 0); [plain|]. intros _. by apply bounded_ret. }
    intros _. apply IH. intros j Hj. apply Hin. by right.
Qed.

Lemma range_elem k i : i ∈ Py.range k -> 0 <= i < k.
Proof.
  unfold Py.range. intros Hi. apply list_elem_of_fmap in Hi as (j & -> & Hj).
  apply elem_of_seq in Hj. lia.
Qed.

Lemma ceil_div_nonneg n b : 0 < b -> 0 <= n -> 0 <= ceil_div n b.
Proof. intros Hb Hn. pose proof (ceil_div_spec n b Hb). nia. Qed.

Lemma split_data_length_ge (file_data : list Byte.byte) b :
  0 < b ->
  ceil_div (Z.of_nat (length file_data)) b
    <= Z.of_nat (length (Chunking.split_data file_data b)).
Proof.
  intros Hb. destruct (split_data_chunks file_data b Hb) as (Hpos & Hzero & _).
  destruct (decide (0 < Z.of_nat (length file_data))) as [Hn|Hn].
  - destruct (Hpos Hn) as [-> _]. lia.
  - replace (Z.of_nat (length file_data)) with 0 by lia.
    rewrite ceil_div_zero. lia.
Qed.

(** C2 (as amended).  For a file of [n >= 0] bytes and a buffer size
    [b > 0] read from the camera, the write loop of [file_access_upload]
    always stops, after at most [ceil (n / b)] iterations; it executes
    exactly [ceil (n / b)] iterations when no operation of the run fails,
    and whenever the routine gets past the loop and the close. *)
Theorem write_file_data_iterations (file_data : list Byte.byte) debug (w : World) t b :
  w t Z FileAccessLength_GetValue = inr b -> 0 < b ->
  let n := Z.of_nat (length file_data) in
  exists d r,
    write_file_data file_data debug w t = (t ++ d, r) /\
    iterations d <= ceil_div n b /\
    (Forall (fun e => failed e = false) d ->
     iterations d = ceil_div n b /\ r = inr tt) /\
    (r = inr tt -> iterations d = ceil_div n b).
Proof.
  intros Hw Hb n.
  pose proof (ceil_div_nonneg n b Hb ltac:(lia)) as Hk.
  set (ev := Ev FileAccessLength_GetValue (inr b : exn + Z)).
  set (rest :=
    write_loop (Chunking.split_data file_data b) b n debug
      (Py.range (Chunking.write_iterations n b)) (n, 0) ;;;
    unless_raise close_file "Failed to close file!").
  assert (write_file_data file_data debug w t = rest w (t ++ [ev])) as Hrun.
  { unfold write_file_data, bind at 1, call. rewrite Hw.
    destruct (Z.eqb_spec b 0); [lia|]. reflexivity. }
  assert (bounded' (Z.to_nat (ceil_div n b) + 0) (fun _ => True) rest) as Hrest.
  { apply bounded_seq.
    - rewrite <- (write_iterations_ceil n b) by lia.
      rewrite <- range_length. apply bounded_write_loop.
      intros i Hi. apply range_elem in Hi.
      rewrite write_iterations_ceil in Hi by lia.
      pose proof (split_data_length_ge file_data b Hb). fold n in H. lia.
    - intros _. apply bounded_unless_raise, bounded_close_file. }
  destruct (Hrest w (t ++ [ev])) as (d & H1 & H2 & H3).
  destruct (obeys_write_file_data file_data debug w t) as (d0 & H1' & _ & H3').
  assert (d0 = ev :: d) as ->.
  { rewrite Hrun, H1, <- app_assoc in H1'. apply app_inv_head in H1'. by subst d0. }
  assert (iterations (ev :: d) = Z.of_nat (count is_buffer_set d)) as Hit.
  { unfold iterations, count. rewrite filter_cons_False by (unfold ev; simpl; tauto).
    f_equal. f_equal. apply list_filter_iff. intros e. by destruct (is_buffer_set e). }
  assert (quiet P d -> iterations (ev :: d) = ceil_div n b /\
                       snd (rest w (t ++ [ev])) = inr tt) as Hquiet.
  { intros Hq. destruct (H3 Hq) as (Hc & [] & Hr & _). rewrite Hit, Hc. split; [lia|done]. }
  exists (ev :: d), (snd (rest w (t ++ [ev]))). split; [|split; [|split]].
  - rewrite Hrun. destruct (rest w (t ++ [ev])) as [t' r]. simpl in *. subst t'.
    by rewrite <- app_assoc.
  - rewrite Hit. lia.
  - intros Hall. apply Hquiet. inversion Hall as [|? ? _ Hd]; subst.
    eapply Forall_impl; [exact Hd|]. intros e He. unfold P. by rewrite He.
  - intros Hr. apply Hquiet.
    assert (quiet P (ev :: d)) as Hq.
    { apply (H3' tt); [|done]. by rewrite Hrun. }
    by inversion Hq.
Qed.

End WriteLoopCount.

Section WriteLoopRuns.
Import Spin FileAccess TraceSpec Worlds.

Lemma write_file_data_iterations_witness :
  exists d r,
    write_file_data five_bytes false
      (camera five_bytes 2 FileOperationStatus_Success) [] = ([] ++ d, r) /\
    iterations d <= ceil_div 5 2 /\
    (Forall (fun e => failed e = false) d ->
     iterations d = ceil_div 5 2 /\ r = inr tt) /\
    (r = inr tt -> iterations d = ceil_div 5 2).
Proof.
  apply (write_file_data_iterations five_bytes false
           (camera five_bytes 2 FileOperationStatus_Success) [] 2);
    [reflexivity|lia].
Defined.

(** On a camera that accepts every write, five bytes go out in three
    iterations and the upload reports success. *)
Example upload_five_bytes :
  snd (file_access_upload "InjectedImage" "temp.raw" false
         (camera five_bytes 2 FileOperationStatus_Success) []) = inr true /\
  iterations (fst (file_access_upload "InjectedImage" "temp.raw" false
                     (camera five_bytes 2 FileOperationStatus_Success) [])) = 3.
Proof. vm_compute. split; reflexivity. Qed.

(** C2 as stated fails when a write fails: on a camera that rejects the
    first write the loop of a two-byte upload with a one-byte buffer stops
    after one iteration, not [ceil (2 / 1) = 2]. *)
Lemma write_loop_stops_at_failed_write :
  snd (file_access_upload "InjectedImage" "temp.raw" false
         (camera [Byte.x01; Byte.x02] 1 FileOperationStatus_Failure) []) = inr false /\
  iterations (fst (file_access_upload "InjectedImage" "temp.raw" false
                     (camera [Byte.x01; Byte.x02] 1 FileOperationStatus_Failure) [])) = 1 /\
  iterations (fst (file_access_upload "InjectedImage" "temp.raw" false
                     (camera [Byte.x01; Byte.x02] 1 FileOperationStatus_Failure) []))
    <> ceil_div 2 1.
Proof. vm_compute. repeat split; discriminate. Qed.

Lemma file_access_upload_fail_stop_witness :
  exists d result,
    file_access_upload "InjectedImage" "temp.raw" false
      (camera [Byte.x01; Byte.x02] 1 FileOperationStatus_Failure) [] =
    ([] ++ d, inr result) /\
    (forall e, e ∈ d -> failed e = true -> result = false) /\
    (forall d1 e d2, d = d1 ++ e :: d2 -> failed e = true -> d2 = []).
Proof.
  apply (file_access_upload_fail_stop "InjectedImage" "temp.raw" false
           (camera [Byte.x01; Byte.x02] 1 FileOperationStatus_Failure) []).
Defined.

End WriteLoopRuns.

(** ** The 8-bit to 10-bit conversion *)

Section Convert.
Import Spin Camera.

Lemma lshift2_astype_uint8 v :
  0 <= v < 256 -> lshift2_uint16 (astype_uint16 v) = v * 4.
Proof.
  intros Hv. unfold lshift2_uint16, astype_uint16.
  rewrite (Z.mod_small v) by lia.
  rewrite Z.shiftl_mul_pow2 by lia.
  change (2 ^ 2) with 4. apply Z.mod_small. lia.
Qed.

(** C6.  For an image of 8-bit samples, the raster that
    [convert_raw_image_8bit_to_10bit] hands to [tofile] holds, for every
    input sample [v] and in the same order, the 16-bit word [v * 4]
    ([v] shifted left by two bits): one word per input sample, each a
    multiple of 4 between 0 and 1020, hence below [2 ^ 10]. *)
Theorem convert_raw_image_8bit_to_10bit_raster (img : ndarray) (output_file : string)
    (w : World) t :
  Forall (fun v => 0 <= v < 256) (data img) ->
  output_data img = (fun v => Z.shiftl v 2) <$> data img /\
  output_data img = (fun v => v * 4) <$> data img /\
  length (output_data img) = length (data img) /\
  Forall (fun x => 0 <= x <= 1020 /\ x mod 4 = 0 /\ x < 2 ^ 10) (output_data img) /\
  fst (convert_raw_image_8bit_to_10bit img output_file w t) =
    t ++ [Ev (ToFile output_file ((fun v => v * 4) <$> data img))
             (w t unit (ToFile output_file ((fun v => v * 4) <$> data img)))].
Proof.
  intros Hdata.
  assert (output_data img = (fun v => v * 4) <$> data img) as Hout.
  { unfold output_data. rewrite <- list_fmap_compose.
    apply Forall_fmap_ext_1. eapply Forall_impl; [exact Hdata|].
    intros v Hv. by apply lshift2_astype_uint8. }
  split; [|split; [done|split; [|split]]].
  - rewrite Hout. apply list_fmap_ext. intros _ v _.
    by rewrite Z.shiftl_mul_pow2.
  - unfold output_data. by rewrite !length_fmap.
  - rewrite Hout. apply Forall_fmap. eapply Forall_impl; [exact Hdata|].
    intros v Hv. simpl. rewrite Z.mod_mul by done.
    change (2 ^ 10) with 1024. simpl in Hv. lia.
  - unfold convert_raw_image_8bit_to_10bit, bind, call. rewrite Hout.
    by destruct (w t unit _).
Qed.

Lemma convert_raw_image_8bit_to_10bit_raster_witness :
  output_data {| shape := [2; 2]; data := [0; 1; 128; 255] |} = [0; 4; 512; 1020].
Proof.
  pose proof (convert_raw_image_8bit_to_10bit_raster
                {| shape := [2; 2]; data := [0; 1; 128; 255] |} "temp.raw"
                (Worlds.camera [] 1 FileOperationStatus_Success) []) as H.
  destruct H as (_ & H & _).
  - repeat constructor; lia.
  - exact H.
Defined.

End Convert.

(** ** What a computation can return *)

Section Yields.
Import Spin Discipline.

Lemma yields_ret {A} (S : A -> Prop) a : S a -> yields S (ret a).
Proof. intros Ha w t a' [= <-]. done. Qed.

Lemma yields_raise {A} (S : A -> Prop) e : yields S (raise e).
Proof. intros w t a [=]. Qed.

Lemma yields_bind {A B} (S : B -> Prop) (m : M A) (f : A -> M B) :
  (forall a, yields S (f a)) -> yields S (bind m f).
Proof.
  intros Hf w t b. unfold bind.
  destruct (m w t) as [t' [e|a]]; [by intros [=]|]. apply Hf.
Qed.

Lemma yields_try_except {A} (S : A -> Prop) m handler :
  yields S m -> (forall e h, handler e = Some h -> yields S h) ->
  yields S (try_except m handler).
Proof.
  intros Hm Hh w t a. unfold try_except.
  specialize (Hm w t). destruct (m w t) as [t' [e|a']]; simpl in *.
  - destruct (handler e) as [h|] eqn:He; [by apply (Hh e h)|by intros [=]].
  - intros [= <-]. by apply Hm.
Qed.

End Yields.

(** ** The register-configuration routines *)

Section Configuration.
Import Spin Camera TraceSpec Discipline.
Local Open Scope spin_scope.

Let P (e : event) : Prop := config_failed e = true.
Let Q (e : event) : Prop := is_node_set e = true.
Let R (_ : event) : bool := false.

Lemma config_failed_raise T (c : Call T) e : P (Ev c (inl e)).
Proof. reflexivity. Qed.

Lemma cfg_obeys_call {T} (c : Call T) :
  (forall a, config_failed (Ev c (inr a)) = false) ->
  obeys P Q (fun _ => True) (call c).
Proof. intros Hc. apply obeys_call. intros a _. unfold P. by rewrite Hc. Qed.

Lemma cfg_bounded_call {T} (c : Call T) :
  (forall a, config_failed (Ev c (inr a)) = false) ->
  bounded P R 0 (fun _ => True) (call c).
Proof.
  intros Hc.
  apply (bounded_weaken P R 0 (fun a => ~ P (Ev c (inr a)))); [done|].
  by apply (bounded_call P R config_failed_raise c false).
Qed.

Lemma cfg_obeys_check (c : Call bool) :
  (forall a, config_failed (Ev c (inr a)) = negb a) ->
  obeys P Q (fun a => a = true) (call c).
Proof. intros Hc. apply obeys_call. intros a ->. unfold P. by rewrite Hc. Qed.

Lemma cfg_bounded_check (c : Call bool) :
  (forall a, config_failed (Ev c (inr a)) = negb a) ->
  bounded P R 0 (fun a => a = true) (call c).
Proof.
  intros Hc.
  apply (bounded_weaken P R 0 (fun a => ~ P (Ev c (inr a)))).
  - intros a. unfold P. rewrite Hc. by destruct a.
  - by apply (bounded_call P R config_failed_raise c false).
Qed.

(** The check of a node answers [bad = False] exactly when both
    questions were answered [True]. *)
Lemma cfg_obeys_check_node check node :
  (forall a, config_failed (Ev (check node) (inr a)) = negb a) ->
  obeys P Q (fun bad => bad = false) (not_available_or_not check node).
Proof.
  intros Hc. unfold not_available_or_not.
  apply (obeys_bind P Q (fun a => a = true)).
  - by apply cfg_obeys_check.
  - intros a ->. cbv beta iota delta [negb].
    apply (obeys_bind P Q (fun a => a = true)).
    + by apply cfg_obeys_check.
    + intros c ->. apply obeys_ret.
    + intros [|] Hc'; [done|]. by apply harmless_ret.
    + intros [|]; auto.
  - intros [|] Ha; [done|]. by apply harmless_ret.
  - intros [|]; auto.
Qed.

Lemma cfg_bounded_check_node check node :
  (forall a, config_failed (Ev (check node) (inr a)) = negb a) ->
  bounded P R 0 (fun bad => bad = false) (not_available_or_not check node).
Proof.
  intros Hc. unfold not_available_or_not.
  apply (bounded_bind P R 0 0 (fun a => a = true)).
  - by apply cfg_bounded_check.
  - intros a ->. cbv beta iota delta [negb].
    apply (bounded_bind P R 0 0 (fun a => a = true)).
    + by apply cfg_bounded_check.
    + intros c ->. by apply bounded_ret.
    + by intros [|] Hc'.
    + intros [|]; auto.
  - by intros [|] Ha.
  - intros [|]; auto.
Qed.

Ltac cfg_obey :=
  repeat first
    [ apply obeys_ret
    | apply obeys_seq; [apply cfg_obeys_call; intros ?; reflexivity|intros ?]
    | apply (obeys_bind P Q (fun bad => bad = false));
      [ apply cfg_obeys_check_node; intros ?; reflexivity
      | intros ? ->; cbv beta iota
      | intros [|] ?; [by apply harmless_ret|done]
      | intros [|]; auto ] ].

Ltac cfg_bound :=
  repeat first
    [ by apply bounded_ret
    | apply (bounded_seq P R 0 0); [apply cfg_bounded_call; intros ?; reflexivity|intros ?]
    | apply (bounded_bind P R 0 0 (fun bad => bad = false));
      [ apply cfg_bounded_check_node; intros ?; reflexivity
      | intros ? ->; cbv beta iota
      | by intros [|] ?
      | intros [|]; auto ] ].

Ltac cfg_yield :=
  repeat first
    [ by apply yields_ret
    | apply yields_bind; intros ?
    | match goal with |- yields _ (if ?b then _ else _) => destruct b end ].

Lemma harmless_except_Exception e h :
  except_Exception e = Some h -> harmless Q (fun r => r = None) h.
Proof. intros [= <-]. by apply harmless_ret. Qed.

Lemma obeys_configure width height :
  obeys P Q (fun r => r = None) (configure_camera_for_image_injection width height).
Proof.
  apply obeys_try_except; [|apply harmless_except_Exception]. cfg_obey.
Qed.

Lemma bounded_configure width height :
  bounded P R 0 (fun r => r = None) (configure_camera_for_image_injection width height).
Proof.
  apply bounded_try_except; [|by intros e h [= <-]]. cfg_bound.
Qed.

Lemma yields_configure width height :
  yields (fun r => r <> Some true) (configure_camera_for_image_injection width height).
Proof.
  apply yields_try_except; [|intros e h [= <-]; by apply yields_ret]. cfg_yield.
Qed.

Lemma configure_returns width height w t :
  exists r, snd (configure_camera_for_image_injection width height w t) = inr r.
Proof.
  unfold configure_camera_for_image_injection, try_except.
  match goal with |- context [match ?m w t with _ => _ end] => destruct (m w t) as [t' [e|r]] end;
    simpl; eauto.
Qed.

Lemma quiet_config_failed d :
  quiet P d <-> Forall (fun e => config_failed e = false) d.
Proof.
  unfold quiet, P. apply Forall_proper; [|done].
  intros e. by destruct (config_failed e).
Qed.

Lemma free_node_set d :
  free Q d <-> Forall (fun e => is_node_set e = false) d.
Proof.
  unfold free, Q. apply Forall_proper; [|done].
  intros e. by destruct (is_node_set e).
Qed.

(** [configure_camera_for_image_injection] returns [None] when every
    step succeeds and [False] otherwise, never raises, and sets no node
    after a failed check or an exception. *)
Lemma configure_camera_for_image_injection_spec width height w t :
  exists d r,
    configure_camera_for_image_injection width height w t = (t ++ d, inr r) /\
    (r = None \/ r = Some false) /\
    (r = None <-> Forall (fun e => config_failed e = false) d) /\
    (forall d1 e d2, d = d1 ++ e :: d2 -> config_failed e = true ->
                     Forall (fun e' => is_node_set e' = false) d2).
Proof.
  destruct (obeys_configure width height w t) as (d & H1 & H2 & H3).
  destruct (bounded_configure width height w t) as (d' & H1' & _ & H3').
  assert (d' = d) as -> by (rewrite H1 in H1'; by apply app_inv_head in H1').
  destruct (configure_returns width height w t) as [r Hr].
  pose proof (yields_configure width height w t r Hr) as Hy.
  exists d, r. split; [|split; [|split]].
  - destruct (configure_camera_for_image_injection _ _ w t) as [t' r'].
    simpl in *. by subst.
  - destruct r as [[|]|]; auto. done.
  - rewrite <- quiet_config_failed. split.
    + intros ->. by apply (H3 None).
    + intros Hq. destruct (H3' Hq) as (_ & a & Ha & ->). congruence.
  - intros d1 e d2 Hd He. apply free_node_set.
    by apply (proj1 (guarded_spec P Q d) H2 d1 e d2).
Qed.

(** The same discipline holds for the calls that
    [disable_camera_image_injection] makes: no node is set after a failed
    check or an exception. *)
Lemma disable_camera_image_injection_guarded w t :
  exists d,
    fst (disable_camera_image_injection w t) = t ++ d /\
    forall d1 e d2, d = d1 ++ e :: d2 -> config_failed e = true ->
                    Forall (fun e' => is_node_set e' = false) d2.
Proof.
  assert (exists d, fst (disable_camera_image_injection w t) = t ++ d /\ guarded P Q d)
    as (d & H1 & H2).
  { apply (guarded_finally_return P Q (fun r => r = None)).
    - apply obeys_try_except; [|apply harmless_except_Exception]. cfg_obey.
    - intros w' t'. exists [Ev DeInit (w' t' unit DeInit)].
      unfold bind, call. split; [by destruct (w' t' unit DeInit)|].
      repeat constructor. unfold Q. simpl. discriminate. }
  exists d. split; [exact H1|].
  intros d1 e d2 Hd He. apply free_node_set.
  by apply (proj1 (guarded_spec P Q d) H2 d1 e d2).
Qed.

(** Whatever happened, [disable_camera_image_injection] returns [True]:
    the [return True] of its [finally] clause replaces every
    [return False]. *)
Lemma disable_camera_image_injection_always_True w t r :
  snd (disable_camera_image_injection w t) = inr r -> r = Some true.
Proof.
  unfold disable_camera_image_injection, finally_return, bind, call.
  match goal with |- context [w ?t' unit DeInit] => destruct (w t' unit DeInit) end;
    simpl; congruence.
Qed.

(** C7, at a failing input.  On a camera whose register map lacks the
    node [TestPatternGeneratorSelector], the availability check of
    [disable_camera_image_injection] fails, no node is set, and the
    routine still returns [True]. *)
Theorem disable_camera_image_injection_failed_check_returns_True :
  disable_camera_image_injection
    (Worlds.camera_without "TestPatternGeneratorSelector"
       (Worlds.camera [] 1 FileOperationStatus_Success)) [] =
  ([Ev Init (inr tt); Ev GetNodeMap (inr tt);
    Ev (GetNode "TestPatternGeneratorSelector") (inr tt);
    Ev (IsAvailable (NodeByName "TestPatternGeneratorSelector")) (inr false);
    Ev DeInit (inr tt)],
   inr (Some true)).
Proof. reflexivity. Qed.

(** On the same camera [configure_camera_for_image_injection] reports
    the failure. *)
Example configure_camera_for_image_injection_failed_check :
  snd (configure_camera_for_image_injection 1440 1080
         (Worlds.camera_without "TestPatternGeneratorSelector"
            (Worlds.camera [] 1 FileOperationStatus_Success)) []) =
  inr (Some false).
Proof. reflexivity. Qed.

Lemma yields_inject_mono8_image img path :
  yields (fun r => r <> Some true) (inject_mono8_image img path).
Proof.
  unfold inject_mono8_image.
  apply yields_bind. intros result. destruct (negb result); [by apply yields_ret|].
  do 4 (apply yields_bind; intros ?).
  apply yields_configure.
Qed.

(** C8.  [inject_mono8_image] never returns [True]: what it returns on
    the path that reaches the end is the result of
    [configure_camera_for_image_injection], and that routine always
    returns, with [None] exactly when every step of the configuration
    succeeded and [False] otherwise (a failed check or an exception); the
    only other value it returns is the [False] of its first test. *)
Theorem inject_mono8_image_never_True img path w t :
  snd (inject_mono8_image img path w t) <> inr (Some true) /\
  forall width height w' t',
  exists d r,
    configure_camera_for_image_injection width height w' t' = (t' ++ d, inr r) /\
    (r = None \/ r = Some false) /\
    (r = None <-> Forall (fun e => config_failed e = false) d).
Proof.
  split.
  - intros Hr. by apply (yields_inject_mono8_image img path w t (Some true)).
  - intros width height w' t'.
    destruct (configure_camera_for_image_injection_spec width height w' t')
      as (d & r & H1 & H2 & H3 & _).
    eauto.
Qed.

(** With an upload and a configuration that both succeed the caller gets
    [None]. *)
Example inject_mono8_image_success_is_None :
  snd (inject_mono8_image {| shape := [2; 2]; data := [0; 1; 128; 255] |} "temp.raw"
         (Worlds.camera Worlds.five_bytes 2 FileOperationStatus_Success) []) =
  inr None.
Proof. vm_compute. reflexivity. Qed.

End Configuration.

(** ** Bounding boxes *)

Section BoundingBoxFacts.
Import Spin Camera.
Variable truediv : Z -> Z -> Q.

Local Open Scope Q_scope.

Lemma clip_unit x : 0 <= clip x 0 1 <= 1.
Proof.
  unfold clip. split.
  - apply Q.min_glb; [apply Q.le_max_r|done].
  - apply Q.le_min_r.
Qed.

Local Close Scope Q_scope.

Local Abbreviation describes := (Camera.describes truediv).

Lemma describes_in_unit_square r c e b : describes r c e b -> in_unit_square e.
Proof.
  intros (_ & _ & _ & H1 & H2 & H3 & H4). unfold in_unit_square.
  rewrite H1, H2, H3, H4. repeat split; apply clip_unit.
Qed.

Lemma boxes_loop_spec r c boxes acc result :
  boxes_loop truediv r c boxes acc = inr result ->
  exists new,
    result = acc ++ new /\
    Forall2 (describes r c) new
            (filter (fun b => is_rectangle (boxType b) = true) boxes).
Proof.
  revert acc. induction boxes as [|b rest IH]; intros acc Hrun; simpl in Hrun.
  - injection Hrun as <-. exists []. by rewrite app_nil_r.
  - destruct (is_rectangle (boxType b)) eqn:Hb; simpl in Hrun.
    + unfold normalised in Hrun.
      destruct (c =? 0); [done|]. destruct (r =? 0); [done|].
      destruct (IH _ Hrun) as (new & -> & Hnew).
      eexists (_ :: new). rewrite <- app_assoc. split; [done|].
      rewrite filter_cons_True by done. constructor; [|done].
      unfold Camera.describes. simpl. repeat split.
      by destruct (boxType b).
    + destruct (IH _ Hrun) as (new & -> & Hnew).
      exists new. split; [done|].
      rewrite filter_cons_False by (rewrite Hb; done). done.
Qed.

(** C10.  When [get_bounding_box_results_from_image] returns, its
    entries are, in order, exactly the rectangle-type boxes of the image
    (a box of another type contributes nothing), each with the class and
    confidence of its box, and each of the four coordinates is the corner
    coordinate divided by the number of columns or rows and clipped, so it
    lies in the closed interval [0, 1]. *)
Theorem bounding_box_results_rectangles_clipped ndarr_shape boxes result :
  get_bounding_box_results_from_image truediv ndarr_shape boxes = inr result ->
  exists r c,
    ndarr_shape = [r; c] /\
    Forall2 (describes r c) result
            (filter (fun b => is_rectangle (boxType b) = true) boxes) /\
    Forall in_unit_square result.
Proof.
  unfold get_bounding_box_results_from_image.
  destruct ndarr_shape as [|r [|c [|? ?]]]; try done.
  intros Hrun. destruct (boxes_loop_spec r c boxes [] result Hrun) as (new & -> & Hnew).
  exists r, c. simpl. split; [done|]. split; [done|].
  clear Hrun. induction Hnew as [|e b new bs He _ IH]; constructor; [|done].
  by apply (describes_in_unit_square r c e b).
Qed.

End BoundingBoxFacts.

Section BoundingBoxRuns.
Import Spin Camera Worlds.

Lemma bounding_box_results_rectangles_clipped_witness :
  exists r c,
    [100; 200] = [r; c] /\
    Forall2 (describes exact_div r c)
      [ {| e_classId := 2; e_confidence := 1 # 2;
           e_x1 := clip (exact_div (-5) 200) 0 1; e_y1 := clip (exact_div 50 100) 0 1;
           e_x2 := clip (exact_div 300 200) 0 1; e_y2 := clip (exact_div 100 100) 0 1 |} ]
      (filter (fun b => is_rectangle (boxType b) = true) two_boxes) /\
    Forall in_unit_square
      [ {| e_classId := 2; e_confidence := 1 # 2;
           e_x1 := clip (exact_div (-5) 200) 0 1; e_y1 := clip (exact_div 50 100) 0 1;
           e_x2 := clip (exact_div 300 200) 0 1; e_y2 := clip (exact_div 100 100) 0 1 |} ].
Proof.
  apply (bounding_box_results_rectangles_clipped exact_div [100; 200] two_boxes).
  reflexivity.
Defined.

End BoundingBoxRuns.

(** ** Saving a frame under a label key (both display loops) *)

Section SaveLoop.
Import Spin Display.

Lemma string_app_assoc (s1 s2 s3 : string) :
  (s1 +:+ s2) +:+ s3 = s1 +:+ s2 +:+ s3.
Proof.
  induction s1 as [|a s1 IH]; [done|].
  change (String a ((s1 +:+ s2) +:+ s3) = String a (s1 +:+ s2 +:+ s3)).
  by rewrite IH.
Qed.

Lemma ord_single s : single_char s -> exists code, ord s = inr code.
Proof. intros [a ->]. simpl. eauto. Qed.

Lemma ord_inj s1 s2 code : ord s1 = inr code -> ord s2 = inr code -> s1 = s2.
Proof.
  destruct s1 as [|a1 [|? ?]], s2 as [|a2 [|? ?]]; simpl; try done.
  intros [= <-] [= H]. apply Nat2Z.inj in H.
  f_equal. rewrite <- (ascii_nat_embedding a1), <- (ascii_nat_embedding a2).
  by rewrite H.
Qed.

(** No label has the code of the key: nothing is written. *)
Lemma save_loop_no_match c img now lame keys :
  Forall (fun k => ord k <> inr lame) keys ->
  fst (save_loop c img now lame keys) = [] /\
  (Forall single_char keys -> snd (save_loop c img now lame keys) = None).
Proof.
  induction 1 as [|k keys Hk _ IH]; simpl; [done|].
  destruct (ord k) as [e|code] eqn:Hord.
  - split; [done|]. intros Hs. inversion Hs as [|? ? [a ->] _]; subst. done.
  - destruct (Z.eqb_spec lame code) as [->|Hne]; [done|].
    destruct IH as [IH1 IH2]. split; [done|].
    intros Hs. inversion Hs; subst. auto.
Qed.

(** One label has the code of the key: the frame is written once, into
    that label's folder, under the time stamp and the extension. *)
Lemma save_loop_match c img now lame keys1 a_val keys2 folder :
  NoDup (keys1 ++ a_val :: keys2) ->
  Forall single_char (keys1 ++ a_val :: keys2) ->
  ord a_val = inr lame ->
  FOLDERS c !! a_val = Some folder ->
  save_loop c img now lame (keys1 ++ a_val :: keys2) =
  ([Imwrite (folder +:+ "/" +:+ now +:+ "." +:+ EXTENSION c) img], None).
Proof.
  intros Hnd Hs Hord Hfolder.
  assert (forall k, k ∈ keys1 ++ a_val :: keys2 -> k <> a_val -> ord k <> inr lame)
    as Hother.
  { intros k _ Hne Hk. apply Hne. by apply (ord_inj k a_val lame). }
  apply NoDup_app in Hnd as (Hnd1 & Hnot1 & Hnd2).
  apply NoDup_cons in Hnd2 as [Hnot2 _].
  apply Forall_app in Hs as [Hs1 Hs2]. inversion Hs2 as [|? ? _ Hs2']; subst.
  assert (Forall (fun k => ord k <> inr lame) keys2) as Hno2.
  { apply Forall_forall. intros k Hk. apply Hother; [set_solver|].
    intros ->. done. }
  assert (Forall (fun k => ord k <> inr lame) keys1) as Hno1.
  { apply Forall_forall. intros k Hk. apply Hother; [set_solver|].
    intros ->. apply (Hnot1 a_val Hk). by left. }
  clear Hother Hnot1 Hnd1.
  induction Hno1 as [|k keys1 Hk _ IH]; simpl.
  - rewrite Hord, Z.eqb_refl, Hfolder.
    destruct (save_loop_no_match c img now lame keys2 Hno2) as [H1 H2].
    specialize (H2 Hs2').
    destruct (save_loop c img now lame keys2) as [cmds e]. simpl in *. by subst.
  - inversion Hs1 as [|? ? [a ->] Hs1']; subst. simpl in Hk |- *.
    destruct (Z.eqb_spec lame (Z.of_nat (nat_of_ascii a))) as [->|Hne]; [done|].
    by apply IH.
Qed.

Lemma folders_of_other dirsep root (labels : list (string * string))
    (acc : gmap string string) k :
  k ∉ (fst <$> labels) ->
  fold_left (fun folders '(each, name) => <[each := root +:+ dirsep +:+ name]> folders)
            labels acc !! k = acc !! k.
Proof.
  revert acc. induction labels as [|[each name] labels IH]; intros acc Hk; [done|].
  rewrite fmap_cons in Hk. apply not_elem_of_cons in Hk as [Hne Hk].
  simpl in *. rewrite IH by done.
  by apply lookup_insert_ne.
Qed.

(** After [prepare_folders_and_options] the folder of a label is the root
    folder, the separator and the label's name. *)
Lemma folders_of_lookup dirsep root labels a_val name :
  NoDup (fst <$> labels) -> (a_val, name) ∈ labels ->
  folders_of dirsep root labels !! a_val = Some (root +:+ dirsep +:+ name).
Proof.
  unfold folders_of. generalize (∅ : gmap string string).
  induction labels as [|[each name'] labels IH]; intros acc Hnd Hin.
  - by apply elem_of_nil in Hin.
  - simpl in Hnd. apply NoDup_cons in Hnd as [Hnot Hnd].
    apply elem_of_cons in Hin as [[= <- <-]|Hin]; simpl.
    + rewrite folders_of_other by done. apply lookup_insert_eq.
    + by apply IH.
Qed.

Lemma folders_of_range dirsep root labels k v :
  folders_of dirsep root labels !! k = Some v ->
  exists name, v = root +:+ dirsep +:+ name.
Proof.
  unfold folders_of.
  assert (forall acc : gmap string string,
            (forall k v, acc !! k = Some v -> exists name, v = root +:+ dirsep +:+ name) ->
            fold_left (fun folders '(each, name) => <[each := root +:+ dirsep +:+ name]> folders)
                      labels acc !! k = Some v ->
            exists name, v = root +:+ dirsep +:+ name) as Hgen.
  { induction labels as [|[each name] labels IH]; intros acc Hacc Hv; simpl in Hv.
    - by apply (Hacc k v).
    - apply (IH (<[each := root +:+ dirsep +:+ name]> acc)); [|done].
      intros k' v' Hk'. destruct (decide (each = k')) as [->|Hne].
      + rewrite lookup_insert_eq in Hk'. injection Hk' as <-. eauto.
      + rewrite lookup_insert_ne in Hk' by done. by apply (Hacc k' v'). }
  apply Hgen. intros k' v' Hk'. by rewrite lookup_empty in Hk'.
Qed.

(** Whatever the key handling writes goes into the folder of a label. *)
Lemma save_loop_commands c img now lame keys cmd :
  cmd ∈ fst (save_loop c img now lame keys) ->
  exists k folder,
    FOLDERS c !! k = Some folder /\
    cmd = Imwrite (folder +:+ "/" +:+ now +:+ "." +:+ EXTENSION c) img.
Proof.
  induction keys as [|k keys IH]; simpl; [by intros ?%elem_of_nil|].
  destruct (ord k) as [e|code]; [by intros ?%elem_of_nil|].
  destruct (lame =? code); [|done].
  destruct (FOLDERS c !! k) as [folder|] eqn:Hfolder; [|by intros ?%elem_of_nil].
  destruct (save_loop c img now lame keys) as [cmds e]. simpl in *.
  intros [->|Hin]%elem_of_cons; eauto.
Qed.

Lemma string_app_has_char s1 a s2 :
  In a (list_ascii_of_string (s1 +:+ String a s2)).
Proof.
  induction s1 as [|b s1 IH]; [by left|].
  change (In a (b :: list_ascii_of_string (s1 +:+ String a s2))). by right.
Qed.

(** A file in a label folder is never [<root>/food_status.png], with the
    separator of Linux and macOS or that of Windows. *)
Lemma label_path_not_food_status root dirsep name rest :
  dirsep = "/" \/ dirsep = "\" ->
  (root +:+ dirsep +:+ name) +:+ "/" +:+ rest <> root +:+ "/food_status.png".
Proof.
  intros Hsep Heq. rewrite !string_app_assoc in Heq.
  apply (inj (String.append root)) in Heq.
  destruct Hsep as [-> | ->].
  - change (String "/"%char (name +:+ "/" +:+ rest) =
            String "/"%char "food_status.png") in Heq.
    injection Heq as Heq.
    pose proof (string_app_has_char name "/"%char rest) as Hin.
    change (name +:+ String "/"%char rest) with (name +:+ "/" +:+ rest) in Hin.
    rewrite Heq in Hin. simpl in Hin.
    repeat (destruct Hin as [Hin|Hin]; [discriminate|]). done.
  - change (String "\"%char (name +:+ "/" +:+ rest) =
            String "/"%char "food_status.png") in Heq.
    discriminate.
Qed.

End SaveLoop.

(** ** The keyboard-driven loop of DataHandler.py *)

Section DataHandlerFacts.
Import Spin Display DataHandler Worlds.

Lemma elem_of_fst_split (labels : list (string * string)) a_val name :
  (a_val, name) ∈ labels ->
  exists keys1 keys2, fst <$> labels = keys1 ++ a_val :: keys2.
Proof.
  intros Hin. apply list_elem_of_split in Hin as (l1 & l2 & ->).
  exists (fst <$> l1), (fst <$> l2). by rewrite fmap_app.
Qed.

(** Every pass shows the annotated, resized image and hands the frame as
    it came from the camera to the key dispatch. *)
Lemma loop_body_dispatch c enable dim i :
  loop_body c enable dim i = ([], Raise KeyError) \/
  exists displayed_image,
    loop_body c enable dim i =
    (Imshow "Camera Stream" displayed_image
       :: fst (dispatch c (Frame (frame i)) (now i) (lame i)),
     snd (dispatch c (Frame (frame i)) (now i) (lame i))).
Proof.
  unfold loop_body, inference_overlay.
  destruct enable.
  - destruct (inference_info i) as [[k q] time].
    destruct (INFERENCE_LABELS c !! str k); [|by left].
    right. eexists. by destruct (dispatch _ _ _ _).
  - right. eexists. by destruct (dispatch _ _ _ _).
Qed.

(** Every pass hands the key to the dispatch, unless the inference overlay
    raises [KeyError] for a class without a label. *)
Lemma loop_body_dispatch_cases c enable dim i :
  (enable = true -> INFERENCE_LABELS c !! str (inference_info i).1.1 = None ->
   loop_body c enable dim i = ([], Raise KeyError)) /\
  (enable = false \/ is_Some (INFERENCE_LABELS c !! str (inference_info i).1.1) ->
   exists displayed_image,
     loop_body c enable dim i =
     (Imshow "Camera Stream" displayed_image
        :: fst (dispatch c (Frame (frame i)) (now i) (lame i)),
      snd (dispatch c (Frame (frame i)) (now i) (lame i)))).
Proof.
  unfold loop_body, inference_overlay.
  destruct (inference_info i) as [[k q] time]. simpl.
  split.
  - intros -> ->. done.
  - intros Hok. destruct enable.
    + destruct Hok as [|[label ->]]; [done|].
      eexists. by destruct (dispatch _ _ _ _).
    + eexists. by destruct (dispatch _ _ _ _).
Qed.

(** C5.  The key returned by [waitKey] is dispatched by the first case
    that applies: Escape (27) leaves the loop; F1 (190) posts ["ON"] and
    F2 (191) posts ["OFF"] to the home-automation endpoint and the loop
    continues; no key (-1) does nothing; for any other key, the key of a
    configured label character writes the frame as it came from the
    camera into that label's folder under the time-stamped file name, and
    a key that is no label character causes no save and no post.  Every
    pass of the loop shows the image and then does exactly what this
    dispatch does for its key, on the frame as it came from the camera;
    the one pass that does not reach the dispatch is the pass whose
    inference overlay raises [KeyError], with inference displayed and a
    class that has no label. *)
Theorem dispatch_cases c img now lame :
  (lame = 27 -> dispatch c img now lame = ([], Break)) /\
  (lame = 190 -> dispatch c img now lame = ([Post url "ON"], Continue tt)) /\
  (lame = 191 -> dispatch c img now lame = ([Post url "OFF"], Continue tt)) /\
  (lame = -1 -> dispatch c img now lame = ([], Continue tt)) /\
  (lame <> 27 -> lame <> 190 -> lame <> 191 ->
   (forall a_val name,
      NoDup (fst <$> LABELS c) -> Forall single_char (fst <$> LABELS c) ->
      FOLDERS c = folders_of "/" (ROOT_FOLDER c) (LABELS c) ->
      (a_val, name) ∈ LABELS c -> ord a_val = inr lame ->
      dispatch c img now lame =
      ([Imwrite (ROOT_FOLDER c +:+ "/" +:+ name +:+ "/" +:+ now +:+ "." +:+ EXTENSION c)
                img],
       Continue tt)) /\
   (Forall (fun k => ord k <> inr lame) (fst <$> LABELS c) ->
    fst (dispatch c img now lame) = [] /\
    (Forall single_char (fst <$> LABELS c) ->
     dispatch c img now lame = ([], Continue tt)))) /\
  (forall enable dim i,
     img = Frame (frame i) -> now = Display.now i -> lame = Display.lame i ->
     (enable = true -> INFERENCE_LABELS c !! str (inference_info i).1.1 = None ->
      loop_body c enable dim i = ([], Raise KeyError)) /\
     (enable = false \/ is_Some (INFERENCE_LABELS c !! str (inference_info i).1.1) ->
      exists displayed_image,
        loop_body c enable dim i =
        (Imshow "Camera Stream" displayed_image :: fst (dispatch c img now lame),
         snd (dispatch c img now lame)))).
Proof.
  split; [by intros ->|]. split; [by intros ->|].
  split; [by intros ->|]. split; [by intros ->|].
  split; [|intros enable dim i -> -> ->; apply loop_body_dispatch_cases].
  intros H27 H190 H191.
  assert (dispatch c img now lame =
          if lame =? -1 then ([], Continue tt)
          else match save_loop c img now lame (fst <$> LABELS c) with
               | (cmds, Some e) => (cmds, Raise e)
               | (cmds, None) => (cmds, Continue tt)
               end) as ->.
  { unfold dispatch.
    destruct (Z.eqb_spec lame 27); [done|].
    destruct (Z.eqb_spec lame 190); [done|].
    by destruct (Z.eqb_spec lame 191). }
  split.
  - intros a_val name Hnd Hs Hfolders Hin Hord.
    assert (0 <= lame) as Hpos.
    { destruct a_val as [|a [|? ?]]; simpl in Hord; try done.
      injection Hord as <-. lia. }
    destruct (Z.eqb_spec lame (-1)); [lia|].
    destruct (elem_of_fst_split _ _ _ Hin) as (keys1 & keys2 & Hkeys).
    rewrite Hkeys in *.
    rewrite (save_loop_match c img now lame keys1 a_val keys2
               (ROOT_FOLDER c +:+ "/" +:+ name)); try done.
    + by rewrite !string_app_assoc.
    + rewrite Hfolders. apply folders_of_lookup; [|done]. by rewrite Hkeys.
  - intros Hno.
    destruct (save_loop_no_match c img now lame _ Hno) as [Hcmds Hnone].
    destruct (Z.eqb_spec lame (-1)); [done|].
    split.
    + by destruct (save_loop _ _ _ _ _) as [cmds [e|]].
    + intros Hs. specialize (Hnone Hs).
      destruct (save_loop _ _ _ _ _) as [cmds [e|]]; simpl in *; [done|by subst].
Qed.

Lemma dispatch_cases_witness :
  dispatch two_labels a_frame "20240131_120000" 50 =
  ([Imwrite "data/full/20240131_120000.png" a_frame], Continue tt).
Proof.
  destruct (dispatch_cases two_labels a_frame "20240131_120000" 50)
    as (_ & _ & _ & _ & H & _).
  destruct H as [H _]; [lia|lia|lia|].
  apply (H "2" "full").
  - apply (bool_decide_unpack _). vm_compute. exact I.
  - repeat constructor; eexists; reflexivity.
  - reflexivity.
  - apply (bool_decide_unpack _). vm_compute. exact I.
  - reflexivity.
Defined.

(** A label that is the Escape character is never reached: Escape is
    tested first. *)
Example dispatch_escape_label :
  dispatch (prepare_folders_and_options "/"
              {| LABELS := [(String (ascii_of_nat 27) EmptyString, "esc")];
                 FOLDERS := ∅; ROOT_FOLDER := "data"; EXTENSION := "png";
                 INFERENCE_LABELS := ∅; CONFIDENCE := 1 # 2; DELAY_INTERVAL := 2 |})
           a_frame "20240131_120000" 27 = ([], Break).
Proof. reflexivity. Qed.

End DataHandlerFacts.

(** ** The classification filter of food_monitor.py *)

Section FoodMonitorFacts.
Import Spin Display FoodMonitor Worlds.

Lemma save_loop_exception c img now lame keys e :
  snd (save_loop c img now lame keys) = Some e -> e = TypeError \/ e = KeyError.
Proof.
  induction keys as [|k keys IH]; simpl; [done|].
  destruct (ord k) as [e'|code] eqn:Hord.
  - destruct k as [|a [|? ?]]; simpl in Hord; simplify_eq; intros [= <-]; auto.
  - destruct (lame =? code); [|done].
    destruct (FOLDERS c !! k); [|intros [= <-]; auto].
    by destruct (save_loop c img now lame keys).
Qed.

Lemma dispatch_exception c img now lame st cmds e :
  dispatch c img now lame st = (cmds, Raise e) -> e = TypeError \/ e = KeyError.
Proof.
  unfold dispatch. destruct (lame =? 27); [done|]. destruct (lame =? -1); [done|].
  pose proof (save_loop_exception c img now lame (fst <$> LABELS c)) as H.
  destruct (save_loop _ _ _ _ _) as [cmds' [e'|]]; [|done].
  intros [= _ <-]. by apply H.
Qed.

(** The filter block once [cls] and [conf] are bound and the label of the
    class is known. *)
Lemma food_status_bound c img prev n k q label :
  INFERENCE_LABELS c !! str k = Some label ->
  let st := {| previous_food_status := prev; counter := n;
               cls := Some k; conf := Some q |} in
  let differs := k <> prev /\ (CONFIDENCE c < q)%Q in
  (differs -> DELAY_INTERVAL c < n + 1 ->
   food_status c img st =
   ([Imwrite (ROOT_FOLDER c +:+ "/food_status.png") img],
    inr {| previous_food_status := k; counter := 0;
           cls := Some k; conf := Some q |})) /\
  (differs -> ~ DELAY_INTERVAL c < n + 1 ->
   food_status c img st =
   ([], inr {| previous_food_status := prev; counter := n + 1;
               cls := Some k; conf := Some q |})) /\
  (~ differs -> food_status c img st = ([], inr st)).
Proof.
  intros Hlabel st differs. subst st differs.
  unfold food_status, differs_above_threshold. cbn.
  destruct (k =? prev) eqn:Heq; cbn.
  - rewrite Heq. cbn. apply Z.eqb_eq in Heq.
    split; [|split]; [by intros [? _]..|done].
  - destruct (Qlt_le_dec (CONFIDENCE c) q) as [Hlt|Hle]; cbn;
      rewrite Heq; cbn; apply Z.eqb_neq in Heq.
    +
      destruct (Qlt_le_dec (CONFIDENCE c) q) as [_|Hle];
        [|by apply Qle_not_lt in Hle].
      cbn. rewrite Hlabel.
      destruct (Z.gtb_spec (n + 1) (DELAY_INTERVAL c)); cbn.
      * split; [done|]. split; [intros _ Hn; lia|]. intros Hd. by destruct Hd.
      * split; [intros _ Hn; lia|]. split; [done|]. intros Hd. by destruct Hd.
    + destruct (Qlt_le_dec (CONFIDENCE c) q) as [Hlt|_];
        [by apply Qle_not_lt in Hle|].
      cbn. split; [|split]; [intros [_ Hlt]; by apply Qle_not_lt in Hle..|done].
Qed.

(** One pass with camera inference enabled: what the filter writes and
    how it leaves the locals. *)
Lemma loop_body_food_status c dim st i k q time label :
  inference_info i = (k, q, time) ->
  INFERENCE_LABELS c !! str k = Some label ->
  let img := Frame (frame i) in
  let differs := k <> previous_food_status st /\ (CONFIDENCE c < q)%Q in
  let exceeds := DELAY_INTERVAL c < counter st + 1 in
  exists cmds st',
    loop_body c true dim st i =
      (cmds ++ Imshow "Camera Stream" (PutInference (Resized img dim) label q)
            :: fst (dispatch c img (now i) (lame i) st'),
       snd (dispatch c img (now i) (lame i) st')) /\
    (Imwrite (ROOT_FOLDER c +:+ "/food_status.png") img ∈ cmds <-> differs /\ exceeds) /\
    (differs /\ exceeds ->
     cmds = [Imwrite (ROOT_FOLDER c +:+ "/food_status.png") img] /\
     previous_food_status st' = k /\ counter st' = 0) /\
    (~ (differs /\ exceeds) ->
     cmds = [] /\ previous_food_status st' = previous_food_status st) /\
    (differs -> ~ exceeds -> counter st' = counter st + 1) /\
    (~ differs -> counter st' = counter st).
Proof.
  intros Hinfo Hlabel img differs exceeds.
  destruct (food_status_bound c img (previous_food_status st) (counter st) k q label
              Hlabel) as (Hsave & Hcount & Hsame).
  fold differs in Hsave, Hcount, Hsame. fold exceeds in Hsave, Hcount.
  assert (forall cmds st',
    food_status c img
      {| previous_food_status := previous_food_status st; counter := counter st;
         cls := Some k; conf := Some q |} = (cmds, inr st') ->
    loop_body c true dim st i =
      (cmds ++ Imshow "Camera Stream" (PutInference (Resized img dim) label q)
            :: fst (dispatch c img (now i) (lame i) st'),
       snd (dispatch c img (now i) (lame i) st'))) as Hbody.
  { intros cmds st' Hfood. unfold loop_body, inference_overlay.
    rewrite Hinfo, Hlabel. fold img. rewrite Hfood.
    by destruct (dispatch c img (now i) (lame i) st'). }
  assert (differs \/ ~ differs) as [Hd|Hd].
  { unfold differs. destruct (Z.eq_dec k (previous_food_status st)) as [->|Hne].
    - right. by intros [? _].
    - destruct (Qlt_le_dec (CONFIDENCE c) q) as [Hlt|Hle]; [by left|].
      right. intros [_ Hlt]. by apply Qle_not_lt in Hle. }
  - assert (exceeds \/ ~ exceeds) as [He|He] by (unfold exceeds; lia).
    + eexists _, _. split; [apply Hbody, Hsave; done|].
      split; [|split; [done|split; [|split]]].
      * split; [done|]. intros _. by left.
      * intros Hn. by destruct Hn.
      * done.
      * done.
    + eexists _, _. split; [apply Hbody, Hcount; done|].
      split; [|split; [|split; [done|split]]].
      * split; [by intros ?%elem_of_nil|]. by intros [_ ?].
      * by intros [_ ?].
      * done.
      * done.
  - eexists _, _. split; [apply Hbody, Hsame; done|].
    split; [|split; [|split; [done|split]]].
    + split; [by intros ?%elem_of_nil|]. by intros [? _].
    + by intros [? _].
    + done.
    + done.
Qed.

Lemma dispatch_not_food_status c img now lame st dirsep :
  dirsep = "/" \/ dirsep = "\" ->
  FOLDERS c = folders_of dirsep (ROOT_FOLDER c) (LABELS c) ->
  Imwrite (ROOT_FOLDER c +:+ "/food_status.png") img
    ∉ fst (dispatch c img now lame st).
Proof.
  intros Hsep Hfolders Hin. unfold dispatch in Hin.
  destruct (lame =? 27); [by apply elem_of_nil in Hin|].
  destruct (lame =? -1); [by apply elem_of_nil in Hin|].
  assert (Imwrite (ROOT_FOLDER c +:+ "/food_status.png") img
            ∈ fst (save_loop c img now lame (fst <$> LABELS c))) as Hsave.
  { by destruct (save_loop _ _ _ _ _) as [cmds [e|]]. }
  apply save_loop_commands in Hsave as (k & folder & Hk & Heq).
  rewrite Hfolders in Hk. apply folders_of_range in Hk as [name ->].
  injection Heq as Heq. symmetry in Heq.
  by apply label_path_not_food_status in Heq.
Qed.

Lemma food_status_exception c img prev n k q cmds e :
  food_status c img {| previous_food_status := prev; counter := n;
                       cls := Some k; conf := Some q |} = (cmds, inl e) ->
  e = KeyError.
Proof.
  unfold food_status, differs_above_threshold. cbn.
  destruct (k =? prev) eqn:Heq; cbn; rewrite ?Heq; cbn; [done|].
  repeat match goal with
         | |- context [Qlt_le_dec ?a ?b] => destruct (Qlt_le_dec a b); cbn; rewrite ?Heq; cbn
         | |- context [?x >? ?y] => destruct (x >? y); cbn
         | |- context [INFERENCE_LABELS c !! ?s] => destruct (INFERENCE_LABELS c !! s); cbn
         end; try done; by intros [= _ <-].
Qed.

(** With camera inference enabled a pass can only fail on a class without
    a label or on a label key that is not a single character. *)
Lemma loop_body_exception c dim st i cmds e :
  loop_body c true dim st i = (cmds, Raise e) -> e = TypeError \/ e = KeyError.
Proof.
  unfold loop_body, inference_overlay.
  destruct (inference_info i) as [[k q] time].
  destruct (INFERENCE_LABELS c !! str k) as [label|]; [|intros [= _ <-]; auto].
  destruct (food_status c (Frame (frame i)) _) as [cmds1 [e1|st1]] eqn:Hfood.
  - apply food_status_exception in Hfood as ->. intros [= _ <-]. auto.
  - destruct (dispatch c (Frame (frame i)) (now i) (lame i) st1) as [cmds2 out] eqn:Hd.
    intros [= _ ->]. by apply dispatch_exception in Hd.
Qed.

(** C9.  With camera inference disabled the first pass through the loop
    raises [NameError] at the classification filter, before anything is
    written or shown, and so does every run of the loop; with camera
    inference enabled no pass raises [NameError]. *)
Theorem loop_without_inference_raises_NameError c dim :
  (forall i, loop_body c false dim initial i = ([], Raise NameError)) /\
  (forall i rest, run c false dim initial (i :: rest) = ([], Raise NameError)) /\
  (forall st i cmds, loop_body c true dim st i <> (cmds, Raise NameError)).
Proof.
  split; [done|]. split; [done|].
  intros st i cmds Hbody.
  by destruct (loop_body_exception c dim st i cmds NameError Hbody).
Qed.

End FoodMonitorFacts.

(** ** food_monitor.py as the program runs it *)

Section FoodMonitorProgram.
Import Spin Display FoodMonitor FoodMonitorSetup Worlds WorldsMore.

(** The call of [setup_inference_camera_defaults] with the four keywords
    raises [TypeError], whatever its body would do. *)
Lemma try_setup_raises arguments body exposure :
  exists e, try_setup arguments body exposure = inl e.
Proof.
  unfold try_setup. destruct arguments as [e|[]]; [by exists e|].
  by exists TypeError.
Qed.

Lemma enable_camera_inference_False arguments body exposure configured :
  enable_camera_inference arguments body exposure configured = false.
Proof.
  unfold enable_camera_inference. destruct configured; [|done].
  by destruct (try_setup_raises arguments body exposure) as [e ->].
Qed.

(** C4.  The filter of the food status (a frame is saved when its class
    differs from the stored status, its confidence is above the threshold
    and the count of such frames exceeds the delay interval) is never
    reached.  [do_camera_stuff] calls [setup_inference_camera_defaults] with four
    keyword arguments that the method does not take; the [TypeError] is
    caught by the bare [except:], which sets [enable_camera_inference] to
    [False].  So the flag is [False] at the loop whatever the
    configuration says, and the first pass raises [NameError] at
    [cls != previous_food_status] before anything is written or shown: no
    run writes [food_status.png].  This holds also for a first frame that
    meets the condition of the filter: with two labels and a delay interval
    of 0, a frame of class 1 (the stored status is 10) at confidence 0.9
    (the threshold is 0.5) is the first differing frame; the body of the
    loop with inference enabled would write it to [data/food_status.png],
    set the stored status to 1 and reset the counter, and the program
    raises [NameError] on it. *)
Theorem food_status_never_saved :
  (forall arguments body exposure configured,
     enable_camera_inference arguments body exposure configured = false) /\
  (forall arguments body exposure c configured dim i rest,
     do_camera_stuff arguments body exposure c configured dim (i :: rest)
     = ([], Raise NameError)) /\
  loop_body no_delay true (640, 480) initial third_differing_frame
  = ([Imwrite "data/food_status.png" a_frame;
      Imshow "Camera Stream" (PutInference (Resized a_frame (640, 480)) "full" (9 # 10))],
     Continue {| previous_food_status := 1; counter := 0;
                 cls := Some 1; conf := Some (9 # 10) |}) /\
  do_camera_stuff (inr tt) (inr tt) (inr tt) no_delay true (640, 480)
    [third_differing_frame]
  = ([], Raise NameError).
Proof.
  split; [apply enable_camera_inference_False|]. split; [|split].
  - intros arguments body exposure c configured dim i rest.
    unfold do_camera_stuff. by rewrite enable_camera_inference_False.
  - vm_compute. reflexivity.
  - vm_compute. reflexivity.
Qed.

End FoodMonitorProgram.

(** * Further properties *)

(** ** Postconditions on views *)

Section ViewFacts.
Import Spin Views Discipline.
Context {X : Type} (v : event -> option X).

Lemma view_app (d1 d2 : trace) : view v (d1 ++ d2) = view v d1 ++ view v d2.
Proof. apply omap_app. Qed.

Lemma view_singleton (e : event) :
  view v [e] = match v e with Some x => [x] | None => [] end.
Proof. reflexivity. Qed.

Lemma spost_ret {A} (Phi : A -> list X -> Prop) a : Phi a [] -> spost v Phi (ret a).
Proof.
  intros Ha w t. exists []. simpl. rewrite app_nil_r. split; [done|].
  by intros a' [= <-].
Qed.

Lemma spost_raise {A} (Phi : A -> list X -> Prop) e : spost v Phi (raise e).
Proof. intros w t. exists []. simpl. rewrite app_nil_r. split; [done|]. by intros a. Qed.

Lemma spost_call {T} (c : Call T) (Phi : T -> list X -> Prop) :
  (forall a, Phi a (view v [Ev c (inr a)])) -> spost v Phi (call c).
Proof.
  intros Hc w t. exists [Ev c (w t T c)]. simpl. split; [done|].
  intros a ->. apply Hc.
Qed.

Lemma spost_weaken {A} (Phi Phi' : A -> list X -> Prop) m :
  (forall a l, Phi a l -> Phi' a l) -> spost v Phi m -> spost v Phi' m.
Proof.
  intros Hi Hm w t. destruct (Hm w t) as (d & H1 & H2). exists d. eauto.
Qed.

Lemma spost_bind {A B} (Phi1 : A -> list X -> Prop) (Phi2 : A -> B -> list X -> Prop)
    (Phi : B -> list X -> Prop) m (f : A -> M B) :
  spost v Phi1 m ->
  (forall a, spost v (Phi2 a) (f a)) ->
  (forall a l1 b l2, Phi1 a l1 -> Phi2 a b l2 -> Phi b (l1 ++ l2)) ->
  spost v Phi (bind m f).
Proof.
  intros Hm Hf Hc w t. unfold bind.
  destruct (Hm w t) as (d & H1 & H2).
  destruct (m w t) as [t' [e|a]]; simpl in *; subst t'.
  - exists d. split; [done|]. by intros a.
  - destruct (Hf a w (t ++ d)) as (d' & H1' & H2').
    exists (d ++ d'). rewrite H1', app_assoc. split; [done|].
    intros b Hb. rewrite view_app. eapply Hc; eauto.
Qed.

(** Sequencing after a computation that adds nothing to the view. *)
Lemma spost_seq {A B} (Phi : B -> list X -> Prop) (m : M A) (f : A -> M B) :
  spost v (fun _ l => l = []) m -> (forall a, spost v Phi (f a)) ->
  spost v Phi (bind m f).
Proof.
  intros Hm Hf. apply (spost_bind (fun _ l => l = []) (fun _ => Phi)); [done|done|].
  by intros a l1 b l2 ->.
Qed.

(** The strongest postcondition of a sequence. *)
Lemma spost_bind_ex {A B} (Phi1 : A -> list X -> Prop) (Phi2 : A -> B -> list X -> Prop)
    m (f : A -> M B) :
  spost v Phi1 m ->
  (forall a, spost v (Phi2 a) (f a)) ->
  spost v (fun b l => exists a l1 l2, l = l1 ++ l2 /\ Phi1 a l1 /\ Phi2 a b l2)
        (bind m f).
Proof.
  intros Hm Hf. apply (spost_bind Phi1 Phi2); [done|done|].
  intros a l1 b l2 H1 H2. eauto 10.
Qed.

Lemma spost_try_except {A} (Phi : A -> list X -> Prop) m handler :
  spost v Phi m ->
  (forall e h, handler e = Some h -> pure h /\ yields (fun a => forall l, Phi a l) h) ->
  spost v Phi (try_except m handler).
Proof.
  intros Hm Hh w t. unfold try_except.
  destruct (Hm w t) as (d & H1 & H2).
  destruct (m w t) as [t' [e|a]]; simpl in *; subst t'.
  - destruct (handler e) as [h|] eqn:He.
    + destruct (Hh e h He) as [Hp Hy]. exists d. rewrite Hp. split; [done|].
      intros a Ha. by apply (Hy w (t ++ d)).
    + exists d. split; [done|]. by intros a.
  - exists d. split; [done|]. simpl. intros a' [= <-]. by apply H2.
Qed.

Lemma vpost_ret {A} (Psi : exn + A -> list X -> Prop) a :
  Psi (inr a) [] -> vpost v Psi (ret a).
Proof. intros Ha w t. exists []. simpl. by rewrite app_nil_r. Qed.

Lemma vpost_raise {A} (Psi : exn + A -> list X -> Prop) e :
  Psi (inl e) [] -> vpost v Psi (raise e).
Proof. intros Ha w t. exists []. simpl. by rewrite app_nil_r. Qed.

Lemma vpost_call {T} (c : Call T) (Psi : exn + T -> list X -> Prop) :
  (forall r, Psi r (view v [Ev c r])) -> vpost v Psi (call c).
Proof. intros Hc w t. exists [Ev c (w t T c)]. simpl. split; [done|]. apply Hc. Qed.

Lemma vpost_weaken {A} (Psi Psi' : exn + A -> list X -> Prop) m :
  (forall r l, Psi r l -> Psi' r l) -> vpost v Psi m -> vpost v Psi' m.
Proof.
  intros Hi Hm w t. destruct (Hm w t) as (d & H1 & H2). exists d. eauto.
Qed.

Lemma vpost_bind {A B} (Psi1 : exn + A -> list X -> Prop)
    (Psi2 : A -> exn + B -> list X -> Prop) (Psi : exn + B -> list X -> Prop)
    m (f : A -> M B) :
  vpost v Psi1 m ->
  (forall a, vpost v (Psi2 a) (f a)) ->
  (forall e l, Psi1 (inl e) l -> Psi (inl e) l) ->
  (forall a l1 r l2, Psi1 (inr a) l1 -> Psi2 a r l2 -> Psi r (l1 ++ l2)) ->
  vpost v Psi (bind m f).
Proof.
  intros Hm Hf He Hc w t. unfold bind.
  destruct (Hm w t) as (d & H1 & H2).
  destruct (m w t) as [t' [e|a]]; simpl in *; subst t'.
  - exists d. split; [done|]. by apply He.
  - destruct (Hf a w (t ++ d)) as (d' & H1' & H2').
    exists (d ++ d'). rewrite H1', app_assoc. split; [done|].
    rewrite view_app. eapply Hc; eauto.
Qed.

Lemma vpost_try_except {A} (Psi1 Psi : exn + A -> list X -> Prop) m handler :
  vpost v Psi1 m ->
  (forall a l, Psi1 (inr a) l -> Psi (inr a) l) ->
  (forall e l, Psi1 (inl e) l ->
     match handler e with
     | Some h => vpost v (fun r l' => Psi r (l ++ l')) h
     | None => Psi (inl e) l
     end) ->
  vpost v Psi (try_except m handler).
Proof.
  intros Hm Hr Hh w t. unfold try_except.
  destruct (Hm w t) as (d & H1 & H2).
  destruct (m w t) as [t' [e|a]]; simpl in *; subst t'.
  - specialize (Hh e _ H2). destruct (handler e) as [h|].
    + destruct (Hh w (t ++ d)) as (d' & H1' & H2').
      exists (d ++ d'). rewrite H1', app_assoc, view_app. done.
    + by exists d.
  - exists d. split; [done|]. by apply Hr.
Qed.

End ViewFacts.

(** ** What a successful upload does, step by step *)

Section UploadProtocol.
Import Spin FileAccess Views Discipline.
Local Open Scope spin_scope.

Local Abbreviation sp := (spost upload_step).
Local Abbreviation silent := (spost upload_step (fun _ l => l = [])).

Lemma silent_call {T} (c : Call T) :
  (forall r, upload_step (Ev c r) = None) -> silent (call c).
Proof.
  intros Hc. apply spost_call. intros a.
  by rewrite view_singleton, Hc.
Qed.

Ltac quiet_call := apply silent_call; intros ?; reflexivity.

Ltac hush :=
  unfold not_available_or_not;
  repeat first
    [ by apply spost_ret
    | apply spost_raise
    | quiet_call
    | apply spost_seq; [|intros ?]
    | match goal with
      | |- spost _ _ (if ?b then _ else _) => destruct b
      | |- spost _ _ (match ?x with _ => _ end) => destruct x
      end ].

(** Skip a step that adds nothing to the view. *)
Ltac skip := apply spost_seq; [solve [hush]|intros _].
Ltac skip_as x := apply spost_seq; [solve [hush]|intros x].

Lemma silent_status_result :
  silent (s <- call FileOperationStatus_GetValue ;;
          if negb (status_ok s) then ret false else ret true).
Proof. hush. Qed.

Lemma handler_except_SpinnakerException (Phi : bool -> list step -> Prop) e h :
  (forall l, Phi false l) ->
  except_SpinnakerException e = Some h ->
  pure h /\ yields (fun a => forall l, Phi a l) h.
Proof.
  intros HPhi He. destruct e; simplify_eq/=.
  split; [done|]. by apply yields_ret.
Qed.

(** A file operation selects its operation first; what follows adds no
    step. *)
Lemma sp_file_operation op (rest : M bool) :
  silent rest ->
  sp (fun ok l => ok = true -> l = [SSel op])
     (try_except (call (FileOperationSelector_SetValue op) ;;; rest)
                 except_SpinnakerException).
Proof.
  intros Hrest. apply spost_try_except.
  - eapply spost_weaken; [|apply spost_bind_ex; [|intros ?; apply Hrest]].
    + intros ok l (a & l1 & l2 & -> & H1 & ->) _. rewrite app_nil_r. exact H1.
    + apply spost_call. intros a. reflexivity.
  - intros e h. by apply handler_except_SpinnakerException.
Qed.

Lemma sp_open_file_to_write :
  sp (fun ok l => ok = true -> l = [SSel FileOperationSelector_Open]) open_file_to_write.
Proof. apply sp_file_operation. hush. Qed.

Lemma sp_close_file :
  sp (fun ok l => ok = true -> l = [SSel FileOperationSelector_Close]) close_file.
Proof. apply sp_file_operation. hush. Qed.

Lemma sp_execute_delete_command :
  sp (fun ok l => ok = true -> l = [SSel FileOperationSelector_Delete])
     execute_delete_command.
Proof. apply sp_file_operation. hush. Qed.

Lemma sp_execute_write_command :
  sp (fun ok l => ok = true -> l = [SSel FileOperationSelector_Write])
     execute_write_command.
Proof. apply sp_file_operation. hush. Qed.

Lemma sp_unless_raise f msg L :
  sp (fun ok l => ok = true -> l = L) f ->
  sp (fun _ l => l = L) (unless_raise f msg).
Proof.
  intros Hf. unfold unless_raise.
  apply (spost_bind _ (fun ok l => ok = true -> l = L)
           (fun ok _ l2 => ok = true /\ l2 = [])); [exact Hf| |].
  - intros [|]; simpl; [by apply spost_ret|apply spost_raise].
  - intros ok l1 [] l2 H1 [H2 ->]. rewrite app_nil_r. auto.
Qed.

Lemma sp_getitem {A} (l : list A) (i : Z) :
  0 <= i ->
  sp (fun x steps => steps = [] /\ l !! Z.to_nat i = Some x) (getitem l i).
Proof.
  intros Hi. unfold getitem.
  destruct (Z.ltb_spec i 0); [lia|]. destruct (Z.ltb_spec i 0); [lia|].
  destruct (l !! Z.to_nat i) as [x|] eqn:Hx; [by apply spost_ret|apply spost_raise].
Qed.

Lemma sp_write_loop split b total debug idx st :
  Forall (fun i => 0 <= i) idx ->
  sp (fun _ l => exists chunks,
        Forall2 (fun i c => split !! Z.to_nat i = Some c) idx chunks /\
        l = write_steps chunks)
     (write_loop split b total debug idx st).
Proof.
  intros Hidx. revert st.
  induction Hidx as [|i idx Hi _ IH]; intros [left written].
  - apply spost_ret. exists []. by split; [constructor|].
  - cbn [write_loop].
    apply (spost_bind _ (fun x steps => steps = [] /\ split !! Z.to_nat i = Some x)
             (fun x _ l2 => exists chunks,
                Forall2 (fun i c => split !! Z.to_nat i = Some c) idx chunks /\
                l2 = [SBuf x; SSel FileOperationSelector_Write] ++ write_steps chunks));
      [by apply sp_getitem| |].
    + intros x.
      apply (spost_bind _ (fun _ l => l = [SBuf x])
               (fun _ _ l2 => exists chunks,
                  Forall2 (fun i c => split !! Z.to_nat i = Some c) idx chunks /\
                  l2 = SSel FileOperationSelector_Write :: write_steps chunks)).
      * apply spost_call. intros a. reflexivity.
      * intros _. skip.
        apply (spost_bind _ (fun _ l => l = [SSel FileOperationSelector_Write])
                 (fun _ _ l2 => exists chunks,
                    Forall2 (fun i c => split !! Z.to_nat i = Some c) idx chunks /\
                    l2 = write_steps chunks)).
        -- apply sp_unless_raise, sp_execute_write_command.
        -- intros _. skip_as size_written. skip. apply IH.
        -- intros _ l1 r l2 -> (chunks & Hc & ->). eauto.
      * intros _ l1 r l2 -> (chunks & Hc & ->). eauto.
    + intros x l1 r l2 [-> Hx] (chunks & Hc & ->).
      exists (x :: chunks). split; [by constructor|done].
Qed.

Lemma lookups_take {A} (l : list A) (s n : nat) (chunks : list A) :
  Forall2 (fun i c => l !! Z.to_nat i = Some c) (Z.of_nat <$> seq s n) chunks ->
  chunks = take n (drop s l).
Proof.
  revert s chunks. induction n as [|n IH]; intros s chunks Hf; simpl in Hf.
  - by inversion Hf.
  - inversion Hf as [|? c ? cs Hc Hcs]; subst.
    rewrite Nat2Z.id in Hc.
    rewrite (drop_S _ _ _ Hc). simpl. f_equal. by apply IH.
Qed.

Lemma range_nonneg k : Forall (fun i => 0 <= i) (Py.range k).
Proof.
  unfold Py.range. apply Forall_fmap, Forall_forall. intros i _. simpl. lia.
Qed.

Lemma sp_write_file_data (file_data : list Byte.byte) debug :
  sp (fun _ l => exists b,
        l = [SLen b]
            ++ write_steps
                 (take (Z.to_nat (Chunking.write_iterations
                                    (Z.of_nat (length file_data)) b))
                       (Chunking.split_data file_data b))
            ++ [SSel FileOperationSelector_Close])
     (write_file_data file_data debug).
Proof.
  unfold write_file_data. cbv zeta.
  apply (spost_bind _ (fun b l => l = [SLen b])
           (fun b _ l2 =>
              l2 = write_steps
                     (take (Z.to_nat (Chunking.write_iterations
                                        (Z.of_nat (length file_data)) b))
                           (Chunking.split_data file_data b))
                   ++ [SSel FileOperationSelector_Close])).
  - apply spost_call. intros a. reflexivity.
  - intros b. destruct (b =? 0); [apply spost_raise|].
    apply (spost_bind _ _ (fun _ _ l2 => l2 = [SSel FileOperationSelector_Close])
             _ _ _ (sp_write_loop _ _ _ _ _ _ (range_nonneg _))).
    + intros _. apply sp_unless_raise, sp_close_file.
    + intros _ l1 r l2 (chunks & Hc & ->) ->.
      unfold Py.range in Hc. apply lookups_take in Hc. rewrite drop_0 in Hc.
      by subst chunks.
  - intros b l1 r l2 -> ->. eauto.
Qed.

(** The steps of a run of [file_access_upload_try] that returns. *)
Lemma sp_file_access_upload_try file_selector file_path debug :
  sp (fun _ l => exists file_size len file_data b,
        l = upload_steps file_size len file_data b)
     (file_access_upload_try file_selector file_path debug).
Proof.
  unfold file_access_upload_try.
  skip. skip_as unsupported. destruct unsupported; [apply spost_raise|].
  skip. skip_as bad. destruct bad; [apply spost_raise|].
  skip. skip_as bad. destruct bad; [apply spost_raise|].
  skip_as file_selector_entry. skip.
  apply (spost_bind _ (fun z l => l = [SSize z])
           (fun z _ l2 => exists len file_data b,
              upload_steps z len file_data b = SSize z :: l2)).
  - apply spost_call. intros a. reflexivity.
  - intros file_size.
    apply (spost_bind _
             (fun _ l => l = if file_size >? 0
                             then [SSel FileOperationSelector_Delete] else [])
             (fun _ _ l2 => exists len file_data b,
                l2 = [SSel FileOperationSelector_Open; SLen len; SData file_data; SLen b]
                     ++ write_steps
                          (take (Z.to_nat (Chunking.write_iterations
                                             (Z.of_nat (length file_data)) b))
                                (Chunking.split_data file_data b))
                     ++ [SSel FileOperationSelector_Close])).
    + destruct (file_size >? 0); [|by apply spost_ret].
      apply sp_unless_raise, sp_execute_delete_command.
    + intros _.
      apply (spost_bind _ (fun _ l => l = [SSel FileOperationSelector_Open])
               (fun _ _ l2 => exists len file_data b,
                  l2 = [SLen len; SData file_data; SLen b]
                       ++ write_steps
                            (take (Z.to_nat (Chunking.write_iterations
                                               (Z.of_nat (length file_data)) b))
                                  (Chunking.split_data file_data b))
                       ++ [SSel FileOperationSelector_Close])).
      * apply sp_unless_raise, sp_open_file_to_write.
      * intros _.
        apply (spost_bind _ (fun len l => l = [SLen len])
                 (fun _ _ l2 => exists file_data b,
                    l2 = [SData file_data; SLen b]
                         ++ write_steps
                              (take (Z.to_nat (Chunking.write_iterations
                                                 (Z.of_nat (length file_data)) b))
                                    (Chunking.split_data file_data b))
                         ++ [SSel FileOperationSelector_Close])).
        -- apply spost_call. intros a. reflexivity.
        -- intros len. skip_as buf.
           apply spost_seq.
           { destruct (len <? buf); [|by apply spost_ret].
             apply spost_try_except; [hush|].
             intros [] h [=]; subst h. split; [done|]. apply yields_raise. }
           intros _. skip.
           apply (spost_bind _ (fun data l => l = [SData data])
                    (fun data _ l2 => exists b,
                       l2 = [SLen b]
                            ++ write_steps
                                 (take (Z.to_nat (Chunking.write_iterations
                                                    (Z.of_nat (length data)) b))
                                       (Chunking.split_data data b))
                            ++ [SSel FileOperationSelector_Close])).
           ++ apply spost_call. intros a'. reflexivity.
           ++ intros data. apply sp_write_file_data.
           ++ intros data l1 r l2 -> (b & ->). eauto.
        -- intros len l1 r l2 -> (data & b & ->). eauto.
      * intros _ l1 r l2 -> (len & data & b & ->). eauto.
    + intros _ l1 r l2 -> (len & data & b & ->).
      exists len, data, b. reflexivity.
  - intros z l1 r l2 -> (len & data & b & Heq).
    exists z, len, data, b. by rewrite Heq.
Qed.

Lemma sp_file_access_upload file_selector file_path debug :
  sp (fun ok l => ok = true ->
        exists file_size len file_data b, l = upload_steps file_size len file_data b)
     (file_access_upload file_selector file_path debug).
Proof.
  unfold file_access_upload. apply spost_try_except.
  - apply (spost_bind _ _ (fun _ (_ : bool) l2 => l2 = [])
             _ _ _ (sp_file_access_upload_try file_selector file_path debug)).
    + intros u. by apply spost_ret.
    + intros u l1 ok l2 H1 -> _. by rewrite app_nil_r.
  - intros e h Hh. assert (h = ret false) as -> by (destruct e; by injection Hh).
    split; [done|]. by apply yields_ret.
Qed.

Lemma buffers_write_steps chunks : buffers (write_steps chunks) = chunks.
Proof. induction chunks as [|c chunks IH]; [done|]. simpl. by rewrite IH. Qed.

Lemma operations_write_steps chunks :
  operations (write_steps chunks) =
  replicate (length chunks) FileOperationSelector_Write.
Proof. induction chunks as [|c chunks IH]; [done|]. simpl. by rewrite IH. Qed.

Lemma buffers_upload_steps file_size len file_data b :
  buffers (upload_steps file_size len file_data b) =
  take (Z.to_nat (Chunking.write_iterations (Z.of_nat (length file_data)) b))
       (Chunking.split_data file_data b).
Proof.
  unfold upload_steps, buffers. rewrite !omap_app.
  fold (buffers (write_steps
    (take (Z.to_nat (Chunking.write_iterations (Z.of_nat (length file_data)) b))
          (Chunking.split_data file_data b)))).
  rewrite buffers_write_steps. destruct (file_size >? 0); simpl; by rewrite app_nil_r.
Qed.

Lemma operations_upload_steps file_size len file_data b :
  operations (upload_steps file_size len file_data b) =
  (if file_size >? 0 then [FileOperationSelector_Delete] else [])
  ++ [FileOperationSelector_Open]
  ++ replicate
       (length (take (Z.to_nat (Chunking.write_iterations
                                  (Z.of_nat (length file_data)) b))
                     (Chunking.split_data file_data b)))
       FileOperationSelector_Write
  ++ [FileOperationSelector_Close].
Proof.
  unfold upload_steps, operations. rewrite !omap_app.
  fold (operations (write_steps
    (take (Z.to_nat (Chunking.write_iterations (Z.of_nat (length file_data)) b))
          (Chunking.split_data file_data b)))).
  rewrite operations_write_steps. by destruct (file_size >? 0).
Qed.

(** With a positive buffer size the loop takes every chunk of the split
    of a non-empty file, and none of the split of an empty one. *)
Lemma written_chunks_concat (file_data : list Byte.byte) b :
  0 < b ->
  concat (take (Z.to_nat (Chunking.write_iterations (Z.of_nat (length file_data)) b))
               (Chunking.split_data file_data b)) = file_data /\
  length (take (Z.to_nat (Chunking.write_iterations (Z.of_nat (length file_data)) b))
               (Chunking.split_data file_data b)) =
  Z.to_nat (ceil_div (Z.of_nat (length file_data)) b).
Proof.
  intros Hb. rewrite write_iterations_ceil by lia.
  destruct (split_data_chunks file_data b Hb) as (Hpos & Hzero & Hconcat).
  destruct (decide (0 < Z.of_nat (length file_data))) as [Hn|Hn].
  - destruct (Hpos Hn) as (Hlen & _).
    rewrite take_ge by lia. split; [done|lia].
  - assert (file_data = []) as -> by (destruct file_data; [done|simpl in Hn; lia]).
    simpl length. change (Z.of_nat 0) with 0. rewrite ceil_div_zero. done.
Qed.


(** X2.  When [file_access_upload] returns [True] with a positive access
    length [b] for a file of [n] bytes, the file operations selected
    during the run are: a delete exactly when the camera reported a
    positive file size, one open, [ceil (n / b)] writes and one close, in
    this order. *)
Theorem file_access_upload_operations file_selector file_path debug w t t' :
  file_access_upload file_selector file_path debug w t = (t', inr true) ->
  exists d file_size len file_data b,
    t' = t ++ d /\
    view upload_step d = upload_steps file_size len file_data b /\
    (0 < b ->
     operations (view upload_step d) =
     (if file_size >? 0 then [FileOperationSelector_Delete] else [])
     ++ [FileOperationSelector_Open]
     ++ replicate (Z.to_nat (ceil_div (Z.of_nat (length file_data)) b))
                  FileOperationSelector_Write
     ++ [FileOperationSelector_Close]).
Proof.
  intros Hrun.
  destruct (sp_file_access_upload file_selector file_path debug w t) as (d & H1 & H2).
  rewrite Hrun in H1, H2. simpl in H1, H2.
  destruct (H2 true eq_refl eq_refl) as (file_size & len & file_data & b & Hsteps).
  exists d, file_size, len, file_data, b. split; [done|]. split; [done|].
  intros Hb. rewrite Hsteps, operations_upload_steps.
  by destruct (written_chunks_concat file_data b Hb) as [_ ->].
Qed.


Lemma file_access_upload_operations_witness :
  exists d file_size len file_data b,
    fst (file_access_upload "InjectedImage" "temp.raw" false
           (Worlds.camera Worlds.five_bytes 2 FileOperationStatus_Success) []) = [] ++ d /\
    view upload_step d = upload_steps file_size len file_data b /\
    (0 < b ->
     operations (view upload_step d) =
     (if file_size >? 0 then [FileOperationSelector_Delete] else [])
     ++ [FileOperationSelector_Open]
     ++ replicate (Z.to_nat (ceil_div (Z.of_nat (length file_data)) b))
                  FileOperationSelector_Write
     ++ [FileOperationSelector_Close]).
Proof.
  apply (file_access_upload_operations "InjectedImage" "temp.raw" false
           (Worlds.camera Worlds.five_bytes 2 FileOperationStatus_Success) []).
  vm_compute. reflexivity.
Defined.

End UploadProtocol.

(** ** Runs of the loop of DataHandler.py *)

Section DataHandlerRuns.
Import Spin Display DataHandler DataHandlerLoop.

Lemma posts_app l1 l2 : posts (l1 ++ l2) = posts l1 ++ posts l2.
Proof. apply omap_app. Qed.

Lemma save_loop_posts c img now lame keys :
  posts (fst (save_loop c img now lame keys)) = [].
Proof.
  pose proof (save_loop_commands c img now lame keys) as Hcmds.
  induction (fst (save_loop c img now lame keys)) as [|cmd cmds IH]; [done|].
  destruct (Hcmds cmd ltac:(by left)) as (k & folder & _ & ->).
  apply IH. intros cmd' Hin. apply Hcmds. by right.
Qed.

(** What one key contributes: Escape ends the loop, any other key lets
    it go on (or raises) after the post it stands for, if any. *)
Lemma dispatch_posts c img now lame :
  (lame = 27 -> dispatch c img now lame = ([], Break)) /\
  (lame <> 27 ->
   snd (dispatch c img now lame) <> Break /\
   posts (fst (dispatch c img now lame)) =
   if lame =? 190 then ["ON"] else if lame =? 191 then ["OFF"] else []).
Proof.
  split; [by intros ->|]. intros Hne. unfold dispatch.
  destruct (Z.eqb_spec lame 27); [done|].
  destruct (lame =? 190) eqn:H190; [done|].
  destruct (lame =? 191) eqn:H191; [done|]. simpl.
  destruct (lame =? -1); [done|].
  pose proof (save_loop_posts c img now lame (fst <$> LABELS c)) as Hposts.
  by destruct (save_loop _ _ _ _ _) as [cmds [e|]].
Qed.

(** X5.  In a run of the keyboard-driven loop that does not end in an
    exception, the bodies of the HTTP posts are, in order, ["ON"] for each
    F1 (190) and ["OFF"] for each F2 (191) among the keys read before the
    first Escape (27): every such key press posts exactly once, no other
    key posts, and nothing is posted after Escape. *)
Theorem run_posts c enable dim inputs cmds out :
  run c enable dim inputs = (cmds, out) ->
  (forall e, out <> Raise e) ->
  posts cmds = omap post_of_key (until_escape inputs).
Proof.
  revert cmds out. induction inputs as [|i rest IH]; intros cmds out Hrun Hout.
  - simpl in Hrun. by injection Hrun as <- _.
  - simpl in Hrun.
    destruct (dispatch_posts c (Frame (frame i)) (now i) (lame i)) as [H27 Hother].
    destruct (loop_body_dispatch c enable dim i) as [Hbody|[shown Hbody]];
      rewrite Hbody in Hrun.
    { injection Hrun as _ <-. by destruct (Hout KeyError). }
    simpl. destruct (Z.eqb_spec (lame i) 27) as [Hesc|Hesc].
    + rewrite (H27 Hesc) in Hrun. simpl in Hrun. by injection Hrun as <- _.
    + destruct (Hother Hesc) as [Hbreak Hposts].
      unfold post_of_key at 1.
      destruct (dispatch c (Frame (frame i)) (now i) (lame i)) as [dcmds dout].
      simpl in *. destruct dout as [[]| |e]; [|done|].
      * destruct (run c enable dim rest) as [cmds2 out2] eqn:Hrest.
        injection Hrun as <- <-.
        change (Imshow "Camera Stream" shown :: dcmds ++ cmds2)
          with ([Imshow "Camera Stream" shown] ++ dcmds ++ cmds2).
        rewrite !posts_app, Hposts, (IH cmds2 out2 eq_refl Hout).
        by destruct (lame i =? 190), (lame i =? 191).
      * injection Hrun as _ <-. by destruct (Hout e).
Qed.

Lemma run_posts_witness :
  posts (fst (run Worlds.two_labels false (640, 480) WorldsMore.four_keys)) = ["ON"; "OFF"].
Proof.
  apply (run_posts Worlds.two_labels false (640, 480) WorldsMore.four_keys _
           (snd (run Worlds.two_labels false (640, 480) WorldsMore.four_keys))).
  - apply surjective_pairing.
  - intros e. vm_compute. discriminate.
Defined.

End DataHandlerRuns.

(** ** Runs that do not crash *)

Section NoCrash.
Import Spin Display.

Lemma folders_of_is_Some dirsep root labels k :
  k ∈ (fst <$> labels) -> is_Some (folders_of dirsep root labels !! k).
Proof.
  unfold folders_of.
  assert (forall acc : gmap string string,
            k ∈ (fst <$> labels) \/ is_Some (acc !! k) ->
            is_Some (fold_left
                       (fun folders '(each, name) =>
                          <[each := root +:+ dirsep +:+ name]> folders)
                       labels acc !! k)) as Hgen.
  { induction labels as [|[each name] labels IH]; intros acc Hk; simpl.
    - destruct Hk as [Hk|Hk]; [by apply elem_of_nil in Hk|done].
    - apply IH. rewrite fmap_cons in Hk. simpl in Hk.
      destruct (decide (k = each)) as [->|Hne].
      + right. rewrite lookup_insert_eq. by eexists.
      + destruct Hk as [Hk|Hk].
        * apply elem_of_cons in Hk as [Hk|Hk]; [done|by left].
        * right. by rewrite lookup_insert_ne. }
  intros Hk. apply Hgen. by left.
Qed.

(** With one-character label keys that all have a folder, the key
    handling ends without an exception. *)
Lemma save_loop_no_raise c img now lame keys :
  Forall single_char keys ->
  (forall k, k ∈ keys -> is_Some (FOLDERS c !! k)) ->
  snd (save_loop c img now lame keys) = None.
Proof.
  induction 1 as [|k keys [a ->] _ IH]; intros Hfolders; [done|].
  simpl. destruct (lame =? _).
  - destruct (Hfolders (String a EmptyString)) as [folder ->]; [by left|].
    specialize (IH (fun k Hk => Hfolders k (proj2 (elem_of_cons _ _ _) (or_intror Hk)))).
    by destruct (save_loop c img now lame keys) as [cmds e].
  - apply IH. intros k Hk. apply Hfolders. by right.
Qed.

Lemma prepared_save_loop_no_raise c dirsep img now lame :
  Forall single_char (fst <$> LABELS c) ->
  FOLDERS c = folders_of dirsep (ROOT_FOLDER c) (LABELS c) ->
  snd (save_loop c img now lame (fst <$> LABELS c)) = None.
Proof.
  intros Hs Hf. apply save_loop_no_raise; [done|].
  intros k Hk. rewrite Hf. by apply folders_of_is_Some.
Qed.

(** X6.  The loop of DataHandler.py raises none of the exceptions of its
    own lookups and key handling ([KeyError] of a folder or an inference
    label, [TypeError] of [ord]), whatever keys are pressed, when the
    folders are those made by [prepare_folders_and_options], every label
    key is one character and, if inference is displayed, every class that
    the camera reports has an inference label.  (Failures of the camera,
    of OpenCV and of the HTTP post are outside the model: the loop's
    commands are its outputs.) *)
Theorem data_handler_run_does_not_raise c enable dim inputs e :
  Forall single_char (fst <$> LABELS c) ->
  FOLDERS c = folders_of "/" (ROOT_FOLDER c) (LABELS c) ->
  (enable = true -> classes_labelled c inputs) ->
  snd (DataHandlerLoop.run c enable dim inputs) <> Raise e.
Proof.
  intros Hs Hf Hcls. induction inputs as [|i rest IH]; [done|].
  simpl.
  assert (exists cmds out, DataHandler.loop_body c enable dim i = (cmds, out) /\
                           forall e', out <> Raise e') as (cmds & out & -> & Hout).
  { unfold DataHandler.loop_body, inference_overlay.
    assert (exists cmds out,
              DataHandler.dispatch c (Frame (frame i)) (now i) (lame i) = (cmds, out) /\
              forall e', out <> Raise e') as (dcmds & dout & Hd & Hdout).
    { unfold DataHandler.dispatch.
      destruct (lame i =? 27); [by eauto|].
      destruct ((lame i =? 190) || (lame i =? 191)); [by eauto|].
      destruct (lame i =? -1); [by eauto|].
      pose proof (prepared_save_loop_no_raise c "/" (Frame (frame i)) (now i) (lame i)
                    Hs Hf) as Hnone.
      destruct (save_loop _ _ _ _ _) as [cmds' e']. simpl in Hnone. subst e'.
      by eauto. }
    destruct enable.
    - specialize (Hcls eq_refl). inversion Hcls as [|? ? [label Hlabel] _]; subst.
      destruct (inference_info i) as [[k q] time]. simpl in Hlabel.
      rewrite Hlabel, Hd. by eauto.
    - rewrite Hd. by eauto. }
  destruct out as [[]| |e']; [|done|by destruct (Hout e')].
  assert (snd (DataHandlerLoop.run c enable dim rest) <> Raise e) as Hrest.
  { apply IH. intros ->. specialize (Hcls eq_refl). by inversion Hcls. }
  by destruct (DataHandlerLoop.run c enable dim rest) as [cmds2 out2].
Qed.

Lemma data_handler_run_does_not_raise_witness :
  snd (DataHandlerLoop.run Worlds.two_labels true (640, 480) WorldsMore.four_keys)
  <> Raise KeyError.
Proof.
  apply (data_handler_run_does_not_raise Worlds.two_labels true (640, 480)
           WorldsMore.four_keys KeyError).
  - repeat constructor; eexists; reflexivity.
  - reflexivity.
  - intros _. repeat constructor; eexists; vm_compute; reflexivity.
Defined.

End NoCrash.

(** ** The routines that execute one file operation *)

Section FileOperations.
Import Spin FileAccess FileAccessMore TraceSpec.

Ltac answer w :=
  repeat match goal with
         | |- context [w ?t unit ?c] =>
             let H := fresh "Hcall" in destruct (w t unit c) as [[]|[]] eqn:H; simpl
         | |- context [w ?t FileOperationStatus ?c] =>
             let H := fresh "Hcall" in destruct (w t FileOperationStatus c) as [[]|[]] eqn:H; simpl
         end.

(** X8.  Each of the five routines that execute one file operation on
    the camera (open for writing, open for reading, close, delete, write)
    returns [True] exactly when no call raised and the status read back is
    [Success]; it returns [False] when the last thing it did failed, a
    [SpinnakerException] included; and the only exceptions that leave it
    are those that are no [SpinnakerException]. *)
Theorem file_operation_contract (m : M bool) (w : World) t :
  m ∈ file_operations ->
  exists d,
    fst (m w t) = t ++ d /\
    match snd (m w t) with
    | inr true =>
        Forall (fun e => failed e = false) d /\
        last d = Some (Ev FileOperationStatus_GetValue (inr FileOperationStatus_Success))
    | inr false => exists e, last d = Some e /\ failed e = true
    | inl x => x <> SpinnakerException
    end.
Proof.
  unfold file_operations. rewrite !elem_of_cons, elem_of_nil.
  intros [->|[->|[->|[->|[->|[]]]]]];
    unfold open_file_to_write, open_file_to_read, close_file,
      execute_delete_command, execute_write_command,
      try_except, bind, call, ret, except_SpinnakerException; simpl;
    answer w; rewrite <- ?app_assoc; simpl;
    (eexists; split; [reflexivity|]); simpl;
    first [ done
          | by (split; [repeat constructor|reflexivity])
          | by (eexists; split; [reflexivity|reflexivity]) ].
Qed.

Lemma file_operation_contract_witness :
  exists d,
    fst (open_file_to_read (Worlds.camera Worlds.five_bytes 2 FileOperationStatus_Success) [])
    = [] ++ d /\
    match snd (open_file_to_read
                 (Worlds.camera Worlds.five_bytes 2 FileOperationStatus_Success) []) with
    | inr true =>
        Forall (fun e => failed e = false) d /\
        last d = Some (Ev FileOperationStatus_GetValue (inr FileOperationStatus_Success))
    | inr false => exists e, last d = Some e /\ failed e = true
    | inl x => x <> SpinnakerException
    end.
Proof.
  apply (file_operation_contract open_file_to_read
           (Worlds.camera Worlds.five_bytes 2 FileOperationStatus_Success) []).
  unfold file_operations. apply elem_of_cons. right. apply elem_of_cons. by left.
Defined.

End FileOperations.

(** ** Selectors and the size of the image *)

Section Selectors.
Import Spin Views CameraMore.

Ltac answer w :=
  repeat match goal with
         | |- context [w ?t unit ?c] =>
             let H := fresh "Hcall" in destruct (w t unit c) as [[]|[]] eqn:H; simpl
         | |- context [w ?t Z ?c] =>
             let H := fresh "Hcall" in destruct (w t Z c) as [[]|?] eqn:H; simpl
         end.

Lemma set_selector_to_value_post nm selector value (w : World) t :
  exists d,
    fst (set_selector_to_value nm selector value w t) = t ++ d /\
    selector_post selector value (snd (set_selector_to_value nm selector value w t)) d.
Proof.
  unfold set_selector_to_value, try_except, bind, call, ret, selector_post; simpl.
  answer w; rewrite <- ?app_assoc; simpl;
    (eexists; split; [reflexivity|]); simpl;
    (split; [done|]); (split; [reflexivity|]);
    first [ by (left; split; [reflexivity|]; eexists; split; reflexivity)
          | right; eexists; split; [|reflexivity];
            rewrite !elem_of_cons; eauto 10 ].
Qed.


(** X10.  [set_trigger_on_inference_ready] goes through its three
    selectors in order, [TriggerSelector], [TriggerMode] and
    [TriggerSource], also after a [SpinnakerException] on an earlier one;
    it attempts writes to these three nodes only, each at most once and in
    that order. *)
Theorem set_trigger_on_inference_ready_selectors (w : World) t :
  exists d,
    fst (set_trigger_on_inference_ready w t) = t ++ d /\
    match snd (set_trigger_on_inference_ready w t) with
    | inr _ => view node_asked d = ["TriggerSelector"; "TriggerMode"; "TriggerSource"]
    | inl x => x <> SpinnakerException
    end /\
    (view node_write d).*1 `sublist_of`
      [NodeByName "TriggerSelector"; NodeByName "TriggerMode"; NodeByName "TriggerSource"].
Proof.
  assert (forall selector value d r,
            selector_post selector value r d ->
            (view node_write d).*1 `sublist_of` [NodeByName selector]) as Hsub.
  { intros selector value d r (_ & _ & [[Hw _]|(v & _ & Hw)]);
      unfold view; rewrite Hw; simpl.
    - apply sublist_nil_l.
    - done. }
  unfold set_trigger_on_inference_ready, bind.
  destruct (set_selector_to_value_post nodemap "TriggerSelector" "FrameStart" w t)
    as (d1 & Ht1 & Hp1).
  destruct (set_selector_to_value nodemap "TriggerSelector" "FrameStart" w t)
    as [t1 r1]. simpl in Ht1, Hp1. subst t1.
  pose proof (Hsub _ _ _ _ Hp1) as Hs1. destruct Hp1 as (Hr1 & Ha1 & _).
  destruct r1 as [x|[]].
  { exists d1. split; [done|]. split; [done|].
    change [NodeByName "TriggerSelector"; NodeByName "TriggerMode"; NodeByName "TriggerSource"]
      with ([NodeByName "TriggerSelector"] ++
            [NodeByName "TriggerMode"; NodeByName "TriggerSource"]).
    by apply sublist_inserts_r. }
  destruct (set_selector_to_value_post nodemap "TriggerMode" "On" w (t ++ d1))
    as (d2 & Ht2 & Hp2).
  destruct (set_selector_to_value nodemap "TriggerMode" "On" w (t ++ d1))
    as [t2 r2]. simpl in Ht2, Hp2. subst t2.
  pose proof (Hsub _ _ _ _ Hp2) as Hs2. destruct Hp2 as (Hr2 & Ha2 & _).
  destruct r2 as [x|[]].
  { exists (d1 ++ d2). rewrite app_assoc. split; [done|]. split; [done|].
    rewrite view_app, fmap_app.
    change [NodeByName "TriggerSelector"; NodeByName "TriggerMode"; NodeByName "TriggerSource"]
      with ([NodeByName "TriggerSelector"] ++
            [NodeByName "TriggerMode"] ++ [NodeByName "TriggerSource"]).
    apply sublist_app; [done|]. by apply sublist_inserts_r. }
  destruct (set_selector_to_value_post nodemap "TriggerSource" "InferenceReady"
              w ((t ++ d1) ++ d2)) as (d3 & Ht3 & Hp3).
  pose proof (Hsub _ _ _ _ Hp3) as Hs3. destruct Hp3 as (Hr3 & Ha3 & _).
  destruct (set_selector_to_value nodemap "TriggerSource" "InferenceReady"
              w ((t ++ d1) ++ d2)) as [t3 r3]. simpl in Ht3, Hr3. subst t3.
  exists (d1 ++ d2 ++ d3). simpl. rewrite <- !app_assoc. split; [done|].
  split.
  - destruct r3 as [x|[]]; [done|].
    unfold view in *. by rewrite !omap_app, Ha1, Ha2, Ha3.
  - rewrite !view_app, !fmap_app.
    change [NodeByName "TriggerSelector"; NodeByName "TriggerMode"; NodeByName "TriggerSource"]
      with ([NodeByName "TriggerSelector"] ++
            [NodeByName "TriggerMode"] ++ [NodeByName "TriggerSource"]).
    by repeat apply sublist_app.
Qed.

(** X11.  [max_width_and_height], when it returns, has done these reads
    and writes, in this order and no other: [OffsetX] is set to 0,
    [OffsetY] is set to 0, the largest width is read, [Width] is set to
    it, the largest height is read, [Height] is set to it; so both offsets
    are zero when the maxima are read.  It catches nothing: an exception
    of any call is the exception of the routine, and nothing is done after
    it. *)
Theorem max_width_and_height_writes (w : World) t :
  exists d,
    fst (max_width_and_height w t) = t ++ d /\
    match snd (max_width_and_height w t) with
    | inr _ =>
        exists width_to_set height_to_set,
          view node_step_of d =
          [NSet (NodeByName "OffsetX") 0; NSet (NodeByName "OffsetY") 0;
           NMax (NodeByName "Width") width_to_set;
           NSet (NodeByName "Width") width_to_set;
           NMax (NodeByName "Height") height_to_set;
           NSet (NodeByName "Height") height_to_set]
    | inl x =>
        exists d0 T (c : Call T), d = d0 ++ [Ev c (inl x)] /\
                                  Forall (fun e => raised e = false) d0
    end.
Proof.
  unfold max_width_and_height, bind, call, ret; simpl.
  answer w; rewrite <- ?app_assoc; simpl;
    (eexists; split; [reflexivity|]); simpl;
    first [ by (eexists _, _, _; split;
                [ first [ exact (eq_refl : _ = [] ++ [_])
                        | exact (eq_refl : _ = [_] ++ [_])
                        | exact (eq_refl : _ = [_; _] ++ [_])
                        | exact (eq_refl : _ = [_; _; _] ++ [_])
                        | exact (eq_refl : _ = [_; _; _; _] ++ [_])
                        | exact (eq_refl : _ = [_; _; _; _; _] ++ [_])
                        | exact (eq_refl : _ = [_; _; _; _; _; _] ++ [_])
                        | exact (eq_refl : _ = [_; _; _; _; _; _; _] ++ [_])
                        | exact (eq_refl : _ = [_; _; _; _; _; _; _; _] ++ [_])
                        | exact (eq_refl : _ = [_; _; _; _; _; _; _; _; _] ++ [_]) ]
                | repeat constructor ])
          | by eexists _, _ ].
Qed.

End Selectors.


(** ** Running a computation step by step *)

Section RunSteps.
Import Spin.

Lemma bind_call_run {T B} (c : Call T) (f : T -> M B) (w : World) t :
  bind (call c) f w t =
  match w t T c with
  | inl e => (t ++ [Ev c (inl e)], inl e)
  | inr a => f a w (t ++ [Ev c (inr a)])
  end.
Proof. unfold bind, call. simpl. by destruct (w t T c). Qed.

Lemma bind_bind_run {A B C} (m : M A) (g : A -> M B) (f : B -> M C) (w : World) t :
  bind (bind m g) f w t = bind m (fun a => bind (g a) f) w t.
Proof. unfold bind. by destruct (m w t) as [t' [e|a]]. Qed.

Lemma bind_ret_run {A B} (a : A) (f : A -> M B) (w : World) t :
  bind (ret a) f w t = f a w t.
Proof. reflexivity. Qed.

Lemma call_then_ret_run {T B} (c : Call T) (b : B) (w : World) t :
  fst (bind (call c) (fun _ => ret b) w t) = t ++ [Ev c (w t T c)].
Proof. unfold bind, call. simpl. by destruct (w t T c). Qed.

End RunSteps.

(** One step of a run that [H] describes: the next call is answered, a
    test on an answer is decided, and [close] gets a chance to close the
    case. *)
Ltac run_step H w close :=
  first
    [ rewrite bind_ret_run in H; cbv beta iota in H
    | rewrite bind_bind_run in H; cbv beta in H
    | rewrite bind_call_run in H;
      match type of H with
      | context [match w ?t ?T ?c with _ => _ end] =>
          let Hc := fresh "Hcall" in
          destruct (w t T c) as [?|?] eqn:Hc; cbv beta iota in H
      end
    | match type of H with
      | context [if negb ?b then _ else _] =>
          is_var b; destruct b;
          change (negb true) with false in H; change (negb false) with true in H;
          cbv iota in H
      | context [if ?b then _ else _] => is_var b; destruct b; cbv iota in H
      end ];
  try (solve [close]).

(** ** What the configuration routines write *)

Section ConfigurationWrites.
Import Spin Views Camera.

Lemma run_extends_snoc (t T d : trace) x d0 :
  T ++ [x] = t ++ d -> T = t ++ d0 -> d = d0 ++ [x].
Proof. intros H ->. rewrite <- app_assoc in H. by apply app_inv_head in H. Qed.

Lemma failed_before_last (t T d : trace) bad x d0 :
  (T ++ [bad]) ++ [x] = t ++ d -> T = t ++ d0 ->
  Forall (fun e => TraceSpec.config_failed e = false) d ->
  TraceSpec.config_failed bad = true -> False.
Proof.
  intros H -> Hall Hbad. rewrite <- !app_assoc in H. apply app_inv_head in H.
  subst d. rewrite !Forall_app, Forall_singleton in Hall.
  destruct Hall as (_ & Hall & _). congruence.
Qed.

(** X12.  When [configure_camera_for_image_injection] succeeds (it then
    returns [None]), it has selected the [PipelineStart] test pattern
    generator and the [InjectedImage] test pattern by the values that the
    camera gave for these entries, and has set [InjectedWidth] and [Width]
    to the given width and [InjectedHeight] and [Height] to the given
    height, in this order; it has set nothing else. *)
Theorem configure_camera_for_image_injection_sets_size width height (w : World) t t' :
  configure_camera_for_image_injection width height w t = (t', inr None) ->
  exists d pipeline_start injected_image,
    t' = t ++ d /\
    view node_step_of d =
    [NGot (EntryByName (NodeByName "TestPatternGeneratorSelector") "PipelineStart")
          pipeline_start;
     NSet (NodeByName "TestPatternGeneratorSelector") pipeline_start;
     NGot (EntryByName (NodeByName "TestPattern") "InjectedImage") injected_image;
     NSet (NodeByName "TestPattern") injected_image;
     NSet (NodeByName "InjectedWidth") width; NSet (NodeByName "Width") width;
     NSet (NodeByName "InjectedHeight") height; NSet (NodeByName "Height") height].
Proof.
  intros H.
  unfold configure_camera_for_image_injection, not_available_or_not, try_except,
    except_Exception in H.
  repeat run_step H w ltac:(discriminate H).
  cbv beta iota delta [ret] in H.
  apply (f_equal fst) in H.
  cbv beta iota delta [fst] in H.
  subst t'.
  rewrite <- !app_assoc.
  eexists _, _, _; split; [reflexivity|].
  reflexivity.
Qed.


Lemma configure_camera_for_image_injection_sets_size_witness :
  exists d pipeline_start injected_image,
    fst (configure_camera_for_image_injection 1440 1080
           (Worlds.camera Worlds.five_bytes 2 FileOperationStatus_Success) [])
    = [] ++ d /\
    view node_step_of d =
    [NGot (EntryByName (NodeByName "TestPatternGeneratorSelector") "PipelineStart")
          pipeline_start;
     NSet (NodeByName "TestPatternGeneratorSelector") pipeline_start;
     NGot (EntryByName (NodeByName "TestPattern") "InjectedImage") injected_image;
     NSet (NodeByName "TestPattern") injected_image;
     NSet (NodeByName "InjectedWidth") 1440; NSet (NodeByName "Width") 1440;
     NSet (NodeByName "InjectedHeight") 1080; NSet (NodeByName "Height") 1080].
Proof.
  apply (configure_camera_for_image_injection_sets_size 1440 1080
           (Worlds.camera Worlds.five_bytes 2 FileOperationStatus_Success) []).
  vm_compute. reflexivity.
Defined.

(** X13.  When no call of [disable_camera_image_injection] raises and no
    check fails, the routine has selected the [PipelineStart] test pattern
    generator, switched the test pattern [Off], set [Width] and [Height]
    each to the largest value that the camera gave for it, in this order,
    and its last call has de-initialised the camera. *)
Theorem disable_camera_image_injection_restores (w : World) t d :
  fst (disable_camera_image_injection w t) = t ++ d ->
  Forall (fun e => TraceSpec.config_failed e = false) d ->
  exists sensor_start off width_to_set height_to_set,
    view node_step_of d =
    [NGot (EntryByName (NodeByName "TestPatternGeneratorSelector") "PipelineStart")
          sensor_start;
     NSet (NodeByName "TestPatternGeneratorSelector") sensor_start;
     NGot (EntryByName (NodeByName "TestPattern") "Off") off;
     NSet (NodeByName "TestPattern") off;
     NMax (NodeByName "Width") width_to_set;
     NSet (NodeByName "Width") width_to_set;
     NMax (NodeByName "Height") height_to_set;
     NSet (NodeByName "Height") height_to_set] /\
    last d = Some (Ev DeInit (inr tt)).
Proof.
  intros H Hall.
  unfold disable_camera_image_injection, finally_return in H.
  rewrite call_then_ret_run in H.
  match type of H with
  | context [w (fst ?m) unit DeInit] =>
      destruct m as [t1 r1] eqn:Hin; cbv beta iota delta [fst] in H;
      generalize dependent (w t1 unit DeInit); intros r H
  end.
  unfold not_available_or_not, try_except, except_Exception in Hin.
  repeat run_step Hin w
    ltac:(cbv beta iota delta [ret] in Hin;
          match type of Hin with (_, _) = _ => idtac end;
          apply (f_equal fst) in Hin; cbv beta iota delta [fst] in Hin; subst t1;
          exfalso;
          eapply failed_before_last;
          [exact H
          |first [symmetry; apply app_nil_r|rewrite <- ?app_assoc; reflexivity]
          |exact Hall|reflexivity]).
  cbv beta iota delta [ret] in Hin.
  apply (f_equal fst) in Hin; cbv beta iota delta [fst] in Hin; subst t1.
  (match type of H with
  | ?T ++ [_] = _ =>
      evar (d0 : trace);
      assert (T = t ++ d0) as Hd0 by (subst d0; rewrite <- ?app_assoc; reflexivity)
  end).
  rewrite (run_extends_snoc _ _ _ _ _ H Hd0) in Hall |- *.
  apply Forall_app in Hall as [_ Hall]; apply Forall_inv in Hall.
  destruct r as [?|[]]; [simpl in Hall; discriminate Hall|].
  subst d0; eexists _, _, _, _; split; reflexivity.
Qed.

Lemma disable_camera_image_injection_restores_witness :
  exists sensor_start off width_to_set height_to_set,
    view node_step_of
      (fst (disable_camera_image_injection
              (Worlds.camera Worlds.five_bytes 2 FileOperationStatus_Success) [])) =
    [NGot (EntryByName (NodeByName "TestPatternGeneratorSelector") "PipelineStart")
          sensor_start;
     NSet (NodeByName "TestPatternGeneratorSelector") sensor_start;
     NGot (EntryByName (NodeByName "TestPattern") "Off") off;
     NSet (NodeByName "TestPattern") off;
     NMax (NodeByName "Width") width_to_set;
     NSet (NodeByName "Width") width_to_set;
     NMax (NodeByName "Height") height_to_set;
     NSet (NodeByName "Height") height_to_set] /\
    last (fst (disable_camera_image_injection
                 (Worlds.camera Worlds.five_bytes 2 FileOperationStatus_Success) []))
    = Some (Ev DeInit (inr tt)).
Proof.
  apply (disable_camera_image_injection_restores
           (Worlds.camera Worlds.five_bytes 2 FileOperationStatus_Success) []).
  - reflexivity.
  - vm_compute. repeat constructor.
Defined.

End ConfigurationWrites.

(** ** Every run of an upload follows the protocol *)

Section FollowsFacts.
Import Spin Views ViewsMore Discipline.
Context {X : Type} (v : event -> option X).

Lemma always_ret {A} (a : A) : always v [] (ret a).
Proof. by apply vpost_ret. Qed.

Lemma always_raise {A} e : always v [] (raise e : M A).
Proof. by apply vpost_raise. Qed.

Lemma always_call {T} (c : Call T) L :
  (forall r, view v [Ev c r] = L) -> always v L (call c).
Proof. intros Hc. apply vpost_call. exact Hc. Qed.

(** Steps first, then nothing. *)
Lemma always_bind {A B} L (m : M A) (f : A -> M B) :
  always v L m -> (forall a, always v [] (f a)) -> always v L (bind m f).
Proof.
  intros Hm Hf.
  apply (vpost_bind v (fun _ l => l = L) (fun _ _ l => l = [])); [done|done|done|].
  intros a l1 r l2 -> ->. apply app_nil_r.
Qed.

Lemma always_try_except {A} L (m : M A) handler :
  always v L m -> (forall e h, handler e = Some h -> always v [] h) ->
  always v L (try_except m handler).
Proof.
  intros Hm Hh. apply (vpost_try_except v (fun _ l => l = L)); [done|done|].
  intros e l ->. destruct (handler e) as [h|] eqn:He; [|done].
  eapply vpost_weaken; [|by apply (Hh e h)].
  intros r l' ->. apply app_nil_r.
Qed.

Lemma follows_inhabited {A} (S : A -> list X -> Prop) (m : M A) :
  follows v S m -> exists a l, S a l.
Proof.
  intros Hm. destruct (Hm broken []) as (d & _ & Hd).
  destruct (snd (m broken [])) as [e|a]; [|by eauto].
  destruct Hd as (a & l' & Ha & _). eauto.
Qed.

Lemma follows_ret {A} (S : A -> list X -> Prop) a : S a [] -> follows v S (ret a).
Proof. intros Ha. by apply vpost_ret. Qed.

Lemma follows_raise {A} (S : A -> list X -> Prop) e a l :
  S a l -> follows v S (raise e).
Proof. intros Ha. apply vpost_raise. exists a, l. split; [done|]. apply prefix_nil. Qed.

Lemma follows_weaken {A} (S S' : A -> list X -> Prop) m :
  (forall a l, S a l -> S' a l) -> follows v S m -> follows v S' m.
Proof.
  intros Hi. apply vpost_weaken. intros [e|a] l; [|by apply Hi].
  intros (a & l' & Ha & Hl). eauto.
Qed.

(** A call whose answer is the step. *)
Lemma follows_call {T} `{Inhabited T} (c : Call T) (L : T -> list X) :
  (forall a, view v [Ev c (inr a)] = L a) ->
  (forall e, view v [Ev c (inl e)] = []) ->
  follows v (fun a l => l = L a) (call c).
Proof.
  intros Hr He. apply vpost_call. intros [e|a]; [|by apply Hr].
  exists inhabitant, (L inhabitant). split; [done|]. rewrite He. apply prefix_nil.
Qed.

Lemma follows_always {A} `{Inhabited A} L (m : M A) :
  always v L m -> follows v (fun _ l => l = L) m.
Proof.
  apply vpost_weaken. intros [e|a] l ->; [|done].
  by exists inhabitant, L.
Qed.

Lemma follows_bind {A B} (S1 : A -> list X -> Prop) (S2 : A -> B -> list X -> Prop)
    (S : B -> list X -> Prop) m (f : A -> M B) :
  follows v S1 m ->
  (forall a, follows v (S2 a) (f a)) ->
  (forall a l1 b l2, S1 a l1 -> S2 a b l2 -> S b (l1 ++ l2)) ->
  follows v S (bind m f).
Proof.
  intros Hm Hf Hc.
  apply (vpost_bind v _ (fun a r l2 =>
           match r with
           | inr b => S2 a b l2
           | inl _ => exists b l', S2 a b l' /\ l2 `prefix_of` l'
           end) _ m f Hm Hf).
  - intros e l (a & l' & Ha & Hl).
    destruct (follows_inhabited _ _ (Hf a)) as (b & l2 & Hb).
    exists b, (l' ++ l2). split; [by eapply Hc|].
    by apply prefix_app_r.
  - intros a l1 [e|b] l2 H1 H2; [|by eapply Hc].
    destruct H2 as (b & l' & Hb & Hl).
    exists b, (l1 ++ l'). split; [by eapply Hc|]. by apply prefix_app.
Qed.

(** Sequencing after a computation that adds nothing to the view. *)
Lemma follows_seq {A B} `{Inhabited A} (S : B -> list X -> Prop) (m : M A)
    (f : A -> M B) :
  always v [] m -> (forall a, follows v S (f a)) -> follows v S (bind m f).
Proof.
  intros Hm Hf.
  apply (follows_bind (fun _ l => l = []) (fun _ => S)); [by apply follows_always|done|].
  by intros a l1 b l2 ->.
Qed.

End FollowsFacts.

Section UploadRuns.
Import Spin FileAccess Views ViewsMore Discipline.
Local Open Scope spin_scope.

Local Abbreviation al := (always upload_step).
Local Abbreviation fo := (follows upload_step).

Ltac hushv :=
  unfold not_available_or_not;
  repeat first
    [ apply always_ret
    | apply always_raise
    | apply always_call; intros ?; reflexivity
    | apply always_bind; [|intros ?]
    | match goal with
      | |- always _ _ (if ?b then _ else _) => destruct b
      | |- always _ _ (match ?x with _ => _ end) => destruct x
      end ].

Ltac inh := try match goal with |- Inhabited _ => apply _ end.
Ltac skipv := apply follows_seq; inh; [solve [hushv]|intros _].
Ltac skipv_as x := apply follows_seq; inh; [solve [hushv]|intros x].
Ltac fo_always := apply follows_always; inh.
Ltac fo_call L := apply (follows_call _ _ L); inh; intros; reflexivity.

(** A file operation selects its operation first, whatever comes of it. *)
Lemma al_file_operation op (rest : M bool) :
  al [] rest ->
  al [SSel op]
     (try_except (call (FileOperationSelector_SetValue op) ;;; rest)
                 except_SpinnakerException).
Proof.
  intros Hrest. apply always_try_except.
  - apply always_bind; [|done]. apply always_call. intros r. reflexivity.
  - intros e h He. destruct e; simplify_eq/=. apply always_ret.
Qed.

Lemma al_unless_raise f msg L : al L f -> al L (unless_raise f msg).
Proof.
  intros Hf. unfold unless_raise. apply always_bind; [done|].
  intros [|]; simpl; [apply always_ret|apply always_raise].
Qed.

Lemma al_open_file_to_write : al [SSel FileOperationSelector_Open] open_file_to_write.
Proof. apply al_file_operation. hushv. Qed.

Lemma al_close_file : al [SSel FileOperationSelector_Close] close_file.
Proof. apply al_file_operation. hushv. Qed.

Lemma al_execute_delete_command :
  al [SSel FileOperationSelector_Delete] execute_delete_command.
Proof. apply al_file_operation. hushv. Qed.

Lemma al_execute_write_command :
  al [SSel FileOperationSelector_Write] execute_write_command.
Proof. apply al_file_operation. hushv. Qed.

Lemma follows_bind_raise {X A B} (v : event -> option X) (S : B -> list X -> Prop)
    e (f : A -> M B) b l :
  S b l -> follows v S (bind (raise e) f).
Proof.
  intros Hb w t. exists []. simpl. rewrite app_nil_r. split; [done|].
  exists b, l. split; [done|]. apply prefix_nil.
Qed.

Lemma follows_bind_ret {X A B} (v : event -> option X) (S : B -> list X -> Prop)
    a (f : A -> M B) :
  follows v S (f a) -> follows v S (bind (ret a) f).
Proof. intros Hf w t. exact (Hf w t). Qed.

Lemma fo_write_loop split b total debug (s n : nat) st :
  fo (fun _ l => l = write_steps (take n (drop s split)))
     (write_loop split b total debug (Z.of_nat <$> seq s n) st).
Proof.
  revert s st. induction n as [|n IH]; intros s [left written].
  - by apply follows_ret.
  - cbn [seq fmap list_fmap write_loop]. unfold getitem.
    destruct (Z.ltb_spec (Z.of_nat s) 0); [lia|].
    destruct (Z.ltb_spec (Z.of_nat s) 0); [lia|].
    rewrite Nat2Z.id.
    destruct (split !! s) as [x|] eqn:Hx;
      [|by eapply (follows_bind_raise _ _ _ _ (left, written))].
    rewrite (drop_S _ _ _ Hx). cbn [take].
    apply follows_bind_ret.
    apply (follows_bind _ (fun _ l => l = [SBuf x])
             (fun _ _ l2 => l2 = SSel FileOperationSelector_Write
                                  :: write_steps (take n (drop (S s) split)))).
    + fo_always. apply always_call. intros r. reflexivity.
    + intros _. skipv.
      apply (follows_bind _ (fun _ l => l = [SSel FileOperationSelector_Write])
               (fun _ _ l2 => l2 = write_steps (take n (drop (S s) split)))).
      * fo_always; apply al_unless_raise, al_execute_write_command.
      * intros _. skipv_as size_written. skipv. apply IH.
      * by intros _ l1 r l2 -> ->.
    + by intros _ l1 r l2 -> ->.
Qed.

Lemma fo_write_file_data (file_data : list Byte.byte) debug :
  fo (fun _ l => exists b,
        l = [SLen b]
            ++ write_steps
                 (take (Z.to_nat (Chunking.write_iterations
                                    (Z.of_nat (length file_data)) b))
                       (Chunking.split_data file_data b))
            ++ [SSel FileOperationSelector_Close])
     (write_file_data file_data debug).
Proof.
  unfold write_file_data. cbv zeta.
  apply (follows_bind _ (fun b l => l = [SLen b])
           (fun b _ l2 =>
              l2 = write_steps
                     (take (Z.to_nat (Chunking.write_iterations
                                        (Z.of_nat (length file_data)) b))
                           (Chunking.split_data file_data b))
                   ++ [SSel FileOperationSelector_Close])).
  - fo_call (fun b => [SLen b]).
  - intros b. destruct (b =? 0); [by eapply (follows_raise _ _ _ tt)|].
    apply (follows_bind _
             (fun _ l => l = write_steps
                (take (Z.to_nat (Chunking.write_iterations
                                   (Z.of_nat (length file_data)) b))
                      (drop 0 (Chunking.split_data file_data b))))
             (fun _ _ l2 => l2 = [SSel FileOperationSelector_Close])).
    + apply fo_write_loop.
    + intros _. fo_always; apply al_unless_raise, al_close_file.
    + intros _ l1 r l2 -> ->. by rewrite drop_0.
  - intros b l1 r l2 -> ->. eauto.
Qed.

Ltac stop_here := apply (follows_raise _ _ _ tt (upload_steps 0 0 [] 0)); by exists 0, 0, [], 0.

Lemma fo_file_access_upload_try file_selector file_path debug :
  fo (fun _ l => exists file_size len file_data b,
        l = upload_steps file_size len file_data b)
     (file_access_upload_try file_selector file_path debug).
Proof.
  unfold file_access_upload_try.
  skipv. skipv_as unsupported. destruct unsupported; [stop_here|].
  skipv. skipv_as bad. destruct bad; [stop_here|].
  skipv. skipv_as bad. destruct bad; [stop_here|].
  skipv_as file_selector_entry. skipv.
  apply (follows_bind _ (fun z l => l = [SSize z])
           (fun z _ l2 => exists len file_data b,
              upload_steps z len file_data b = SSize z :: l2)).
  - fo_call (fun z => [SSize z]).
  - intros file_size.
    apply (follows_bind _
             (fun _ l => l = if file_size >? 0
                             then [SSel FileOperationSelector_Delete] else [])
             (fun _ _ l2 => exists len file_data b,
                l2 = [SSel FileOperationSelector_Open; SLen len; SData file_data; SLen b]
                     ++ write_steps
                          (take (Z.to_nat (Chunking.write_iterations
                                             (Z.of_nat (length file_data)) b))
                                (Chunking.split_data file_data b))
                     ++ [SSel FileOperationSelector_Close])).
    + destruct (file_size >? 0); [|by apply follows_ret].
      fo_always; apply al_unless_raise, al_execute_delete_command.
    + intros _.
      apply (follows_bind _ (fun _ l => l = [SSel FileOperationSelector_Open])
               (fun _ _ l2 => exists len file_data b,
                  l2 = [SLen len; SData file_data; SLen b]
                       ++ write_steps
                            (take (Z.to_nat (Chunking.write_iterations
                                               (Z.of_nat (length file_data)) b))
                                  (Chunking.split_data file_data b))
                       ++ [SSel FileOperationSelector_Close])).
      * fo_always; apply al_unless_raise, al_open_file_to_write.
      * intros _.
        apply (follows_bind _ (fun len l => l = [SLen len])
                 (fun _ _ l2 => exists file_data b,
                    l2 = [SData file_data; SLen b]
                         ++ write_steps
                              (take (Z.to_nat (Chunking.write_iterations
                                                 (Z.of_nat (length file_data)) b))
                                    (Chunking.split_data file_data b))
                         ++ [SSel FileOperationSelector_Close])).
        -- fo_call (fun len => [SLen len]).
        -- intros len. skipv_as buf.
           apply follows_seq; inh.
           { destruct (len <? buf); [|by apply always_ret].
             apply always_try_except; [hushv|].
             intros [] h [=]; subst h. apply always_raise. }
           intros _. skipv.
           apply (follows_bind _ (fun data l => l = [SData data])
                    (fun data _ l2 => exists b,
                       l2 = [SLen b]
                            ++ write_steps
                                 (take (Z.to_nat (Chunking.write_iterations
                                                    (Z.of_nat (length data)) b))
                                       (Chunking.split_data data b))
                            ++ [SSel FileOperationSelector_Close])).
           ++ fo_call (fun data => [SData data]).
           ++ intros data. apply fo_write_file_data.
           ++ intros data l1 r l2 -> (b & ->). eauto.
        -- intros len l1 r l2 -> (data & b & ->). eauto.
      * intros _ l1 r l2 -> (len & data & b & ->). eauto.
    + intros _ l1 r l2 -> (len & data & b & ->).
      exists len, data, b. reflexivity.
  - intros z l1 r l2 -> (len & data & b & Heq).
    exists z, len, data, b. by rewrite Heq.
Qed.

Lemma buffers_prefix l1 l2 : l1 `prefix_of` l2 -> buffers l1 `prefix_of` buffers l2.
Proof. intros [k ->]. unfold buffers. rewrite omap_app. by eexists. Qed.

Lemma operations_prefix l1 l2 :
  l1 `prefix_of` l2 -> operations l1 `prefix_of` operations l2.
Proof. intros [k ->]. unfold operations. rewrite omap_app. by eexists. Qed.

(** X14.  Every run of [file_access_upload], whether it returns [True]
    or [False], does the first steps of the upload protocol and nothing
    else: for some file size, access lengths and file contents, the steps
    of the run are an initial part of the steps of a successful upload.
    In particular the buffers handed to the camera are, in order, the
    leading chunks of the split of the file that was read, and the file
    operations selected are an initial part of: delete (if the old file
    has a positive size), open, some writes, close; no read operation is
    selected. *)
Theorem file_access_upload_follows_the_protocol file_selector file_path debug
    (w : World) t :
  exists d file_size len file_data b,
    fst (file_access_upload file_selector file_path debug w t) = t ++ d /\
    view upload_step d `prefix_of` upload_steps file_size len file_data b /\
    buffers (view upload_step d) `prefix_of` Chunking.split_data file_data b /\
    exists k,
      operations (view upload_step d) `prefix_of`
        (if file_size >? 0 then [FileOperationSelector_Delete] else [])
        ++ [FileOperationSelector_Open]
        ++ replicate k FileOperationSelector_Write
        ++ [FileOperationSelector_Close].
Proof.
  destruct (fo_file_access_upload_try file_selector file_path debug w t)
    as (d & Hfst & Hd).
  assert (exists file_size len file_data b,
            view upload_step d `prefix_of` upload_steps file_size len file_data b)
    as (file_size & len & file_data & b & Hpre).
  { destruct (snd _) as [e|a].
    - destruct Hd as (_ & l' & (file_size & len & file_data & b & ->) & Hl). eauto 6.
    - destruct Hd as (file_size & len & file_data & b & ->). eauto 6. }
  exists d, file_size, len, file_data, b. split; [|split; [done|split]].
  - unfold file_access_upload, try_except, bind.
    destruct (file_access_upload_try file_selector file_path debug w t)
      as [t1 [e|a]]; simpl in *; [by destruct e|done].
  - etrans; [by apply buffers_prefix|].
    rewrite buffers_upload_steps. apply prefix_take.
  - eexists. etrans; [by apply operations_prefix|].
    by rewrite operations_upload_steps.
Qed.

End UploadRuns.

(** ** Injecting a mono8 image *)

Section WithinFacts.
Import Spin Views Phases.
Context {X : Type} (v : event -> option X) (P : list X -> Prop).
Hypothesis P_nil : P [].
Hypothesis P_app : forall l1 l2, P l1 -> P l2 -> P (l1 ++ l2).

Lemma within_ret {A} (a : A) : within v P (ret a).
Proof. by apply vpost_ret. Qed.

Lemma within_raise {A} e : within v P (raise e : M A).
Proof. by apply vpost_raise. Qed.

Lemma within_call {T} (c : Call T) :
  (forall r, P (view v [Ev c r])) -> within v P (call c).
Proof. intros Hc. by apply vpost_call. Qed.

Lemma within_bind {A B} (m : M A) (f : A -> M B) :
  within v P m -> (forall a, within v P (f a)) -> within v P (bind m f).
Proof.
  intros Hm Hf.
  apply (vpost_bind v (fun _ l => P l) (fun _ _ l => P l)); [done|done|done|].
  intros a l1 r l2. apply P_app.
Qed.

Lemma within_try_except {A} (m : M A) handler :
  within v P m -> (forall e h, handler e = Some h -> within v P h) ->
  within v P (try_except m handler).
Proof.
  intros Hm Hh. apply (vpost_try_except v (fun _ l => P l)); [done|done|].
  intros e l Hl. destruct (handler e) as [h|] eqn:He; [|done].
  eapply vpost_weaken; [|by apply (Hh e h)].
  intros r l'. by apply P_app.
Qed.

End WithinFacts.

Section MonoInjection.
Import Spin FileAccess Camera Views Phases.
Local Open Scope spin_scope.

Lemma only_buffers_nil : only_buffers [].
Proof. by exists []. Qed.

Lemma only_buffers_app l1 l2 :
  only_buffers l1 -> only_buffers l2 -> only_buffers (l1 ++ l2).
Proof. intros [b1 ->] [b2 ->]. exists (b1 ++ b2). by rewrite fmap_app. Qed.

Local Abbreviation wb := (within phase_of only_buffers).

Ltac inside :=
  unfold unless_raise, open_file_to_write, close_file, execute_delete_command,
    execute_write_command, getitem, not_available_or_not;
  repeat first
    [ apply (within_ret _ _ only_buffers_nil)
    | apply (within_raise _ _ only_buffers_nil)
    | apply within_call; intros ?;
      first [by exists [] | by eexists [_]]
    | apply (within_bind _ _ only_buffers_app); [|intros ?]
    | apply (within_try_except _ _ only_buffers_app);
      [|let e := fresh "e" in let h := fresh "h" in let He := fresh "He" in
        intros e h He; destruct e; simplify_eq/=]
    | match goal with
      | |- within _ _ (if ?b then _ else _) => destruct b
      | |- within _ _ (match ?x with _ => _ end) => destruct x
      end ].

Lemma wb_write_loop split b total debug idx st :
  wb (write_loop split b total debug idx st).
Proof.
  revert st. induction idx as [|i idx IH]; intros [left written].
  - inside.
  - cbn [write_loop]. inside; apply IH.
Qed.

Lemma wb_file_access_upload_try file_selector file_path debug :
  wb (file_access_upload_try file_selector file_path debug).
Proof.
  unfold file_access_upload_try, write_file_data. cbv zeta.
  inside; apply wb_write_loop.
Qed.

(** An upload returns, and hands nothing but buffers to the camera. *)
Lemma file_access_upload_buffers file_selector file_path debug :
  vpost phase_of (fun r l => only_buffers l /\ exists ok, r = inr ok)
        (file_access_upload file_selector file_path debug).
Proof.
  unfold file_access_upload.
  apply (vpost_try_except _ (fun _ l => only_buffers l)).
  - apply (within_bind _ _ only_buffers_app);
      [apply wb_file_access_upload_try|intros ?; inside].
  - intros a l Hl. eauto.
  - intros e l Hl.
    assert ((match e with FileAccessError _ => Some (ret false) | _ => Some (ret false) end)
            = Some (ret false : M bool)) as -> by by destruct e.
    apply vpost_ret. rewrite app_nil_r. eauto.
Qed.

(** Whatever comes of it, [configure_camera_for_image_injection] sets
    sizes in the order [InjectedWidth], [Width], [InjectedHeight],
    [Height], and as far as it gets. *)
Lemma configure_camera_for_image_injection_sizes width height :
  within phase_of (fun l => l `prefix_of` sizes_set width height)
         (configure_camera_for_image_injection width height).
Proof.
  intros w t.
  destruct (configure_camera_for_image_injection width height w t) as [t' r] eqn:H.
  cbv beta iota delta [fst snd].
  unfold configure_camera_for_image_injection, not_available_or_not, try_except,
    except_Exception in H.
  repeat run_step H w
    ltac:(cbv beta iota delta [ret] in H;
          match type of H with (_, _) = _ => idtac end;
          apply (f_equal fst) in H; cbv beta iota delta [fst] in H; subst t';
          eexists; split; [rewrite <- ?app_assoc; reflexivity|by eexists]).
Qed.

End MonoInjection.

(** ** The raster of a Bayer image *)

Section BayerFacts.
Import Spin Camera Bayer.
Variable item : ndarray -> Z -> Z -> Z -> exn + Z.

Lemma setitem_inr output_data idx v out :
  0 <= idx -> setitem output_data idx v = inr out ->
  idx < Z.of_nat (length output_data) /\ out = <[Z.to_nat idx := v]> output_data.
Proof.
  intros Hidx. unfold setitem.
  destruct (Z.ltb_spec idx 0); [lia|].
  destruct (Z.ltb_spec idx 0); [lia|]. simpl.
  destruct (Z.leb_spec (Z.of_nat (length output_data)) idx); [done|].
  by intros [= <-].
Qed.

(** Positions of a raster of width [w] differ when their rows or their
    columns do. *)
Lemma rows_apart (w y x y' x' : Z) :
  0 <= x < w -> 0 <= x' < w -> y <> y' \/ x <> x' -> y * w + x <> y' * w + x'.
Proof.
  intros Hx Hx' Hne Heq.
  destruct (Z.lt_trichotomy y y') as [Hlt|[->|Hgt]].
  - assert ((y + 1) * w <= y' * w) by (apply Z.mul_le_mono_nonneg_r; lia). lia.
  - lia.
  - assert ((y' + 1) * w <= y * w) by (apply Z.mul_le_mono_nonneg_r; lia). lia.
Qed.

(** One row: the positions of the row are written with their samples,
    every other position is left as it was. *)
Lemma row_loop_spec img out_width rg_row y (k s : nat) output_data out :
  0 <= y * out_width ->
  row_loop item img out_width rg_row y (Z.of_nat <$> seq s k) output_data = inr out ->
  length out = length output_data /\
  (forall p : Z, 0 <= p ->
     (forall x, Z.of_nat s <= x < Z.of_nat s + Z.of_nat k -> p <> y * out_width + x) ->
     out !! Z.to_nat p = output_data !! Z.to_nat p) /\
  (forall x, Z.of_nat s <= x < Z.of_nat s + Z.of_nat k ->
     exists v, sample item img rg_row y x (y * out_width + x) = inr v /\
               out !! Z.to_nat (y * out_width + x) = Some v).
Proof.
  intros Hy. revert s output_data. induction k as [|k IH]; intros s output_data.
  - simpl. intros [= <-]. split; [done|]. split; [done|]. intros x Hx. lia.
  - cbn [seq fmap list_fmap row_loop].
    destruct (sample item img rg_row y (Z.of_nat s) (y * out_width + Z.of_nat s))
      as [e|v] eqn:Hv; [done|].
    destruct (setitem output_data (y * out_width + Z.of_nat s) v) as [e|out1] eqn:Hset;
      [done|].
    apply setitem_inr in Hset as [Hlt ->]; [|lia].
    intros Hrest. destruct (IH (S s) _ Hrest) as (Hlen & Hother & Hrow).
    rewrite length_insert in Hlen. split; [done|]. split.
    + intros p Hp Hnot. rewrite Hother.
      * apply list_lookup_insert_ne. intros Heq.
        apply (Hnot (Z.of_nat s)); [lia|]. lia.
      * done.
      * intros x Hx. apply Hnot. lia.
    + intros x Hx. destruct (decide (x = Z.of_nat s)) as [->|Hne].
      * exists v. split; [done|]. rewrite Hother.
        -- apply list_lookup_insert_eq. lia.
        -- lia.
        -- intros x Hx'. lia.
      * apply Hrow. lia.
Qed.

Lemma lxor_rg_row y : Z.lxor (rg_row_of y) 1 = rg_row_of (y + 1).
Proof.
  unfold rg_row_of. rewrite Z.even_add. simpl.
  by destruct (Z.even y).
Qed.

(** All rows: the interior positions of the rows are written with their
    samples, every other position is left as it was. *)
Lemma rows_loop_spec img out_width (m r : nat) output_data out :
  0 <= out_width ->
  rows_loop item img out_width (Z.of_nat <$> seq r m) (rg_row_of (Z.of_nat r))
            output_data = inr out ->
  length out = length output_data /\
  (forall p : Z, 0 <= p ->
     (forall y x, Z.of_nat r <= y < Z.of_nat r + Z.of_nat m ->
                  0 <= x < out_width - 1 -> p <> y * out_width + x) ->
     out !! Z.to_nat p = output_data !! Z.to_nat p) /\
  (forall y x, Z.of_nat r <= y < Z.of_nat r + Z.of_nat m -> 0 <= x < out_width - 1 ->
     exists v, sample item img (rg_row_of y) y x (y * out_width + x) = inr v /\
               out !! Z.to_nat (y * out_width + x) = Some v).
Proof.
  intros Hw. revert r output_data. induction m as [|m IH]; intros r output_data.
  - simpl. intros [= <-]. split; [done|]. split; [done|]. intros y x Hy. lia.
  - cbn [seq fmap list_fmap rows_loop]. unfold Py.range.
    destruct (row_loop item img out_width (rg_row_of (Z.of_nat r)) (Z.of_nat r)
                (Z.of_nat <$> seq 0 (Z.to_nat (out_width - 1))) output_data)
      as [e|out1] eqn:Hrow; [done|].
    apply row_loop_spec in Hrow as (Hlen1 & Hother1 & Hrow1); [|nia].
    rewrite lxor_rg_row.
    replace (Z.of_nat r + 1) with (Z.of_nat (S r)) by lia.
    intros Hrest. destruct (IH (S r) _ Hrest) as (Hlen & Hother & Hrows).
    split; [congruence|]. split.
    + intros p Hp Hnot. rewrite Hother, Hother1; try done.
      * intros x Hx. apply Hnot; lia.
      * intros y x Hy Hx. apply Hnot; lia.
    + intros y x Hy Hx. destruct (decide (y = Z.of_nat r)) as [->|Hne].
      * destruct (Hrow1 x) as (v & Hv & Hlook); [lia|].
        exists v. split; [done|]. rewrite Hother; [done|nia|].
        intros y' x' Hy' Hx'. apply rows_apart; lia.
      * apply Hrows; lia.
Qed.

(** X16.  The raster that [inject_bayer8_image] builds has
    [out_width * out_height] words.  At row [y] and column [x], below the
    last row and left of the last column, it holds the halved sum of two
    horizontal neighbours of the input: on even rows the red samples at
    [x] and [x + 1] where the position [y * out_width + x] is even and the
    green samples at [x] and [x - 1] where it is odd; on odd rows the
    green samples at [x] and [x + 1] where it is even and the blue samples
    at [x] and [x - 1] where it is odd.  The last row and the last
    column are never written: they hold 0. *)
Theorem bayer_raster_pixels img out_width out_height out :
  bayer_raster item img out_width out_height = inr out ->
  length out = Z.to_nat (out_width * out_height) /\
  forall y x, 0 <= y < out_height -> 0 <= x < out_width ->
    if (y <? out_height - 1) && (x <? out_width - 1)
    then exists v,
           sample item img (if Z.even y then 1 else 0) y x (y * out_width + x) = inr v /\
           out !! Z.to_nat (y * out_width + x) = Some v
    else out !! Z.to_nat (y * out_width + x) = Some 0.
Proof.
  unfold bayer_raster, Py.range.
  destruct (Z.ltb_spec (out_width * out_height) 0) as [|Hn]; [done|].
  intros Hrows.
  destruct (decide (0 <= out_width)) as [Hw|Hw].
  2:{ split.
      - destruct (Z.to_nat (out_height - 1)) as [|m] eqn:Hm.
        + simpl in Hrows. injection Hrows as <-. by rewrite length_replicate.
        + exfalso. assert (2 <= out_height) by lia. nia.
      - intros y x Hy Hx. lia. }
  destruct (rows_loop_spec img out_width (Z.to_nat (out_height - 1)) 0%nat _ out
              Hw Hrows) as (Hlen & Hother & Hpix).
  rewrite length_replicate in Hlen. split; [done|].
  intros y x Hy Hx.
  destruct (Z.ltb_spec y (out_height - 1)) as [Hy'|Hy'];
    [destruct (Z.ltb_spec x (out_width - 1)) as [Hx'|Hx']|]; simpl.
  - apply Hpix; lia.
  - rewrite Hother; [apply lookup_replicate_2; nia|nia|].
    intros y' x' Hy'' Hx''. apply rows_apart; lia.
  - rewrite Hother; [apply lookup_replicate_2; nia|nia|].
    intros y' x' Hy'' Hx''. apply rows_apart; lia.
Qed.


Lemma halved_sum_8bit a b : 0 <= a < 256 -> 0 <= b < 256 -> 0 <= halved_sum a b < 256.
Proof.
  intros Ha Hb. unfold halved_sum. change (2 ^ 16) with 65536.
  rewrite Z.mod_small by lia.
  split; [apply Z.div_pos; lia|apply Z.div_lt_upper_bound; lia].
Qed.

Lemma sample_8bit img rg_row y x idx v :
  (forall y x c v, item img y x c = inr v -> 0 <= v < 256) ->
  sample item img rg_row y x idx = inr v -> 0 <= v < 256.
Proof.
  intros Hitem. unfold sample, averaged.
  destruct (negb (rg_row =? 0)), (idx mod 2 =? 0);
    repeat match goal with
           | |- context [item ?i ?a ?b ?c] =>
               let H := fresh "Hitem" in destruct (item i a b c) eqn:H; [done|]
           end;
    intros [= <-]; apply halved_sum_8bit; eauto.
Qed.

Lemma row_loop_8bit img out_width rg_row y xs output_data out :
  (forall y x c v, item img y x c = inr v -> 0 <= v < 256) ->
  Forall (fun v => 0 <= v < 256) output_data ->
  row_loop item img out_width rg_row y xs output_data = inr out ->
  Forall (fun v => 0 <= v < 256) out.
Proof.
  intros Hitem. revert output_data.
  induction xs as [|x xs IH]; intros output_data Hall; simpl; [by intros [= <-]|].
  destruct (sample item img rg_row y x (y * out_width + x)) as [e|v] eqn:Hv; [done|].
  unfold setitem.
  destruct (_ || _); [done|]. apply IH.
  apply Forall_insert; [done|]. by eapply sample_8bit.
Qed.

Lemma rows_loop_8bit img out_width ys rg_row output_data out :
  (forall y x c v, item img y x c = inr v -> 0 <= v < 256) ->
  Forall (fun v => 0 <= v < 256) output_data ->
  rows_loop item img out_width ys rg_row output_data = inr out ->
  Forall (fun v => 0 <= v < 256) out.
Proof.
  intros Hitem. revert rg_row output_data.
  induction ys as [|y ys IH]; intros rg_row output_data Hall; simpl;
    [by intros [= <-]|].
  destruct (row_loop item img out_width rg_row y _ output_data) as [e|out1] eqn:Hrow;
    [done|].
  apply IH. by eapply row_loop_8bit.
Qed.

(** X17.  For an image of 8-bit samples, every word of the file that
    [inject_bayer8_image] writes is a multiple of 4 between 0 and 1020: a
    10-bit value in the 16-bit container, four times a word of the
    raster. *)
Theorem bayer_raster_10bit img out_width out_height out :
  (forall y x c v, item img y x c = inr v -> 0 <= v < 256) ->
  bayer_raster item img out_width out_height = inr out ->
  lshift2_uint16 <$> (astype_uint16 <$> out) = (fun v => v * 4) <$> out /\
  Forall (fun word => 0 <= word <= 1020 /\ word mod 4 = 0)
         (lshift2_uint16 <$> (astype_uint16 <$> out)).
Proof.
  intros Hitem. unfold bayer_raster.
  destruct (out_width * out_height <? 0); [done|]. intros Hrows.
  assert (Forall (fun v => 0 <= v < 256) out) as Hout.
  { eapply rows_loop_8bit; [done| |exact Hrows].
    apply Forall_replicate. lia. }
  assert (lshift2_uint16 <$> (astype_uint16 <$> out) = (fun v => v * 4) <$> out) as ->.
  { rewrite <- list_fmap_compose. apply Forall_fmap_ext_1.
    eapply Forall_impl; [exact Hout|]. intros v Hv. by apply lshift2_astype_uint8. }
  split; [done|]. apply Forall_fmap. eapply Forall_impl; [exact Hout|].
  intros v Hv. simpl in Hv |- *. rewrite Z.mod_mul by done. lia.
Qed.

End BayerFacts.

Section BayerRuns.
Import Spin Camera Bayer.

Lemma item3_8bit img y x c v :
  Forall (fun v => 0 <= v < 256) (data img) ->
  item3 img y x c = inr v -> 0 <= v < 256.
Proof.
  intros Hdata. unfold item3.
  destruct (shape img) as [|h [|w [|ch [|? ?]]]]; try done.
  destruct (normal_index h y), (normal_index w x), (normal_index ch c); try done.
  destruct (data img !! _) as [v'|] eqn:Hv'; [|done]. intros [= <-].
  pose proof (Forall_lookup_1 _ _ _ _ Hdata Hv') as Hr. simpl in Hr.
  unfold astype_uint16. rewrite Z.mod_small; change (2 ^ 16) with 65536; lia.
Qed.

Lemma bayer_raster_pixels_witness :
  length [15; 16; 0; 52; 56; 0; 0; 0; 0] = Z.to_nat (3 * 3) /\
  [15; 16; 0; 52; 56; 0; 0; 0; 0] !! Z.to_nat (2 * 3 + 1) = Some 0.
Proof.
  destruct (bayer_raster_pixels item3 nine_pixels 3 3 [15; 16; 0; 52; 56; 0; 0; 0; 0])
    as [Hlen Hpix].
  - vm_compute. reflexivity.
  - split; [exact Hlen|]. apply (Hpix 2 1); lia.
Defined.

Lemma bayer_raster_10bit_witness :
  lshift2_uint16 <$> (astype_uint16 <$> [15; 16; 0; 52; 56; 0; 0; 0; 0])
  = (fun v => v * 4) <$> [15; 16; 0; 52; 56; 0; 0; 0; 0] /\
  Forall (fun word => 0 <= word <= 1020 /\ word mod 4 = 0)
         (lshift2_uint16 <$> (astype_uint16 <$> [15; 16; 0; 52; 56; 0; 0; 0; 0])).
Proof.
  apply (bayer_raster_10bit item3 nine_pixels 3 3).
  - intros y x c v. apply item3_8bit. repeat constructor; done.
  - vm_compute. reflexivity.
Defined.

End BayerRuns.

(** ** The phases of an image injection *)

Section InjectionPhases.
Import Spin FileAccess Camera Views Phases Bayer Discipline.
Local Open Scope spin_scope.

(** What both injection routines do once the temporary file is written:
    the upload hands buffers to the camera and returns, the file is
    removed, and the sizes are set as far as the configuration gets. *)
Lemma upload_remove_configure_phases (img : ndarray) path (w : World) t :
  exists d bufs sizes width height,
    fst ((result <- inject_10bit_image path ;;
          call (Remove path) ;;;
          height <- getitem (shape img) 0 ;;
          width <- getitem (shape img) 1 ;;
          configure_camera_for_image_injection width height) w t) = t ++ d /\
    view phase_of d = (PBuf <$> bufs) ++ [PRemove path] ++ sizes /\
    sizes `prefix_of` sizes_set width height /\
    (sizes <> [] ->
     shape img !! 0%nat = Some height /\ shape img !! 1%nat = Some width).
Proof.
  unfold inject_10bit_image.
  destruct (file_access_upload_buffers "InjectedImage" path false w t)
    as (d2 & Hf2 & (bufs & Hb) & ok & Hok).
  unfold bind at 1.
  destruct (file_access_upload "InjectedImage" path false w t) as [t2 r2].
  simpl in Hf2, Hok. subst t2 r2.
  rewrite bind_call_run.
  destruct (w (t ++ d2) unit (Remove path)) as [e|[]].
  { exists (d2 ++ [Ev (Remove path) (inl e)]), bufs, [], 0, 0.
    rewrite <- !app_assoc. split; [done|].
    rewrite !view_app, Hb. repeat split; try done. apply prefix_nil. }
  set (t3 := (t ++ d2) ++ [Ev (Remove path) (inr ())]).
  assert (forall d4 sizes width height,
            view phase_of d4 = sizes ->
            sizes `prefix_of` sizes_set width height ->
            (sizes <> [] ->
             shape img !! 0%nat = Some height /\ shape img !! 1%nat = Some width) ->
            exists d bufs sizes width height,
              t3 ++ d4 = t ++ d /\
              view phase_of d = (PBuf <$> bufs) ++ [PRemove path] ++ sizes /\
              sizes `prefix_of` sizes_set width height /\
              (sizes <> [] ->
               shape img !! 0%nat = Some height /\ shape img !! 1%nat = Some width))
    as Hend.
  { intros d4 sizes width height Hv Hpre Hshape.
    exists (d2 ++ [Ev (Remove path) (inr ())] ++ d4), bufs, sizes, width, height.
    subst t3. rewrite <- !app_assoc. split; [done|].
    rewrite !view_app, Hb, Hv. done. }
  cbv beta. unfold getitem. cbn [Z.ltb Z.compare].
  change (Z.to_nat 0) with 0%nat. change (Z.to_nat 1) with 1%nat.
  destruct (shape img !! 0%nat) as [height|] eqn:Hheight.
  2:{ destruct (Hend [] [] 0 0) as (d & Hd); [done|apply prefix_nil|done|].
      rewrite app_nil_r in Hd. exact (ex_intro _ d Hd). }
  rewrite bind_ret_run.
  destruct (shape img !! 1%nat) as [width|] eqn:Hwidth.
  2:{ destruct (Hend [] [] 0 0) as (d & Hd); [done|apply prefix_nil|done|].
      rewrite app_nil_r in Hd. exact (ex_intro _ d Hd). }
  rewrite bind_ret_run.
  destruct (configure_camera_for_image_injection_sizes width height w t3)
    as (d4 & Hf4 & Hpre).
  rewrite Hf4. by apply (Hend d4 (view phase_of d4) width height).
Qed.

(** X15.  [inject_mono8_image] works in this order: it writes the 10-bit
    raster to the temporary file; it hands buffers to the camera; it
    removes the temporary file, once, whether the upload returned [True]
    or [False]; only then it sets sizes on the camera, [InjectedWidth] and
    [Width] to [shape[1]], [InjectedHeight] and [Height] to [shape[0]], as
    far as the configuration gets.  When writing the temporary file
    raises, nothing else is done and nothing is removed. *)
Theorem inject_mono8_image_phases img path (w : World) t :
  exists d bufs sizes width height,
    fst (inject_mono8_image img path w t) = t ++ d /\
    view phase_of d =
      match w t unit (ToFile path (output_data img)) with
      | inl _ => [PWrite path (output_data img)]
      | inr _ => [PWrite path (output_data img)] ++ (PBuf <$> bufs)
                 ++ [PRemove path] ++ sizes
      end /\
    sizes `prefix_of` sizes_set width height /\
    (sizes <> [] ->
     shape img !! 0%nat = Some height /\ shape img !! 1%nat = Some width).
Proof.
  unfold inject_mono8_image, convert_raw_image_8bit_to_10bit.
  rewrite bind_bind_run, bind_call_run.
  destruct (w t unit (ToFile path (output_data img))) as [e|[]].
  { exists [Ev (ToFile path (output_data img)) (inl e)], [], [], 0, 0.
    repeat split; try done. apply prefix_nil. }
  cbv beta. rewrite bind_ret_run. cbn [negb].
  destruct (upload_remove_configure_phases img path w
              (t ++ [Ev (ToFile path (output_data img)) (inr ())]))
    as (d & bufs & sizes & width & height & Hfst & Hview & Hrest).
  exists ([Ev (ToFile path (output_data img)) (inr ())] ++ d), bufs, sizes, width, height.
  rewrite Hfst, <- app_assoc, view_app, Hview. done.
Qed.

Lemma inject_mono8_image_phases_example :
  view phase_of
    (fst (inject_mono8_image {| shape := [2; 2]; data := [0; 1; 128; 255] |} "temp.raw"
            (Worlds.camera Worlds.five_bytes 2 FileOperationStatus_Success) [])) =
  [PWrite "temp.raw" [0; 4; 512; 1020];
   PBuf [Byte.x01; Byte.x02]; PBuf [Byte.x03; Byte.x04]; PBuf [Byte.x05];
   PRemove "temp.raw";
   PSize (NodeByName "InjectedWidth") 2; PSize (NodeByName "Width") 2;
   PSize (NodeByName "InjectedHeight") 2; PSize (NodeByName "Height") 2].
Proof. vm_compute. reflexivity. Qed.

Section Interleaved.
Variable item : ndarray -> Z -> Z -> Z -> exn + Z.

Lemma yields_inject_bayer8_image img out_width out_height path :
  yields (fun r => r <> Some true)
         (inject_bayer8_image item img out_width out_height path).
Proof.
  unfold inject_bayer8_image.
  destruct (negb _); [apply yields_raise|].
  destruct (bayer_raster item img out_width out_height); [apply yields_raise|].
  cbv zeta. repeat (apply yields_bind; intros ?). apply yields_configure.
Qed.

(** X18.  [inject_bayer8_image] touches neither the host nor the camera
    when its size check fails or when building the raster raises: it
    raises [AssertionError], or the exception of the raster.  Otherwise
    it works in the order of [inject_mono8_image]: it writes the raster,
    each word shifted left by two bits, to the temporary file; it hands
    buffers to the camera; it removes the temporary file, once, whether
    the upload returned [True] or [False]; only then it sets sizes, to
    [shape[1]] and [shape[0]], as far as the configuration gets.  It never
    returns [True]. *)
Theorem inject_bayer8_image_phases img out_width out_height path (w : World) t :
  snd (inject_bayer8_image item img out_width out_height path w t) <> inr (Some true) /\
  if negb (out_width * out_height =? Z.quot (size img) 3)
  then inject_bayer8_image item img out_width out_height path w t
       = (t, inl (OtherException "AssertionError"))
  else
    match bayer_raster item img out_width out_height with
    | inl e => inject_bayer8_image item img out_width out_height path w t = (t, inl e)
    | inr output_data =>
        let output := lshift2_uint16 <$> (astype_uint16 <$> output_data) in
        exists d bufs sizes width height,
          fst (inject_bayer8_image item img out_width out_height path w t) = t ++ d /\
          view phase_of d =
            match w t unit (ToFile path output) with
            | inl _ => [PWrite path output]
            | inr _ => [PWrite path output] ++ (PBuf <$> bufs)
                       ++ [PRemove path] ++ sizes
            end /\
          sizes `prefix_of` sizes_set width height /\
          (sizes <> [] ->
           shape img !! 0%nat = Some height /\ shape img !! 1%nat = Some width)
    end.
Proof.
  split.
  { intros Hr. by apply (yields_inject_bayer8_image img out_width out_height path w t
                           (Some true)). }
  unfold inject_bayer8_image.
  destruct (negb _); [done|].
  destruct (bayer_raster item img out_width out_height) as [e|output_data]; [done|].
  cbv zeta. rewrite bind_call_run.
  destruct (w t unit (ToFile path _)) as [e|[]].
  { exists [Ev (ToFile path (lshift2_uint16 <$> (astype_uint16 <$> output_data))) (inl e)],
      [], [], 0, 0.
    repeat split; try done. apply prefix_nil. }
  destruct (upload_remove_configure_phases img path w
              (t ++ [Ev (ToFile path (lshift2_uint16 <$> (astype_uint16 <$> output_data)))
                        (inr ())]))
    as (d & bufs & sizes & width & height & Hfst & Hview & Hrest).
  exists ([Ev (ToFile path (lshift2_uint16 <$> (astype_uint16 <$> output_data)))
              (inr ())] ++ d), bufs, sizes, width, height.
  rewrite Hfst, <- app_assoc, view_app, Hview. done.
Qed.

End Interleaved.

(** Three rows of three pixels on a camera that accepts everything. *)
Example inject_bayer8_image_nine_pixels :
  view phase_of
    (fst (inject_bayer8_image item3 nine_pixels 3 3 "temp.raw"
            (Worlds.camera Worlds.five_bytes 2 FileOperationStatus_Success) [])) =
  [PWrite "temp.raw" [60; 64; 0; 208; 224; 0; 0; 0; 0];
   PBuf [Byte.x01; Byte.x02]; PBuf [Byte.x03; Byte.x04]; PBuf [Byte.x05];
   PRemove "temp.raw";
   PSize (NodeByName "InjectedWidth") 3; PSize (NodeByName "Width") 3;
   PSize (NodeByName "InjectedHeight") 3; PSize (NodeByName "Height") 3].
Proof. vm_compute. reflexivity. Qed.

End InjectionPhases.
